(** * Stabilizer-tableau decomposition over GF(2): a shallow embedding of
      [decompose.py] and the properties its specification states.

    Part I embeds the program: numpy arrays as lists of rows of integers,
    [for] loops as folds over [range], the kernel a second time on array
    objects in a store, the external simulator as an interface.  Part II
    holds the lemmas on arrays and loops and the linear algebra over GF(2)
    the proofs need.  Part III proves the properties, component by
    component. *)

From Stdlib Require Import String ZArith List Lia Bool Arith Setoid Morphisms.
From Stdlib Require Import Sorted.
Import ListNotations.

Set Implicit Arguments.

(* ================================================================== *)
(** * Part I.  The program                                              *)
(* ================================================================== *)

(** ** Arrays

    A two-dimensional numpy array is a list of rows.  Reads that numpy
    would reject with [IndexError] return 0 here and writes out of range
    leave the array as it is; every statement below carries the shape
    hypothesis under which the source stays in range. *)

Definition matrix := list (list Z).

Definition get (M : matrix) (i j : nat) : Z := nth j (nth i M []) 0%Z.

(** [A.shape] *)
Definition nrows (M : matrix) : nat := length M.
Definition ncols (M : matrix) : nat := length (hd [] M).

Fixpoint upd {A : Type} (l : list A) (i : nat) (x : A) : list A :=
  match l, i with
  | [], _ => []
  | _ :: t, O => x :: t
  | h :: t, S i' => h :: upd t i' x
  end.

(** [M[i, j] = v] *)
Definition set (M : matrix) (i j : nat) (v : Z) : matrix :=
  upd M i (upd (nth i M []) j v).

(** [M[k, :] = (M[k, :] + M[i, :]) % 2].  On cells that are 0 or 1 the
    sum is at most 2, within every integer type an array can have. *)
Definition vadd2 (u v : list Z) : list Z :=
  map (fun p => ((fst p + snd p) mod 2)%Z) (combine u v).

Definition add_row (M : matrix) (k i : nat) : matrix :=
  upd M k (vadd2 (nth k M []) (nth i M [])).

(** [M[:, t] = (M[:, t] + M[:, s]) % 2] *)
Definition add_col (M : matrix) (t s : nat) : matrix :=
  map (fun r => upd r t ((nth t r 0 + nth s r 0) mod 2)%Z) M.

(** [np.zeros((n, m))], [np.identity(n)] *)
Definition zeros (n m : nat) : matrix := repeat (repeat 0%Z m) n.

Definition identity (n : nat) : matrix :=
  map (fun i => map (fun j => if Nat.eqb i j then 1%Z else 0%Z) (seq 0 n))
      (seq 0 n).

(** [np.hstack((a, b))], [np.vstack((a, b))] *)
Definition hstack (a b : matrix) : matrix :=
  map (fun p => fst p ++ snd p) (combine a b).

Definition vstack (a b : matrix) : matrix := a ++ b.

(** [M[r0:r1, c0:c1]]: slices clip at the array's bounds. *)
Definition slice (M : matrix) (r0 r1 c0 c1 : nat) : matrix :=
  map (fun r => firstn (c1 - c0) (skipn c0 r)) (firstn (r1 - r0) (skipn r0 M)).

(** [M.T] *)
Definition transpose (M : matrix) : matrix :=
  map (fun j => map (fun i => get M i j) (seq 0 (nrows M))) (seq 0 (ncols M)).

(** An 8-bit signed cell: what an [np.int8] array keeps of an integer. *)
Definition wrap8 (z : Z) : Z := ((z + 128) mod 256 - 128)%Z.

(** [sum(f(k) for k in range(n))] *)
Fixpoint sumZ (n : nat) (f : nat -> Z) : Z :=
  match n with
  | O => 0%Z
  | S n' => (sumZ n' f + f n')%Z
  end.

(** [A @ B] on [int8] operands: every cell of the product is an [int8]. *)
Definition matmul8 (A B : matrix) : matrix :=
  map (fun i => map (fun j =>
         wrap8 (sumZ (ncols A) (fun k => get A i k * get B k j)%Z))
       (seq 0 (ncols B))) (seq 0 (nrows A)).

(** [(X - Y) % 2], cell by cell *)
Definition sub_mod2 (X Y : matrix) : matrix :=
  map (fun p => map (fun q => ((fst q - snd q) mod 2)%Z)
                    (combine (fst p) (snd p)))
      (combine X Y).

(** ** Loops *)

(** [range(lo, hi)] and [range(hi - 1, -1, -1)] *)
Definition range (lo hi : nat) : list nat := seq lo (hi - lo).
Definition range_down (hi : nat) : list nat := rev (seq 0 hi).

(** [for i in l: body] *)
Definition for_each {St : Type} (l : list nat) (body : nat -> St -> St)
  (s : St) : St :=
  fold_left (fun s i => body i s) l s.

(** [for i in l: body], where [body] may [break]: it returns [true]
    to leave the loop. *)
Fixpoint for_each_break {St : Type} (l : list nat)
  (body : nat -> St -> St * bool) (s : St) : St :=
  match l with
  | [] => s
  | i :: l' =>
      let (s', brk) := body i s in
      if brk then s' else for_each_break l' body s'
  end.

(** ** Symplectic basis transform *)

(** Lines 30-35: the four quadrants are filled cell by cell. *)
Definition quads := (matrix * matrix * matrix * matrix)%type.

Definition transform_cell (S : matrix) (j k : nat) (q : quads) : quads :=
  let '(a, b, c, d) := q in
  (set a j k (wrap8 (get S (2 * k) (2 * j))),
   set b j k (wrap8 (get S (2 * k + 1) (2 * j))),
   set c j k (wrap8 (get S (2 * k) (2 * j + 1))),
   set d j k (wrap8 (get S (2 * k + 1) (2 * j + 1)))).

Definition transform_symplectic (S : matrix) : matrix :=
  let n := nrows S / 2 in
  let q0 := (zeros n n, zeros n n, zeros n n, zeros n n) in
  let '(a, b, c, d) :=
    for_each (range 0 n) (fun j =>
      for_each (range 0 n) (fun k => transform_cell S j k)) q0 in
  let top := hstack a b in
  let bottom := hstack c d in
  vstack top bottom.

(** ** GF(2) kernel *)

Definition step := (nat * nat)%type.

(** Lines 87-100: make the matrix lower triangular. *)
Definition col_fix_pivot (i n : nat) (st : matrix * list step)
  : matrix * list step :=
  let (M, steps) := st in
  if negb (get M i i =? 1)%Z then
    for_each_break (range (i + 1) n) (fun j st =>
      let (M, steps) := st : matrix * list step in
      if (get M i j =? 1)%Z
      then ((add_col M i j, steps ++ [(j, i)]), true)
      else ((M, steps), false)) (M, steps)
  else (M, steps).

Definition col_clear (i : nat) (j : nat) (st : matrix * list step)
  : matrix * list step :=
  let (M, steps) := st in
  if (get M i j =? 1)%Z
  then (add_col M j i, steps ++ [(i, j)])
  else (M, steps).

Definition col_lower (n : nat) (st : matrix * list step) :=
  for_each (range 0 n) (fun i st =>
    for_each (range (i + 1) n) (col_clear i) (col_fix_pivot i n st)) st.

(** Lines 104-109: clear what is left below the diagonal. *)
Definition col_upper (n : nat) (st : matrix * list step) :=
  for_each (range_down n) (fun i st =>
    for_each (range_down i) (col_clear i) st) st.

(** The array the elimination ends with, and the steps it records.
    [np.copy(A)] is [A] itself here: values are immutable. *)
Definition col_wise_run (A : matrix) : matrix * list step :=
  let M := A in
  let n := nrows M in
  col_upper n (col_lower n (M, [])).

Definition col_wise_gaussian_elimination_steps (A : matrix) : list step :=
  snd (col_wise_run A).

Definition pivot := (nat * nat)%type.

(** The loop state of lines 172-197: the working copy, the row counter
    and the pivots found so far. *)
Record rw_state := RW { rw_M : matrix; rw_k : nat; rw_pivots : list pivot }.

(** Lines 180-188: [(M, found_pivot)] after the search in column [j]. *)
Definition row_find_pivot (n k j : nat) (M : matrix) : matrix * bool :=
  if (get M k j =? 1)%Z then (M, true)
  else
    for_each_break (range (k + 1) n) (fun i st =>
      let (M, found) := st : matrix * bool in
      if (get M i j =? 1)%Z
      then ((add_row M k i, true), true)
      else ((M, found), false)) (M, false).

(** Lines 194-196 *)
Definition row_eliminate (n k j : nat) (M : matrix) : matrix :=
  for_each (range (k + 1) n) (fun i M =>
    if (get M i j =? 1)%Z then add_row M i k else M) M.

Definition row_body (n : nat) (j : nat) (s : rw_state) : rw_state * bool :=
  if Nat.eqb (rw_k s) n then (s, true)
  else
    let (M, found_pivot) := row_find_pivot n (rw_k s) j (rw_M s) in
    if found_pivot
    then (RW (row_eliminate n (rw_k s) j M) (rw_k s + 1)
             (rw_pivots s ++ [(rw_k s, j)]), false)
    else (RW M (rw_k s) (rw_pivots s), false).

Definition row_wise_run (A : matrix) : rw_state :=
  let M := A in
  let n := nrows M in
  let m := ncols M in
  for_each_break (range 0 m) (row_body n) (RW M 0 []).

Definition row_wise_gaussian_elimination_pivots (A : matrix) : list pivot :=
  rw_pivots (row_wise_run A).

Definition get_rank (A : matrix) : nat :=
  length (row_wise_gaussian_elimination_pivots A).

(** Lines 131-134.  The [%] of Python takes the sign of the divisor, as
    [Z.modulo] does; the cell written is an [int8].  The sum [s] is kept
    unbounded: were it accumulated in eight bits it would differ by a
    multiple of 256, which [% 2] removes ([wrap8_mod2] below). *)
Definition find_M_cell (A : matrix) (j i : nat) (M : matrix) : matrix :=
  let s := sumZ j (fun k => get M i k * get M j k)%Z in
  set M i j (wrap8 ((get A i j - s) mod 2)%Z).

Definition find_M (A : matrix) : matrix :=
  let n := nrows A in
  let M := identity n in
  for_each (range 0 n) (fun j =>
    for_each (range (j + 1) n) (find_M_cell A j)) M.

Definition get_hadamard_steps (c d : matrix) : list nat :=
  let M := hstack c d in
  let n := nrows M in
  let pivots := row_wise_gaussian_elimination_pivots M in
  map (fun p => snd p - n) (filter (fun p => Nat.leb n (snd p)) pivots).

(** ** The kernel on array objects

    Above, an array is a value and [np.copy] is the identity.  Here arrays
    are objects in a store, arguments are references, [np.copy],
    [np.identity] and [np.hstack] allocate, and an assignment to a row, a
    column or a cell updates the object in place. *)
Module Ref.

Definition loc := nat.
Definition heap := list matrix.

Definition load (h : heap) (p : loc) : matrix := nth p h [].
Definition store (h : heap) (p : loc) (M : matrix) : heap := upd h p M.
Definition alloc (h : heap) (M : matrix) : heap * loc := (h ++ [M], length h).

Definition col_fix_pivot (pM : loc) (i n : nat) (st : heap * list step)
  : heap * list step :=
  let (h, steps) := st in
  if negb (get (load h pM) i i =? 1)%Z then
    for_each_break (range (i + 1) n) (fun j st =>
      let (h, steps) := st : heap * list step in
      if (get (load h pM) i j =? 1)%Z
      then ((store h pM (add_col (load h pM) i j), steps ++ [(j, i)]), true)
      else ((h, steps), false)) (h, steps)
  else (h, steps).

Definition col_clear (pM : loc) (i : nat) (j : nat) (st : heap * list step)
  : heap * list step :=
  let (h, steps) := st in
  if (get (load h pM) i j =? 1)%Z
  then (store h pM (add_col (load h pM) j i), steps ++ [(i, j)])
  else (h, steps).

Definition col_wise_gaussian_elimination_steps (pA : loc) (h : heap)
  : list step * heap :=
  let (h, pM) := alloc h (load h pA) in
  let n := nrows (load h pM) in
  let st := (h, []) in
  let st := for_each (range 0 n) (fun i st =>
              for_each (range (i + 1) n) (col_clear pM i)
                       (col_fix_pivot pM i n st)) st in
  let st := for_each (range_down n) (fun i st =>
              for_each (range_down i) (col_clear pM i) st) st in
  (snd st, fst st).

Record rw_state := RW { rw_h : heap; rw_k : nat; rw_pivots : list pivot }.

Definition row_find_pivot (pM : loc) (n k j : nat) (h : heap) : heap * bool :=
  if (get (load h pM) k j =? 1)%Z then (h, true)
  else
    for_each_break (range (k + 1) n) (fun i st =>
      let (h, found) := st : heap * bool in
      if (get (load h pM) i j =? 1)%Z
      then ((store h pM (add_row (load h pM) k i), true), true)
      else ((h, found), false)) (h, false).

Definition row_eliminate (pM : loc) (n k j : nat) (h : heap) : heap :=
  for_each (range (k + 1) n) (fun i h =>
    if (get (load h pM) i j =? 1)%Z
    then store h pM (add_row (load h pM) i k) else h) h.

Definition row_body (pM : loc) (n : nat) (j : nat) (s : rw_state)
  : rw_state * bool :=
  if Nat.eqb (rw_k s) n then (s, true)
  else
    let (h, found_pivot) := row_find_pivot pM n (rw_k s) j (rw_h s) in
    if found_pivot
    then (RW (row_eliminate pM n (rw_k s) j h) (rw_k s + 1)
             (rw_pivots s ++ [(rw_k s, j)]), false)
    else (RW h (rw_k s) (rw_pivots s), false).

Definition row_wise_gaussian_elimination_pivots (pA : loc) (h : heap)
  : list pivot * heap :=
  let (h, pM) := alloc h (load h pA) in
  let n := nrows (load h pM) in
  let m := ncols (load h pM) in
  let s := for_each_break (range 0 m) (row_body pM n) (RW h 0 []) in
  (rw_pivots s, rw_h s).

Definition find_M_cell (pA pM : loc) (j i : nat) (h : heap) : heap :=
  let s := sumZ j (fun k => get (load h pM) i k * get (load h pM) j k)%Z in
  store h pM (set (load h pM) i j (wrap8 ((get (load h pA) i j - s) mod 2)%Z)).

(** Returns the reference to the new array [M]. *)
Definition find_M (pA : loc) (h : heap) : loc * heap :=
  let n := nrows (load h pA) in
  let (h, pM) := alloc h (identity n) in
  let h := for_each (range 0 n) (fun j =>
             for_each (range (j + 1) n) (find_M_cell pA pM j)) h in
  (pM, h).

Definition get_hadamard_steps (pc pd : loc) (h : heap) : list nat * heap :=
  let (h, pM) := alloc h (hstack (load h pc) (load h pd)) in
  let n := nrows (load h pM) in
  let (pivots, h) := row_wise_gaussian_elimination_pivots pM h in
  (map (fun p => snd p - n) (filter (fun p => Nat.leb n (snd p)) pivots), h).

End Ref.

(** ** Gate records and the simulator *)

(** [(gate, q_1, q_2)]: the second qubit is [None] for one-qubit gates. *)
Definition gate := (string * Z * option Z)%type.

(** The simulator is not part of this module: only its [state] array and
    its gate methods are used.  Its methods are taken to return. *)
Class Simulator (S : Type) := {
  sim_state : S -> matrix;
  apply_hadamard : Z -> S -> S;
  apply_cnot : Z -> option Z -> S -> S;
  apply_phase : Z -> S -> S;
  apply_x : Z -> S -> S;
  apply_y : Z -> S -> S;
  apply_z : Z -> S -> S
}.

Inductive exn := ValueError (msg : string).

Definition gate_type_msg : string :=
  "gate type must be in {'c', 'h', 'p', 'z', 'x', 'y'}".

Section WithSimulator.
Context {S : Type} `{Simulator S}.

(** Lines 363-377: one turn of the loop; [inr] is the [raise]. *)
Definition apply_gate (g : gate) (sim : S) : S + exn :=
  let '(gate, q1, q2) := g in
  if String.eqb gate "c" then inl (apply_cnot q1 q2 sim)
  else if String.eqb gate "h" then inl (apply_hadamard q1 sim)
  else if String.eqb gate "p" then inl (apply_phase q1 sim)
  else if String.eqb gate "z" then inl (apply_z q1 sim)
  else if String.eqb gate "x" then inl (apply_x q1 sim)
  else if String.eqb gate "y" then inl (apply_y q1 sim)
  else inr (ValueError gate_type_msg).

(** The simulator is mutated in place, so the state it has reached is
    there whether the call returns ([None]) or raises. *)
Fixpoint apply_gates (gates : list gate) (sim : S) : S * option exn :=
  match gates with
  | [] => (sim, None)
  | g :: rest =>
      match apply_gate g sim with
      | inl sim' => apply_gates rest sim'
      | inr e => (sim, Some e)
      end
  end.

(** *** decompose_state

    The loop state is the simulator together with the list [gates]. *)
Definition dstate := (S * list gate)%type.

(** The quadrant views of lines 229-232 alias [sim.state]: reading one
    reads the simulator's current array. *)
Definition qubits_of (sim : S) : nat := nrows (sim_state sim) / 2.
Definition view_a (n : nat) (sim : S) := slice (sim_state sim) 0 n 0 n.
Definition view_b (n : nat) (sim : S) := slice (sim_state sim) 0 n n (2 * n).
Definition view_c (n : nat) (sim : S) := slice (sim_state sim) n (2 * n) 0 n.
Definition view_d (n : nat) (sim : S) :=
  slice (sim_state sim) n (2 * n) n (2 * n).

(** Lines 239-240 *)
Definition do_hadamard (i : nat) (st : dstate) : dstate :=
  let (sim, gates) := st in
  (apply_hadamard (Z.of_nat i) sim, gates ++ [("h"%string, Z.of_nat i, None)]).

(** Lines 247-248 *)
Definition do_cnot (i j : nat) (st : dstate) : dstate :=
  let (sim, gates) := st in
  (apply_cnot (Z.of_nat i) (Some (Z.of_nat j)) sim,
   gates ++ [("c"%string, Z.of_nat i, Some (Z.of_nat j))]).

(** Lines 260-263: one call on the simulator, three records. *)
Definition do_phase (i : nat) (st : dstate) : dstate :=
  let (sim, gates) := st in
  (apply_phase (Z.of_nat i) sim,
   ((gates ++ [("p"%string, Z.of_nat i, None)])
           ++ [("p"%string, Z.of_nat i, None)])
           ++ [("p"%string, Z.of_nat i, None)]).

(** Steps 2, 6 and 11 *)
Definition stage_cnots (view : nat -> S -> matrix) (n : nat) (st : dstate)
  : dstate :=
  let steps := col_wise_gaussian_elimination_steps (view n (fst st)) in
  fold_left (fun st p => do_cnot (fst p) (snd p) st) steps st.

(** Steps 3-4 and 8-9: [M] and [L] are computed once, before the loops. *)
Definition stage_factor (view : nat -> S -> matrix) (n : nat) (st : dstate)
  : dstate :=
  let M := find_M (view n (fst st)) in
  let L := sub_mod2 (matmul8 M (transpose M)) (view n (fst st)) in
  let st := for_each (range 0 n) (fun i st =>
              if (get L i i =? 1)%Z then do_phase i st else st) st in
  for_each (range 0 n) (fun j =>
    for_each (range (j + 1) n) (fun i st =>
      if (get M i j =? 1)%Z then do_cnot i j st else st)) st.

(** Steps 5 and 10 *)
Definition stage_phases (n : nat) (st : dstate) : dstate :=
  for_each (range 0 n) do_phase st.

(** The list as accumulated by steps 1-11, before step 12 reverses it,
    with the simulator as the run leaves it. *)
Definition decompose_run (sim : S) : dstate :=
  let gates : list gate := [] in
  let n := qubits_of sim in
  let st := (sim, gates) in
  (* Step 1 *)
  let steps := get_hadamard_steps (view_c n (fst st)) (view_d n (fst st)) in
  let st := for_each steps do_hadamard st in
  (* Step 2 *)
  let st := stage_cnots view_c n st in
  (* Steps 3, 4 *)
  let st := stage_factor view_d n st in
  (* Step 5 *)
  let st := stage_phases n st in
  (* Step 6 *)
  let st := stage_cnots view_c n st in
  (* Step 7 *)
  let st := for_each (range 0 n) do_hadamard st in
  (* Steps 8, 9 *)
  let st := stage_factor view_b n st in
  (* Step 10 *)
  let st := stage_phases n st in
  (* Step 11 *)
  stage_cnots view_a n st.

(** Step 12 *)
Definition decompose_state (sim : S) : list gate :=
  rev (snd (decompose_run sim)).

End WithSimulator.

(** ** Two simulators to run the module against *)

(** Modelled from the spec: the simulator class ([CHP_Simulation]) is not
    part of this module.  Its tableau is updated by the standard stabilizer
    rules, on the layout the decomposition reads (columns [0..n) hold the
    X part, columns [n..2n) the Z part): Hadamard on [q] exchanges columns
    [q] and [n + q]; Phase on [q] adds column [q] into column [n + q];
    CNOT from [s] to [t] adds column [s] into column [t] and column
    [n + t] into column [n + s].  Sign bits are not kept, and the Pauli
    gates, which change signs only, leave the array as it is. *)
Definition swap_col (M : matrix) (p q : nat) : matrix :=
  map (fun r => upd (upd r p (nth q r 0%Z)) q (nth p r 0%Z)) M.

(** Modelled from the spec: [apply_hadamard] of the simulator, on the
    array alone. *)
Definition tableau_hadamard (q : Z) (M : matrix) : matrix :=
  let n := nrows M / 2 in
  swap_col M (Z.to_nat q) (n + Z.to_nat q).

(** Modelled from the spec: [apply_phase] of the simulator, on the array
    alone. *)
Definition tableau_phase (q : Z) (M : matrix) : matrix :=
  let n := nrows M / 2 in
  add_col M (n + Z.to_nat q) (Z.to_nat q).

(** Modelled from the spec: [apply_cnot] of the simulator, on the array
    alone. *)
Definition tableau_cnot (q1 : Z) (q2 : option Z) (M : matrix) : matrix :=
  let n := nrows M / 2 in
  match q2 with
  | Some q2 =>
      add_col (add_col M (Z.to_nat q2) (Z.to_nat q1))
              (n + Z.to_nat q1) (n + Z.to_nat q2)
  | None => M
  end.

(** Modelled from the spec: the simulator, reduced to its tableau. *)
#[export] Instance Tableau : Simulator matrix := {
  sim_state := fun M => M;
  apply_hadamard := tableau_hadamard;
  apply_cnot := tableau_cnot;
  apply_phase := tableau_phase;
  apply_x := fun _ M => M;
  apply_y := fun _ M => M;
  apply_z := fun _ M => M
}.

(** A simulator that also keeps the method calls it receives, oldest
    first: what the module asks of a simulator can be read off its log. *)
Inductive call :=
| CallCnot (q1 : Z) (q2 : option Z)
| CallHadamard (q : Z)
| CallPhase (q : Z)
| CallX (q : Z)
| CallY (q : Z)
| CallZ (q : Z).

Definition logged (S : Type) := (S * list call)%type.

#[export] Instance Logged {S : Type} `{Simulator S} : Simulator (logged S) := {
  sim_state := fun s => sim_state (fst s);
  apply_hadamard := fun q s =>
    (apply_hadamard q (fst s), snd s ++ [CallHadamard q]);
  apply_cnot := fun q1 q2 s =>
    (apply_cnot q1 q2 (fst s), snd s ++ [CallCnot q1 q2]);
  apply_phase := fun q s => (apply_phase q (fst s), snd s ++ [CallPhase q]);
  apply_x := fun q s => (apply_x q (fst s), snd s ++ [CallX q]);
  apply_y := fun q s => (apply_y q (fst s), snd s ++ [CallY q]);
  apply_z := fun q s => (apply_z q (fst s), snd s ++ [CallZ q])
}.

(** The records one call stands for in the list [decompose_state] builds:
    a Phase applied once is written three times. *)
Definition records_of_call (c : call) : list gate :=
  match c with
  | CallCnot q1 q2 => [("c"%string, q1, q2)]
  | CallHadamard q => [("h"%string, q, None)]
  | CallPhase q =>
      [("p"%string, q, None); ("p"%string, q, None); ("p"%string, q, None)]
  | CallX q => [("x"%string, q, None)]
  | CallY q => [("y"%string, q, None)]
  | CallZ q => [("z"%string, q, None)]
  end.

Definition is_phase_call (c : call) : bool :=
  match c with CallPhase _ => true | _ => false end.

(** Making a call, and a list of calls oldest first, on a simulator. *)
Definition run_call {S : Type} `{Simulator S} (c : call) (sim : S) : S :=
  match c with
  | CallCnot q1 q2 => apply_cnot q1 q2 sim
  | CallHadamard q => apply_hadamard q sim
  | CallPhase q => apply_phase q sim
  | CallX q => apply_x q sim
  | CallY q => apply_y q sim
  | CallZ q => apply_z q sim
  end.

Definition run_calls {S : Type} `{Simulator S} (calls : list call) (sim : S)
  : S :=
  fold_left (fun s c => run_call c s) calls sim.

(** The call a record stands for in a replay: a CNOT of both qubits for
    ['c'], the gate on the first qubit for ['h'], ['p'], ['z'], ['x'] and
    ['y'], and no call for any other kind. *)
Definition call_of (g : gate) : option call :=
  let '(k, q1, q2) := g in
  if String.eqb k "c" then Some (CallCnot q1 q2)
  else if String.eqb k "h" then Some (CallHadamard q1)
  else if String.eqb k "p" then Some (CallPhase q1)
  else if String.eqb k "z" then Some (CallZ q1)
  else if String.eqb k "x" then Some (CallX q1)
  else if String.eqb k "y" then Some (CallY q1)
  else None.

Definition calls_of (gates : list gate) : list call :=
  flat_map (fun g => match call_of g with Some c => [c] | None => [] end)
           gates.

(** ** Gate kinds *)

Definition kind (g : gate) : string := fst (fst g).

Definition recognized (g : gate) : bool :=
  existsb (String.eqb (kind g)) ["c"; "h"; "p"; "z"; "x"; "y"]%string.

(* ================================================================== *)
(** * Part II.  Arrays, loops and GF(2) sums                            *)
(* ================================================================== *)

(** ** Shapes *)

(** An [n] by [m] array. *)
Definition wf (n m : nat) (M : matrix) : Prop :=
  length M = n /\ Forall (fun r => length r = m) M.

(** Every cell is 0 or 1. *)
Definition binary (M : matrix) : Prop :=
  Forall (Forall (fun z => z = 0%Z \/ z = 1%Z)) M.

Lemma length_upd {A} (l : list A) i x : length (upd l i x) = length l.
Proof.
  revert i; induction l as [|h t IH]; intros [|i]; simpl; auto.
Qed.

Lemma nth_upd_same {A} (l : list A) i x d :
  i < length l -> nth i (upd l i x) d = x.
Proof.
  revert i; induction l as [|h t IH]; intros [|i] Hi; simpl in *;
    try lia; auto.
  apply IH; lia.
Qed.

Lemma nth_upd_other {A} (l : list A) i j x d :
  i <> j -> nth j (upd l i x) d = nth j l d.
Proof.
  revert i j; induction l as [|h t IH]; intros [|i] [|j] Hij; simpl;
    try lia; auto.
Qed.

Lemma nth_upd {A} (l : list A) i j x d :
  i < length l ->
  nth j (upd l i x) d = if Nat.eqb i j then x else nth j l d.
Proof.
  intros Hi. destruct (Nat.eqb_spec i j) as [->|Hne].
  - now apply nth_upd_same.
  - now apply nth_upd_other.
Qed.

Lemma In_upd {A} (l : list A) i x y :
  In y (upd l i x) -> y = x \/ In y l.
Proof.
  revert i; induction l as [|h t IH]; intros [|i]; simpl; try tauto.
  - intros [<-|Hy]; auto.
  - intros [<-|Hy]; auto. destruct (IH _ Hy); auto.
Qed.

Lemma Forall_upd {A} (P : A -> Prop) l i x :
  Forall P l -> P x -> Forall P (upd l i x).
Proof.
  intros Hl Hx. apply Forall_forall. intros y Hy.
  destruct (In_upd _ _ _ _ Hy) as [->|Hin]; auto.
  rewrite Forall_forall in Hl. auto.
Qed.

Lemma wf_row n m M i : wf n m M -> i < n -> length (nth i M []) = m.
Proof.
  intros [Hn Hr] Hi. rewrite Forall_forall in Hr.
  apply Hr. apply nth_In. lia.
Qed.

Lemma wf_nrows n m M : wf n m M -> nrows M = n.
Proof. now intros [Hn _]. Qed.

Lemma wf_ncols n m M : wf n m M -> 0 < n -> ncols M = m.
Proof.
  intros [Hn Hr] Hpos. unfold ncols. destruct M as [|r M]; simpl in *.
  - lia.
  - now inversion Hr.
Qed.

(** Two arrays of one shape with the same cells are the same array. *)
Lemma list_ext {A} (d : A) (l1 l2 : list A) :
  length l1 = length l2 ->
  (forall i, i < length l1 -> nth i l1 d = nth i l2 d) -> l1 = l2.
Proof.
  revert l2; induction l1 as [|h t IH]; intros [|h2 t2] Hlen Hnth;
    simpl in *; try lia; auto.
  f_equal.
  - apply (Hnth 0); lia.
  - apply IH; [lia|]. intros i Hi. apply (Hnth (S i)); lia.
Qed.

Lemma matrix_ext n m (A B : matrix) :
  wf n m A -> wf n m B ->
  (forall i j, i < n -> j < m -> get A i j = get B i j) -> A = B.
Proof.
  intros HA HB Hget. apply (list_ext []).
  - destruct HA, HB; lia.
  - intros i Hi. assert (Hin : i < n) by (destruct HA; lia).
    apply (list_ext 0%Z).
    + now rewrite (wf_row HA Hin), (wf_row HB Hin).
    + intros j Hj. rewrite (wf_row HA Hin) in Hj. now apply Hget.
Qed.

Lemma binary_get n m M i j :
  wf n m M -> binary M -> i < n -> j < m ->
  get M i j = 0%Z \/ get M i j = 1%Z.
Proof.
  intros HM Hb Hi Hj. unfold binary in Hb. rewrite Forall_forall in Hb.
  assert (Hr : In (nth i M []) M) by (apply nth_In; destruct HM; lia).
  specialize (Hb _ Hr). rewrite Forall_forall in Hb.
  apply Hb. apply nth_In. now rewrite (wf_row HM Hi).
Qed.

Lemma binary_of_get n m M :
  wf n m M ->
  (forall i j, i < n -> j < m -> get M i j = 0%Z \/ get M i j = 1%Z) ->
  binary M.
Proof.
  intros HM Hg. apply Forall_forall. intros r Hr.
  destruct (In_nth _ _ [] Hr) as (i & Hi & <-).
  assert (Hin : i < n) by (destruct HM; lia).
  apply Forall_forall. intros z Hz.
  destruct (In_nth _ _ 0%Z Hz) as (j & Hj & <-).
  rewrite (wf_row HM Hin) in Hj. now apply Hg.
Qed.

(** ** Cell-level readings of the array operations *)

Lemma upd_overflow {A} (l : list A) i x : length l <= i -> upd l i x = l.
Proof.
  revert i; induction l as [|h t IH]; intros [|i] Hi; simpl in *;
    try lia; auto.
  f_equal. apply IH. lia.
Qed.

Lemma wf_upd n m M i r : wf n m M -> length r = m -> wf n m (upd M i r).
Proof.
  intros [Hn Hr] Hlen. split.
  - now rewrite length_upd.
  - now apply Forall_upd.
Qed.

Lemma wf_set n m M i j v : wf n m M -> wf n m (set M i j v).
Proof.
  intros HM. unfold set.
  destruct (Nat.lt_ge_cases i (length M)) as [Hi|Hi].
  - apply wf_upd; auto. rewrite length_upd. apply (wf_row HM).
    destruct HM; lia.
  - now rewrite upd_overflow.
Qed.

Lemma get_set n m M i j v i' j' :
  wf n m M -> i < n -> j < m ->
  get (set M i j v) i' j' =
  if (Nat.eqb i i' && Nat.eqb j j')%bool then v else get M i' j'.
Proof.
  intros HM Hi Hj. unfold get, set.
  rewrite nth_upd by (destruct HM; lia).
  destruct (Nat.eqb_spec i i') as [<-|Hne]; simpl; auto.
  rewrite nth_upd by now rewrite (wf_row HM Hi).
  reflexivity.
Qed.

Lemma length_vadd2 u v : length u = length v -> length (vadd2 u v) = length u.
Proof.
  intros Huv. unfold vadd2. rewrite length_map, length_combine. lia.
Qed.

Lemma nth_vadd2 u v j :
  length u = length v -> j < length u ->
  nth j (vadd2 u v) 0%Z = ((nth j u 0 + nth j v 0) mod 2)%Z.
Proof.
  revert v j; induction u as [|a u IH]; intros [|b v] [|j] Huv Hj;
    simpl in *; try lia; auto.
  apply IH; lia.
Qed.

Lemma wf_add_row n m M k i : wf n m M -> i < n -> wf n m (add_row M k i).
Proof.
  intros HM Hi. unfold add_row.
  destruct (Nat.lt_ge_cases k n) as [Hk|Hk].
  - apply wf_upd; auto. rewrite length_vadd2.
    + now apply (wf_row HM).
    + now rewrite (wf_row HM Hk), (wf_row HM Hi).
  - rewrite upd_overflow; auto. destruct HM; lia.
Qed.

Lemma get_add_row n m M k i r c :
  wf n m M -> k < n -> i < n -> c < m ->
  get (add_row M k i) r c =
  if Nat.eqb k r then ((get M k c + get M i c) mod 2)%Z else get M r c.
Proof.
  intros HM Hk Hi Hc. unfold get, add_row.
  rewrite nth_upd by (destruct HM; lia).
  destruct (Nat.eqb_spec k r) as [<-|Hne]; auto.
  apply nth_vadd2.
  - now rewrite (wf_row HM Hk), (wf_row HM Hi).
  - now rewrite (wf_row HM Hk).
Qed.

Lemma wf_add_col n m M t s : wf n m M -> wf n m (add_col M t s).
Proof.
  intros [Hn Hr]. split.
  - unfold add_col. now rewrite length_map.
  - unfold add_col. apply Forall_map. rewrite Forall_forall in *.
    intros r Hin. rewrite length_upd. auto.
Qed.

Lemma get_add_col n m M t s r c :
  wf n m M -> r < n -> t < m ->
  get (add_col M t s) r c =
  if Nat.eqb t c then ((get M r t + get M r s) mod 2)%Z else get M r c.
Proof.
  intros HM Hr Ht. unfold get, add_col.
  assert (Hrow : nth r (map (fun r => upd r t ((nth t r 0 + nth s r 0) mod 2)%Z) M) []
                 = upd (nth r M []) t
                     ((nth t (nth r M []) 0 + nth s (nth r M []) 0) mod 2)%Z).
  { destruct HM as [Hn _]. subst n. clear - Hr.
    revert r Hr; induction M as [|h M IH]; intros [|r] Hr; simpl in *;
      try lia; auto.
    apply IH; lia. }
  rewrite Hrow.
  rewrite nth_upd by now rewrite (wf_row HM Hr).
  reflexivity.
Qed.

Lemma wf_zeros n m : wf n m (zeros n m).
Proof.
  split.
  - unfold zeros. now rewrite repeat_length.
  - apply Forall_forall. intros r Hr. apply repeat_spec in Hr. subst.
    now rewrite repeat_length.
Qed.

Lemma nth_map_seq {A} (f : nat -> A) n i d :
  i < n -> nth i (map f (seq 0 n)) d = f i.
Proof.
  intros Hi. rewrite (nth_indep _ d (f 0)) by now rewrite length_map, length_seq.
  rewrite (map_nth f), seq_nth; auto.
Qed.

Lemma wf_tabulate n m (f : nat -> nat -> Z) :
  wf n m (map (fun i => map (fun j => f i j) (seq 0 m)) (seq 0 n)).
Proof.
  split.
  - now rewrite length_map, length_seq.
  - apply Forall_map, Forall_forall. intros i _.
    now rewrite length_map, length_seq.
Qed.

Lemma get_tabulate n m (f : nat -> nat -> Z) i j :
  i < n -> j < m ->
  get (map (fun i => map (fun j => f i j) (seq 0 m)) (seq 0 n)) i j = f i j.
Proof.
  intros Hi Hj. unfold get.
  rewrite (nth_map_seq (fun i => map (fun j => f i j) (seq 0 m))) by auto.
  now rewrite nth_map_seq.
Qed.

Lemma wf_identity n : wf n n (identity n).
Proof. apply wf_tabulate. Qed.

Lemma get_identity n i j :
  i < n -> j < n -> get (identity n) i j = if Nat.eqb i j then 1%Z else 0%Z.
Proof. intros. unfold identity. now rewrite get_tabulate. Qed.

Lemma nth_hstack_row (a b : matrix) i n :
  length a = n -> length b = n -> i < n ->
  nth i (hstack a b) [] = nth i a [] ++ nth i b [].
Proof.
  unfold hstack. revert b i n.
  induction a as [|r a IH]; intros [|r' b] [|i] n Ha Hb Hi; simpl in *;
    try lia; auto.
  apply (IH b i (length a)); lia.
Qed.

Lemma wf_hstack n m1 m2 a b :
  wf n m1 a -> wf n m2 b -> wf n (m1 + m2) (hstack a b).
Proof.
  intros Ha Hb. split.
  - unfold hstack. rewrite length_map, length_combine.
    destruct Ha, Hb; lia.
  - apply Forall_forall. intros r Hr.
    destruct (In_nth _ _ [] Hr) as (i & Hi & <-).
    assert (Hin : i < n).
    { unfold hstack in Hi. rewrite length_map, length_combine in Hi.
      destruct Ha, Hb; lia. }
    rewrite (@nth_hstack_row a b i n) by (destruct Ha, Hb; auto).
    now rewrite length_app, (wf_row Ha Hin), (wf_row Hb Hin).
Qed.

Lemma get_hstack n m1 m2 a b i j :
  wf n m1 a -> wf n m2 b -> i < n ->
  get (hstack a b) i j = if Nat.ltb j m1 then get a i j else get b i (j - m1).
Proof.
  intros Ha Hb Hi. unfold get.
  rewrite (@nth_hstack_row a b i n) by (destruct Ha, Hb; auto).
  destruct (Nat.ltb_spec j m1) as [Hj|Hj].
  - apply app_nth1. now rewrite (wf_row Ha Hi).
  - rewrite app_nth2; rewrite (wf_row Ha Hi); auto.
Qed.

Lemma wf_vstack n1 n2 m a b :
  wf n1 m a -> wf n2 m b -> wf (n1 + n2) m (vstack a b).
Proof.
  intros [Ha Hra] [Hb Hrb]. split.
  - unfold vstack. rewrite length_app. lia.
  - unfold vstack. apply Forall_app. auto.
Qed.

Lemma get_vstack n1 m a b i j :
  wf n1 m a ->
  get (vstack a b) i j = if Nat.ltb i n1 then get a i j else get b (i - n1) j.
Proof.
  intros [Ha _]. unfold get, vstack.
  destruct (Nat.ltb_spec i n1) as [Hi|Hi].
  - rewrite app_nth1 by lia. reflexivity.
  - rewrite app_nth2 by lia. now rewrite Ha.
Qed.

Lemma nth_slice_row M r0 r1 c0 c1 i :
  i < r1 - r0 -> r1 <= length M ->
  nth i (slice M r0 r1 c0 c1) [] =
  firstn (c1 - c0) (skipn c0 (nth (r0 + i) M [])).
Proof.
  intros Hi Hr1. unfold slice.
  rewrite (nth_indep _ [] ((fun r => firstn (c1 - c0) (skipn c0 r)) []))
    by (rewrite length_map, length_firstn, length_skipn; lia).
  rewrite (map_nth (fun r => firstn (c1 - c0) (skipn c0 r))).
  rewrite nth_firstn, nth_skipn.
  destruct (Nat.ltb_spec i (r1 - r0)); [reflexivity|lia].
Qed.

Lemma wf_slice n m M r0 r1 c0 c1 :
  wf n m M -> r1 <= n -> c1 <= m ->
  wf (r1 - r0) (c1 - c0) (slice M r0 r1 c0 c1).
Proof.
  intros HM Hr1 Hc1.
  assert (Hlen : length (slice M r0 r1 c0 c1) = r1 - r0).
  { unfold slice. rewrite length_map, length_firstn, length_skipn.
    destruct HM; lia. }
  split; auto.
  apply Forall_forall. intros r Hin.
  destruct (In_nth _ _ [] Hin) as (i & Hi & <-).
  rewrite Hlen in Hi.
  rewrite nth_slice_row by (destruct HM; lia).
  rewrite length_firstn, length_skipn, (wf_row HM) by lia. lia.
Qed.

Lemma get_slice n m M r0 r1 c0 c1 i j :
  wf n m M -> r1 <= n -> c1 <= m -> i < r1 - r0 -> j < c1 - c0 ->
  get (slice M r0 r1 c0 c1) i j = get M (r0 + i) (c0 + j).
Proof.
  intros HM Hr1 Hc1 Hi Hj. unfold get.
  rewrite nth_slice_row by (destruct HM; lia).
  rewrite nth_firstn, nth_skipn.
  destruct (Nat.ltb_spec j (c1 - c0)); [reflexivity|lia].
Qed.

(** ** Loop rules *)

Lemma for_each_app {St} l1 l2 (body : nat -> St -> St) s :
  for_each (l1 ++ l2) body s = for_each l2 body (for_each l1 body s).
Proof. unfold for_each. apply fold_left_app. Qed.

Lemma range_empty lo hi : hi <= lo -> range lo hi = [].
Proof. intros H. unfold range. now replace (hi - lo) with 0 by lia. Qed.

Lemma range_cons lo hi : lo < hi -> range lo hi = lo :: range (S lo) hi.
Proof.
  intros H. unfold range. replace (hi - lo) with (S (hi - S lo)) by lia.
  reflexivity.
Qed.

Lemma range_snoc lo hi : lo <= hi -> range lo (S hi) = range lo hi ++ [hi].
Proof.
  intros H. unfold range. replace (S hi - lo) with (S (hi - lo)) by lia.
  rewrite seq_S. f_equal. f_equal. lia.
Qed.

Lemma range_down_S hi : range_down (S hi) = hi :: range_down hi.
Proof. unfold range_down. rewrite seq_S, rev_app_distr. reflexivity. Qed.

(** An invariant indexed by the loop variable, for [for i in range(lo, hi)]. *)
Lemma for_range_ind {St} (I : nat -> St -> Prop) lo hi
  (body : nat -> St -> St) s :
  lo <= hi -> I lo s ->
  (forall i s, lo <= i < hi -> I i s -> I (S i) (body i s)) ->
  I hi (for_each (range lo hi) body s).
Proof.
  intros Hle H0 Hstep. induction hi as [|hi IH].
  - replace lo with 0 in * by lia. now rewrite range_empty.
  - destruct (Nat.eq_dec lo (S hi)) as [->|Hne].
    + now rewrite range_empty.
    + rewrite range_snoc, for_each_app by lia. simpl.
      apply Hstep; [lia|]. apply IH; [lia|].
      intros i s' Hi. apply Hstep. lia.
Qed.

(** The same for [for i in range(hi - 1, -1, -1)]. *)
Lemma for_down_ind {St} (I : nat -> St -> Prop) hi
  (body : nat -> St -> St) s :
  I hi s ->
  (forall i s, i < hi -> I (S i) s -> I i (body i s)) ->
  I 0 (for_each (range_down hi) body s).
Proof.
  revert s. induction hi as [|hi IH]; intros s H0 Hstep.
  - exact H0.
  - rewrite range_down_S. unfold for_each; simpl. apply IH.
    + apply Hstep; auto.
    + intros i s' Hi. apply Hstep. lia.
Qed.

(** A loop that may [break]: [Q] holds where the loop is left, by a
    [break] or by running out of indices. *)
Lemma for_range_break_ind {St} (I : nat -> St -> Prop) (Q : St -> Prop)
  lo hi (body : nat -> St -> St * bool) s :
  lo <= hi -> I lo s ->
  (forall i s, lo <= i < hi -> I i s ->
     if snd (body i s) then Q (fst (body i s)) else I (S i) (fst (body i s))) ->
  (forall s, I hi s -> Q s) ->
  Q (for_each_break (range lo hi) body s).
Proof.
  intros Hle H0 Hstep Hend. remember (hi - lo) as k eqn:Hk.
  revert lo s Hle H0 Hstep Hk. induction k as [|k IH]; intros lo s Hle H0 Hstep Hk.
  - rewrite range_empty by lia. simpl. apply Hend.
    now replace hi with lo by lia.
  - rewrite range_cons by lia. simpl.
    specialize (Hstep lo s ltac:(lia) H0) as Hb.
    destruct (body lo s) as [s' b]; simpl in Hb. destruct b; auto.
    apply IH; auto; try lia.
    intros i s0 Hi. apply Hstep. lia.
Qed.

Lemma in_range i lo hi : In i (range lo hi) <-> lo <= i < hi.
Proof. unfold range. rewrite in_seq. lia. Qed.

Lemma in_range_down i hi : In i (range_down hi) <-> i < hi.
Proof. unfold range_down. rewrite <- in_rev, in_seq. lia. Qed.

(** What every turn keeps, the loop keeps. *)
Lemma for_each_keeps {St} (P : St -> Prop) l (body : nat -> St -> St) s :
  P s -> (forall i s, In i l -> P s -> P (body i s)) ->
  P (for_each l body s).
Proof.
  revert s. induction l as [|i l IH]; intros s Hs Hbody; simpl; auto.
  apply IH.
  - apply Hbody; simpl; auto.
  - intros j s' Hj. apply Hbody. simpl; auto.
Qed.

Lemma for_each_break_keeps {St} (P : St -> Prop) l
  (body : nat -> St -> St * bool) s :
  P s -> (forall i s, In i l -> P s -> P (fst (body i s))) ->
  P (for_each_break l body s).
Proof.
  revert s. induction l as [|i l IH]; intros s Hs Hbody; simpl; auto.
  pose proof (Hbody i s (or_introl eq_refl) Hs) as Hi.
  destruct (body i s) as [s' b]; simpl in Hi. destruct b; auto.
  apply IH; auto. intros j s0 Hj. apply Hbody. simpl; auto.
Qed.

Lemma fold_left_keeps {St A} (P : St -> Prop) (l : list A)
  (f : St -> A -> St) s :
  P s -> (forall x s, In x l -> P s -> P (f s x)) -> P (fold_left f l s).
Proof.
  revert s. induction l as [|x l IH]; intros s Hs Hf; simpl; auto.
  apply IH.
  - apply Hf; simpl; auto.
  - intros y s' Hy. apply Hf. simpl; auto.
Qed.

(** Two loops whose turns correspond through [phi] end in corresponding
    states. *)
Lemma for_each_map {S1 S2} (phi : S2 -> S1) l
  (b1 : nat -> S1 -> S1) (b2 : nat -> S2 -> S2) :
  (forall i s, b1 i (phi s) = phi (b2 i s)) ->
  forall s, for_each l b1 (phi s) = phi (for_each l b2 s).
Proof.
  intros Hb. induction l as [|i l IH]; intros s; simpl; auto.
  unfold for_each in *; simpl. rewrite Hb. apply IH.
Qed.

Lemma for_each_break_map {S1 S2} (phi : S2 -> S1) l
  (b1 : nat -> S1 -> S1 * bool) (b2 : nat -> S2 -> S2 * bool) :
  (forall i s, b1 i (phi s) = (phi (fst (b2 i s)), snd (b2 i s))) ->
  forall s, for_each_break l b1 (phi s) = phi (for_each_break l b2 s).
Proof.
  intros Hb. induction l as [|i l IH]; intros s; simpl; auto.
  rewrite Hb. destruct (b2 i s) as [s' b]; simpl. destruct b; auto.
Qed.

(** Two loops whose turns keep a relation between their states keep it. *)
Lemma for_each_rel {S1 S2} (R : S1 -> S2 -> Prop) l
  (b1 : nat -> S1 -> S1) (b2 : nat -> S2 -> S2) :
  (forall i s1 s2, R s1 s2 -> R (b1 i s1) (b2 i s2)) ->
  forall s1 s2, R s1 s2 -> R (for_each l b1 s1) (for_each l b2 s2).
Proof.
  intros Hb. induction l as [|i l IH]; intros s1 s2 HR; [exact HR|].
  change (R (for_each l b1 (b1 i s1)) (for_each l b2 (b2 i s2))).
  apply IH. now apply Hb.
Qed.

Lemma fold_left_rel {S1 S2 A} (R : S1 -> S2 -> Prop) (l : list A)
  (f1 : S1 -> A -> S1) (f2 : S2 -> A -> S2) :
  (forall x s1 s2, R s1 s2 -> R (f1 s1 x) (f2 s2 x)) ->
  forall s1 s2, R s1 s2 -> R (fold_left f1 l s1) (fold_left f2 l s2).
Proof.
  intros Hf. induction l as [|x l IH]; intros s1 s2 HR; simpl; auto.
Qed.

(** ** Eight-bit cells and parity *)

Lemma wrap8_bit z : z = 0%Z \/ z = 1%Z -> wrap8 z = z.
Proof. intros [->| ->]; reflexivity. Qed.

(** Wrapping to eight bits keeps the parity. *)
Lemma wrap8_mod2 z : (wrap8 z mod 2 = z mod 2)%Z.
Proof.
  unfold wrap8.
  pose proof (Z.div_mod (z + 128) 256 ltac:(lia)) as Hdm.
  replace ((z + 128) mod 256 - 128)%Z
    with (z + (- (128 * ((z + 128) / 256))) * 2)%Z by lia.
  apply Z.mod_add. lia.
Qed.

(** ** Sums *)

Lemma sumZ_ext n f g :
  (forall k, k < n -> f k = g k) -> sumZ n f = sumZ n g.
Proof.
  induction n as [|n IH]; intros Hfg; simpl; auto.
  rewrite IH, Hfg; auto.
Qed.

Lemma sumZ_zero n f : (forall k, k < n -> f k = 0%Z) -> sumZ n f = 0%Z.
Proof.
  induction n as [|n IH]; intros Hf; simpl; auto.
  rewrite IH, Hf; auto.
Qed.

(** A sum whose terms vanish from [j] on stops at [j]. *)
Lemma sumZ_zero_tail j n f :
  j <= n -> (forall k, j <= k < n -> f k = 0%Z) -> sumZ n f = sumZ j f.
Proof.
  intros Hle Hf. induction n as [|n IH].
  - now replace j with 0 by lia.
  - destruct (Nat.eq_dec j (S n)) as [->|Hne]; auto.
    simpl. rewrite IH; [|lia|intros k Hk; apply Hf; lia].
    rewrite Hf by lia. lia.
Qed.

Lemma sumZ_plus n f g :
  sumZ n (fun k => f k + g k)%Z = (sumZ n f + sumZ n g)%Z.
Proof. induction n as [|n IH]; simpl; auto. rewrite IH. lia. Qed.

Lemma sumZ_scale n c f :
  sumZ n (fun k => c * f k)%Z = (c * sumZ n f)%Z.
Proof. induction n as [|n IH]; simpl; [lia|]. rewrite IH. lia. Qed.

(** A sum with a single term. *)
Lemma sumZ_single n i f :
  i < n -> (forall k, k < n -> k <> i -> f k = 0%Z) -> sumZ n f = f i.
Proof.
  intros Hi Hf. induction n as [|n IH]; [lia|]. simpl.
  destruct (Nat.eq_dec i n) as [->|Hne].
  - rewrite sumZ_zero; [lia|]. intros k Hk. apply Hf; lia.
  - rewrite IH; [|lia|intros k Hk Hki; apply Hf; lia].
    rewrite (Hf n) by lia. lia.
Qed.

(** Congruence modulo 2 *)
Definition eqm2 (x y : Z) : Prop := (x mod 2 = y mod 2)%Z.

Lemma eqm2_refl x : eqm2 x x.
Proof. reflexivity. Qed.

Lemma eqm2_sym x y : eqm2 x y -> eqm2 y x.
Proof. unfold eqm2. auto. Qed.

Lemma eqm2_trans x y z : eqm2 x y -> eqm2 y z -> eqm2 x z.
Proof. unfold eqm2. congruence. Qed.

Lemma eqm2_plus x x' y y' : eqm2 x x' -> eqm2 y y' -> eqm2 (x + y) (x' + y').
Proof.
  unfold eqm2. intros Hx Hy.
  rewrite (Z.add_mod x), (Z.add_mod x') by lia. now rewrite Hx, Hy.
Qed.

Lemma eqm2_mult x x' y y' : eqm2 x x' -> eqm2 y y' -> eqm2 (x * y) (x' * y').
Proof.
  unfold eqm2. intros Hx Hy.
  rewrite (Z.mul_mod x), (Z.mul_mod x') by lia. now rewrite Hx, Hy.
Qed.

Lemma eqm2_mod x : eqm2 (x mod 2) x.
Proof. unfold eqm2. apply Z.mod_mod. lia. Qed.

Lemma eqm2_wrap8 x : eqm2 (wrap8 x) x.
Proof. apply wrap8_mod2. Qed.

Lemma eqm2_sub_zero x y : eqm2 x y -> ((x - y) mod 2 = 0)%Z.
Proof.
  unfold eqm2. intros Hxy. rewrite Zminus_mod, Hxy, Z.sub_diag. reflexivity.
Qed.

Lemma eqm2_double x : eqm2 (x + x) 0.
Proof.
  unfold eqm2. replace (x + x)%Z with (0 + x * 2)%Z by lia.
  now rewrite Z.mod_add by lia.
Qed.

Lemma eqm2_sumZ n f g :
  (forall k, k < n -> eqm2 (f k) (g k)) -> eqm2 (sumZ n f) (sumZ n g).
Proof.
  induction n as [|n IH]; intros Hfg; simpl.
  - apply eqm2_refl.
  - apply eqm2_plus; auto.
Qed.

Lemma mod2_bit x : (x mod 2 = 0 \/ x mod 2 = 1)%Z.
Proof. pose proof (Z.mod_pos_bound x 2). lia. Qed.

Lemma bit_mod2 x : x = 0%Z \/ x = 1%Z -> (x mod 2)%Z = x.
Proof. intros [->| ->]; reflexivity. Qed.

#[export] Instance eqm2_Equivalence : Equivalence eqm2.
Proof.
  split.
  - intros x. apply eqm2_refl.
  - intros x y. apply eqm2_sym.
  - intros x y z. apply eqm2_trans.
Qed.

#[export] Instance eqm2_add_Proper : Proper (eqm2 ==> eqm2 ==> eqm2) Z.add.
Proof. intros x x' Hx y y' Hy. now apply eqm2_plus. Qed.

#[export] Instance eqm2_mul_Proper : Proper (eqm2 ==> eqm2 ==> eqm2) Z.mul.
Proof. intros x x' Hx y y' Hy. now apply eqm2_mult. Qed.

Lemma eqm2_sumZ_zero n f : (forall k, k < n -> eqm2 (f k) 0) -> eqm2 (sumZ n f) 0.
Proof.
  intros Hf. rewrite <- (@sumZ_zero n (fun _ => 0%Z)) by auto.
  now apply eqm2_sumZ.
Qed.

(** Modulo 2 a number is congruent to 0 or to 1. *)
Lemma eqm2_cases x : eqm2 x 0 \/ eqm2 x 1.
Proof. unfold eqm2. destruct (mod2_bit x) as [->| ->]; auto. Qed.

Lemma eqm2_0_1 : ~ eqm2 0 1.
Proof. unfold eqm2. discriminate. Qed.

Lemma sumZ_exchange n m (f : nat -> nat -> Z) :
  sumZ n (fun i => sumZ m (fun j => f i j))
  = sumZ m (fun j => sumZ n (fun i => f i j)).
Proof.
  induction n as [|n IH]; simpl.
  - now rewrite sumZ_zero.
  - rewrite IH, <- sumZ_plus. reflexivity.
Qed.

(** Leaving index [p] out of a sum. *)
Definition skip (p i : nat) : nat := if Nat.ltb i p then i else S i.
Definition unskip (p k : nat) : nat := if Nat.ltb k p then k else k - 1.

Lemma skip_neq p i : skip p i <> p.
Proof. unfold skip. destruct (Nat.ltb_spec i p); lia. Qed.

Lemma unskip_skip p i : unskip p (skip p i) = i.
Proof.
  unfold skip, unskip. destruct (Nat.ltb_spec i p) as [Hi|Hi].
  - destruct (Nat.ltb_spec i p); lia.
  - destruct (Nat.ltb_spec (S i) p); lia.
Qed.

Lemma skip_lt p i r : i < r -> skip p i < S r.
Proof. unfold skip. destruct (Nat.ltb_spec i p); lia. Qed.

Lemma sumZ_skip r p f :
  p <= r -> sumZ (S r) f = (f p + sumZ r (fun i => f (skip p i)))%Z.
Proof.
  intros Hp. induction r as [|r IH].
  - replace p with 0 by lia. simpl. lia.
  - destruct (Nat.eq_dec p (S r)) as [->|Hne].
    + rewrite (@sumZ_ext (S r) (fun i => f (skip (S r) i)) f).
      * simpl. lia.
      * intros k Hk. unfold skip. destruct (Nat.ltb_spec k (S r)); auto; lia.
    + change (sumZ (S (S r)) f) with (sumZ (S r) f + f (S r))%Z.
      rewrite IH by lia. simpl.
      replace (skip p r) with (S r)
        by (unfold skip; destruct (Nat.ltb_spec r p); lia).
      lia.
Qed.

(** ** Linear algebra over GF(2)

    A family of [n] vectors of length [m] is a function of two indices;
    [get M] is the family of the rows of the array [M].  Coefficients and
    coordinates are integers read modulo 2. *)

Definition fmat := nat -> nat -> Z.

(** Coordinate [j] of the combination of the rows with coefficients [x]. *)
Definition comb (n : nat) (x : nat -> Z) (F : fmat) (j : nat) : Z :=
  sumZ n (fun i => x i * F i j)%Z.

Definition zero_comb (n m : nat) (x : nat -> Z) (F : fmat) : Prop :=
  forall j, j < m -> eqm2 (comb n x F j) 0.

Definition trivial (n : nat) (x : nat -> Z) : Prop :=
  forall i, i < n -> eqm2 (x i) 0.

(** The [n] rows are linearly independent over GF(2). *)
Definition indep (n m : nat) (F : fmat) : Prop :=
  forall x, zero_comb n m x F -> trivial n x.

(** [v] is in the row space. *)
Definition in_span (n m : nat) (F : fmat) (v : nat -> Z) : Prop :=
  exists x, forall j, j < m -> eqm2 (comb n x F j) (v j).

Definition same_span (n1 n2 m : nat) (F G : fmat) : Prop :=
  forall v, in_span n1 m F v <-> in_span n2 m G v.

(** The rank over GF(2): the row space has a basis of [r] vectors. *)
Definition has_rank (n m : nat) (F : fmat) (r : nat) : Prop :=
  exists B : fmat, indep r m B /\ same_span r n m B F.

Lemma find_odd r (f : nat -> Z) :
  trivial r f \/ exists p, p < r /\ eqm2 (f p) 1.
Proof.
  induction r as [|r IH].
  - left. intros i Hi. lia.
  - destruct IH as [Hall|(p & Hp & Hodd)].
    + destruct (eqm2_cases (f r)) as [H0|H1].
      * left. intros i Hi. destruct (Nat.eq_dec i r) as [->|]; auto.
        apply Hall. lia.
      * right. exists r. split; auto.
    + right. exists p. split; auto.
Qed.

Lemma trivial_not_odd r f p : trivial r f -> p < r -> eqm2 (f p) 1 -> False.
Proof.
  intros Ht Hp Hodd. apply eqm2_0_1. rewrite <- Hodd. symmetry. now apply Ht.
Qed.

(** More vectors than coordinates: some combination with an odd
    coefficient vanishes. *)
Lemma dependent_of_wide c : forall r (F : fmat),
  c < r ->
  exists x, (exists i, i < r /\ eqm2 (x i) 1) /\ zero_comb r c x F.
Proof.
  induction c as [|c IH]; intros r F Hcr.
  - exists (fun i => if Nat.eqb i 0 then 1%Z else 0%Z). split.
    + exists 0. split; [lia|]. reflexivity.
    + intros j Hj. lia.
  - destruct (find_odd r (fun i => F i c)) as [Hall|(p & Hp & Hodd)].
    + destruct (IH r F ltac:(lia)) as (x & Hx & Hzero).
      exists x. split; auto. intros j Hj.
      destruct (Nat.eq_dec j c) as [->|Hne]; [|apply Hzero; lia].
      apply eqm2_sumZ_zero. intros k Hk.
      rewrite (Hall k Hk). now rewrite Z.mul_0_r.
    + destruct r as [|r]; [lia|].
      set (G := fun i j => (F (skip p i) j + F (skip p i) c * F p j)%Z).
      destruct (IH r G ltac:(lia)) as (y & (i0 & Hi0 & Hy) & Hzero).
      set (x := fun k => if Nat.eqb k p
                         then sumZ r (fun i => y i * F (skip p i) c)%Z
                         else y (unskip p k)).
      assert (Hcomb : forall j, comb (S r) x F j = comb r y G j).
      { intros j. unfold comb. rewrite (@sumZ_skip r p) by lia.
        unfold x at 1. rewrite Nat.eqb_refl.
        rewrite (@sumZ_ext r (fun i => x (skip p i) * F (skip p i) j)%Z
                            (fun i => y i * F (skip p i) j)%Z).
        2:{ intros k Hk. unfold x.
            destruct (Nat.eqb_spec (skip p k) p) as [He|_].
            - now apply skip_neq in He.
            - now rewrite unskip_skip. }
        rewrite (@sumZ_ext r (fun i => y i * G i j)%Z
                   (fun i => y i * F (skip p i) j
                             + F p j * (y i * F (skip p i) c))%Z)
          by (intros k Hk; unfold G; lia).
        rewrite sumZ_plus, sumZ_scale. lia. }
      exists x. split.
      * exists (skip p i0). split; [now apply skip_lt|].
        unfold x. destruct (Nat.eqb_spec (skip p i0) p) as [He|_].
        -- now apply skip_neq in He.
        -- now rewrite unskip_skip.
      * intros j Hj. rewrite Hcomb.
        destruct (Nat.eq_dec j c) as [->|Hne]; [|apply Hzero; lia].
        apply eqm2_sumZ_zero. intros k Hk. unfold G.
        rewrite Hodd. rewrite Z.mul_1_r.
        rewrite (eqm2_double (F (skip p k) c)). now rewrite Z.mul_0_r.
Qed.

Lemma finite_choice r (P : nat -> (nat -> Z) -> Prop) :
  (forall i, i < r -> exists x, P i x) ->
  exists a : fmat, forall i, i < r -> P i (a i).
Proof.
  induction r as [|r IH]; intros HP.
  - exists (fun _ _ => 0%Z). intros i Hi. lia.
  - destruct IH as [a Ha]; [intros i Hi; apply HP; lia|].
    destruct (HP r ltac:(lia)) as [x Hx].
    exists (fun i => if Nat.eqb i r then x else a i). intros i Hi.
    destruct (Nat.eqb_spec i r) as [->|Hne]; auto. apply Ha. lia.
Qed.

Lemma comb_eqm2 n x x' (F F' : fmat) j :
  (forall i, i < n -> eqm2 (x i) (x' i)) ->
  (forall i, i < n -> eqm2 (F i j) (F' i j)) ->
  eqm2 (comb n x F j) (comb n x' F' j).
Proof.
  intros Hx HF. unfold comb. apply eqm2_sumZ. intros k Hk.
  now rewrite (Hx k Hk), (HF k Hk).
Qed.

Lemma comb_trivial n x (F : fmat) j : trivial n x -> eqm2 (comb n x F j) 0.
Proof.
  intros Hx. unfold comb. apply eqm2_sumZ_zero. intros k Hk.
  rewrite (Hx k Hk). now rewrite Z.mul_0_l.
Qed.

(** A combination of combinations. *)
Lemma comb_assoc r k x (a G : fmat) j :
  comb r x (fun i => comb k (a i) G) j = comb k (comb r x a) G j.
Proof.
  unfold comb.
  rewrite (@sumZ_ext r
             (fun i => x i * sumZ k (fun l => a i l * G l j))%Z
             (fun i => sumZ k (fun l => x i * (a i l * G l j)))%Z)
    by (intros i Hi; now rewrite sumZ_scale).
  rewrite sumZ_exchange. apply sumZ_ext. intros l Hl.
  rewrite (@sumZ_ext r (fun i => x i * (a i l * G l j))%Z
                       (fun i => G l j * (x i * a i l))%Z)
    by (intros; lia).
  rewrite sumZ_scale. lia.
Qed.

Lemma comb_unit n i (F : fmat) j :
  i < n -> comb n (fun k => if Nat.eqb k i then 1%Z else 0%Z) F j = F i j.
Proof.
  intros Hi. unfold comb.
  rewrite (@sumZ_single n i) by
    (auto; intros k Hk Hne; destruct (Nat.eqb_spec k i); lia).
  rewrite Nat.eqb_refl. lia.
Qed.

Lemma in_span_row n m (F : fmat) i : i < n -> in_span n m F (F i).
Proof.
  intros Hi. exists (fun k => if Nat.eqb k i then 1%Z else 0%Z).
  intros j Hj. now rewrite comb_unit.
Qed.

(** Independent vectors inside the span of [k] vectors are at most [k]. *)
Lemma indep_le_span r k m (B G : fmat) :
  indep r m B -> (forall i, i < r -> in_span k m G (B i)) -> r <= k.
Proof.
  intros HB Hspan. destruct (Nat.le_gt_cases r k) as [|Hlt]; auto. exfalso.
  destruct (@finite_choice r
              (fun i y => forall j, j < m -> eqm2 (comb k y G j) (B i j)) Hspan)
    as [a Ha].
  destruct (@dependent_of_wide k r a Hlt) as (x & (i0 & Hi0 & Hodd) & Hzero).
  apply (@trivial_not_odd r x i0); auto.
  apply HB. intros j Hj.
  transitivity (comb r x (fun i => comb k (a i) G) j).
  - apply comb_eqm2; [reflexivity|]. intros i Hi. symmetry. now apply Ha.
  - rewrite comb_assoc. apply comb_trivial. intros l Hl. now apply Hzero.
Qed.

(** The rank is unique. *)
Lemma rank_unique n m (F : fmat) r1 r2 :
  has_rank n m F r1 -> has_rank n m F r2 -> r1 = r2.
Proof.
  intros (B1 & H1 & S1) (B2 & H2 & S2).
  assert (r1 <= r2).
  { apply (@indep_le_span r1 r2 m B1 B2 H1). intros i Hi.
    apply S2, S1. now apply in_span_row. }
  assert (r2 <= r1).
  { apply (@indep_le_span r2 r1 m B2 B1 H2). intros i Hi.
    apply S1, S2. now apply in_span_row. }
  lia.
Qed.

Lemma indep_has_rank n m (F : fmat) : indep n m F -> has_rank n m F n.
Proof. intros HF. exists F. split; auto. intros v. reflexivity. Qed.

Lemma eqm2_opp a b : eqm2 (a + b) 0 -> eqm2 a b.
Proof.
  intros Hab. transitivity (a + (b + b))%Z.
  - rewrite (eqm2_double b). now rewrite Z.add_0_r.
  - rewrite Z.add_assoc, Hab. reflexivity.
Qed.

(** A family with a vanishing combination that has an odd coefficient
    spans no more than the family without that vector. *)
Lemma span_without_dependent n m (F : fmat) x p v :
  p <= n -> zero_comb (S n) m x F -> eqm2 (x p) 1 ->
  in_span (S n) m F v -> in_span n m (fun i => F (skip p i)) v.
Proof.
  intros Hp Hzero Hodd [y Hy].
  exists (fun i => (y (skip p i) + y p * x (skip p i))%Z). intros j Hj.
  rewrite <- (Hy j Hj). unfold comb.
  rewrite (@sumZ_skip n p (fun i => y i * F i j)%Z) by lia.
  assert (HFp : eqm2 (F p j) (sumZ n (fun i => x (skip p i) * F (skip p i) j)%Z)).
  { apply eqm2_opp. specialize (Hzero j Hj). unfold comb in Hzero.
    rewrite (@sumZ_skip n p) in Hzero by lia.
    rewrite Hodd, Z.mul_1_l in Hzero. exact Hzero. }
  rewrite HFp at 1.
  rewrite (@sumZ_ext n
             (fun i => (y (skip p i) + y p * x (skip p i)) * F (skip p i) j)%Z
             (fun i => y (skip p i) * F (skip p i) j
                       + y p * (x (skip p i) * F (skip p i) j))%Z)
    by (intros; lia).
  rewrite sumZ_plus, sumZ_scale.
  rewrite Z.add_comm. reflexivity.
Qed.

(** [n] vectors spanning a space of rank [n] are independent. *)
Lemma full_rank_indep n m (F : fmat) : has_rank n m F n -> indep n m F.
Proof.
  intros (B & HB & HS) x Hzero.
  destruct (find_odd n x) as [|(p & Hp & Hodd)]; auto. exfalso.
  destruct n as [|n]; [lia|].
  assert (Hle : S n <= n); [|lia].
  apply (@indep_le_span (S n) n m B (fun i => F (skip p i)) HB).
  intros i Hi.
  apply (@span_without_dependent n m F x p); auto; try lia.
  apply HS. now apply in_span_row.
Qed.

(** *** Adding one vector of a family into another *)

Definition row_added (n m k i : nat) (F F' : fmat) : Prop :=
  k < n /\ i < n /\ k <> i /\
  (forall j, j < m -> eqm2 (F' k j) (F k j + F i j)) /\
  (forall r j, r < n -> r <> k -> j < m -> eqm2 (F' r j) (F r j)).

Lemma row_added_sym n m k i F F' :
  row_added n m k i F F' -> row_added n m k i F' F.
Proof.
  intros (Hk & Hi & Hki & Hrow & Hrest). repeat split; auto.
  - intros j Hj. rewrite (Hrow j Hj), (Hrest i j) by auto.
    rewrite <- Z.add_assoc, (eqm2_double (F i j)). now rewrite Z.add_0_r.
  - intros r j Hr Hrk Hj. symmetry. now apply Hrest.
Qed.

(** A combination of the new family is one of the old family. *)
Lemma row_added_comb n m k i F F' x j :
  row_added n m k i F F' -> j < m ->
  eqm2 (comb n x F' j)
       (comb n (fun r => if Nat.eqb r i then (x i + x k)%Z else x r) F j).
Proof.
  intros (Hk & Hi & Hki & Hrow & Hrest) Hj.
  transitivity (comb n x F j + x k * F i j)%Z.
  - transitivity (sumZ n (fun r => x r * F r j
                            + (if Nat.eqb r k then x k * F i j else 0))%Z).
    + unfold comb. apply eqm2_sumZ. intros r Hr.
      destruct (Nat.eqb_spec r k) as [->|Hne].
      * rewrite (Hrow j Hj). now rewrite Z.mul_add_distr_l.
      * rewrite (Hrest r j) by auto. now rewrite Z.add_0_r.
    + rewrite sumZ_plus.
      rewrite (@sumZ_single n k
                 (fun r => if Nat.eqb r k then (x k * F i j)%Z else 0%Z)) by
        (auto; intros r Hr Hne; destruct (Nat.eqb_spec r k); lia).
      rewrite Nat.eqb_refl. reflexivity.
  - unfold comb.
    rewrite (@sumZ_ext n
               (fun r => (if Nat.eqb r i then (x i + x k)%Z else x r) * F r j)%Z
               (fun r => x r * F r j
                         + (if Nat.eqb r i then x k * F i j else 0))%Z).
    2:{ intros r Hr. destruct (Nat.eqb_spec r i) as [->|]; lia. }
    rewrite sumZ_plus.
    rewrite (@sumZ_single n i
               (fun r => if Nat.eqb r i then (x k * F i j)%Z else 0%Z)) by
      (auto; intros r Hr Hne; destruct (Nat.eqb_spec r i); lia).
    rewrite Nat.eqb_refl. reflexivity.
Qed.

Lemma row_added_span n m k i F F' :
  row_added n m k i F F' -> same_span n n m F' F.
Proof.
  intros Hadd v. split.
  - intros [x Hx].
    exists (fun r => if Nat.eqb r i then (x i + x k)%Z else x r).
    intros j Hj. rewrite <- (Hx j Hj). symmetry.
    now apply (row_added_comb x Hadd).
  - intros [x Hx]. apply row_added_sym in Hadd.
    exists (fun r => if Nat.eqb r i then (x i + x k)%Z else x r).
    intros j Hj. rewrite <- (Hx j Hj). symmetry.
    now apply (row_added_comb x Hadd).
Qed.

(** *** Adding one coordinate into another *)

Definition col_added (n m t s : nat) (F F' : fmat) : Prop :=
  t < m /\ s < m /\ t <> s /\
  (forall r, r < n -> eqm2 (F' r t) (F r t + F r s)) /\
  (forall r j, r < n -> j < m -> j <> t -> eqm2 (F' r j) (F r j)).

Lemma col_added_indep n m t s F F' :
  col_added n m t s F F' -> indep n m F -> indep n m F'.
Proof.
  intros (Ht & Hs & Hts & Hcol & Hrest) HF x Hzero.
  assert (Hother : forall j, j < m -> j <> t -> eqm2 (comb n x F j) 0).
  { intros j Hj Hjt. rewrite <- (Hzero j Hj). apply comb_eqm2; [reflexivity|].
    intros r Hr. symmetry. now apply Hrest. }
  apply HF. intros j Hj.
  destruct (Nat.eq_dec j t) as [->|Hne]; [|now apply Hother].
  assert (Hsum : eqm2 (comb n x F' t) (comb n x F t + comb n x F s)).
  { unfold comb. rewrite <- sumZ_plus. apply eqm2_sumZ. intros r Hr.
    rewrite (Hcol r Hr). now rewrite Z.mul_add_distr_l. }
  transitivity (comb n x F t + comb n x F s)%Z.
  - rewrite (Hother s Hs ltac:(lia)). now rewrite Z.add_0_r.
  - rewrite <- Hsum. now apply Hzero.
Qed.

(** *** Families in echelon form *)

(** When vector [r] has a 1 at coordinate [pc r] and the later vectors
    have 0 there, a combination that vanishes at those coordinates has
    even coefficients. *)
Lemma echelon_coefficients k (F : fmat) (pc : nat -> nat) x :
  (forall r, r < k -> eqm2 (F r (pc r)) 1) ->
  (forall r r', r < r' -> r' < k -> eqm2 (F r' (pc r)) 0) ->
  (forall r, r < k -> eqm2 (comb k x F (pc r)) 0) ->
  trivial k x.
Proof.
  intros Hone Hbelow Hzero.
  assert (Hstrong : forall b r, r < b -> r < k -> eqm2 (x r) 0).
  { induction b as [|b IH]; intros r Hrb Hrk; [lia|].
    destruct (Nat.eq_dec r b) as [->|Hne]; [|apply IH; lia].
    rewrite <- (Hzero b Hrk). symmetry. unfold comb.
    transitivity (sumZ k (fun i => if Nat.eqb i b then x b else 0%Z)).
    - apply eqm2_sumZ. intros i Hi.
      destruct (Nat.eqb_spec i b) as [->|Hib].
      + rewrite (Hone b Hrk). now rewrite Z.mul_1_r.
      + destruct (Nat.lt_ge_cases i b) as [Hlt|Hge].
        * rewrite (IH i Hlt Hi). now rewrite Z.mul_0_l.
        * rewrite (Hbelow b i) by lia. now rewrite Z.mul_0_r.
    - rewrite (@sumZ_single k b) by
        (auto; intros i Hi Hib; destruct (Nat.eqb_spec i b); lia).
      rewrite Nat.eqb_refl. reflexivity. }
  intros r Hr. apply (Hstrong (S r)); lia.
Qed.

Lemma comb_zero_tail k n x (F : fmat) j :
  k <= n -> (forall i, k <= i < n -> (x i * F i j = 0)%Z) ->
  comb n x F j = comb k x F j.
Proof. intros Hkn Hz. unfold comb. now apply sumZ_zero_tail. Qed.

(** Vectors that are zero add nothing to the span. *)
Lemma span_zero_tail k n m (F : fmat) :
  k <= n -> (forall i j, k <= i < n -> j < m -> F i j = 0%Z) ->
  same_span k n m F F.
Proof.
  intros Hkn Hz v. split; intros [x Hx].
  - exists (fun i => if Nat.ltb i k then x i else 0%Z). intros j Hj.
    rewrite <- (Hx j Hj).
    rewrite (@comb_zero_tail k n) by
      (auto; intros i Hi; destruct (Nat.ltb_spec i k); lia).
    unfold comb. rewrite (@sumZ_ext k _ (fun i => x i * F i j)%Z).
    + reflexivity.
    + intros i Hi. destruct (Nat.ltb_spec i k); auto; lia.
  - exists x. intros j Hj. rewrite <- (Hx j Hj).
    rewrite (@comb_zero_tail k n); [reflexivity|auto|].
    intros i Hi. rewrite (Hz i j) by auto. lia.
Qed.

(** *** The symplectic product

    Vectors of length [2h] are read as an X half followed by a Z half. *)
Definition omega (h : nat) (a b : nat -> Z) : Z :=
  sumZ h (fun i => a i * b (h + i)%nat + a (h + i)%nat * b i)%Z.

Lemma omega_sym h a b : omega h a b = omega h b a.
Proof. unfold omega. apply sumZ_ext. intros i Hi. lia. Qed.

Lemma omega_comb_l h n x (F : fmat) b :
  omega h (comb n x F) b = sumZ n (fun p => x p * omega h (F p) b)%Z.
Proof.
  unfold omega, comb.
  rewrite (@sumZ_ext h
    (fun i => sumZ n (fun p => x p * F p i) * b (h + i)%nat
              + sumZ n (fun p => x p * F p (h + i)%nat) * b i)%Z
    (fun i => sumZ n (fun p => x p * (F p i * b (h + i)%nat + F p (h + i)%nat * b i)))%Z).
  - rewrite sumZ_exchange. apply sumZ_ext. intros p Hp.
    now rewrite sumZ_scale.
  - intros i Hi.
    rewrite (@sumZ_ext n
      (fun p => x p * (F p i * b (h + i)%nat + F p (h + i)%nat * b i))%Z
      (fun p => b (h + i)%nat * (x p * F p i) + b i * (x p * F p (h + i)%nat))%Z)
      by (intros; lia).
    rewrite sumZ_plus, !sumZ_scale. lia.
Qed.

Lemma omega_comb_r h n x (F : fmat) a :
  omega h a (comb n x F) = sumZ n (fun p => x p * omega h a (F p))%Z.
Proof.
  rewrite omega_sym, omega_comb_l. apply sumZ_ext. intros p Hp.
  now rewrite (omega_sym h (F p) a).
Qed.

Lemma omega_eqm2_r h a b b' :
  (forall j, j < h + h -> eqm2 (b j) (b' j)) ->
  eqm2 (omega h a b) (omega h a b').
Proof.
  intros Hb. unfold omega. apply eqm2_sumZ. intros i Hi.
  rewrite (Hb i), (Hb (h + i)%nat) by lia. reflexivity.
Qed.

(** A family whose vectors are pairwise orthogonal for the symplectic
    product spans vectors that are pairwise orthogonal. *)
Lemma omega_span h n (F : fmat) a b :
  (forall p q, p < n -> q < n -> eqm2 (omega h (F p) (F q)) 0) ->
  in_span n (h + h) F a -> in_span n (h + h) F b ->
  eqm2 (omega h a b) 0.
Proof.
  intros Hiso [x Hx] [z Hz].
  transitivity (omega h a (comb n z F)).
  { apply omega_eqm2_r. intros j Hj. symmetry. now apply Hz. }
  rewrite omega_comb_r. apply eqm2_sumZ_zero. intros q Hq.
  assert (Haq : eqm2 (omega h a (F q)) 0).
  { rewrite omega_sym.
    transitivity (omega h (F q) (comb n x F)).
    { apply omega_eqm2_r. intros j Hj. symmetry. now apply Hx. }
    rewrite omega_comb_r. apply eqm2_sumZ_zero. intros p Hp.
    rewrite (Hiso q p Hq Hp). now rewrite Z.mul_0_r. }
  rewrite Haq. now rewrite Z.mul_0_r.
Qed.

(** ** Products and differences of arrays *)

Lemma wf_transpose n m M : wf n m M -> 0 < n -> wf m n (transpose M).
Proof.
  intros HM Hn. unfold transpose.
  rewrite (wf_nrows HM), (wf_ncols HM Hn). apply wf_tabulate.
Qed.

Lemma get_transpose n m M i j :
  wf n m M -> i < m -> j < n -> get (transpose M) i j = get M j i.
Proof.
  intros HM Hi Hj. unfold transpose.
  rewrite (wf_nrows HM), (wf_ncols HM) by lia.
  now rewrite (get_tabulate (fun j i => get M i j)).
Qed.

Lemma get_matmul8 n m p A B i j :
  wf n m A -> wf m p B -> 0 < m -> i < n -> j < p ->
  get (matmul8 A B) i j = wrap8 (sumZ m (fun k => get A i k * get B k j)%Z).
Proof.
  intros HA HB Hm Hi Hj. unfold matmul8.
  rewrite (wf_nrows HA), (wf_ncols HA), (wf_ncols HB) by lia.
  now rewrite (get_tabulate
    (fun i j => wrap8 (sumZ m (fun k => get A i k * get B k j)%Z))).
Qed.

Lemma wf_matmul8 n m p A B :
  wf n m A -> wf m p B -> 0 < m -> wf n p (matmul8 A B).
Proof.
  intros HA HB Hm. unfold matmul8.
  rewrite (wf_nrows HA), (wf_ncols HB) by lia.
  apply (wf_tabulate n p
    (fun i j => wrap8 (sumZ (ncols A) (fun k => get A i k * get B k j)%Z))).
Qed.

Lemma get_sub_mod2 n m X Y i j :
  wf n m X -> wf n m Y -> i < n -> j < m ->
  get (sub_mod2 X Y) i j = ((get X i j - get Y i j) mod 2)%Z.
Proof.
  intros HX HY Hi Hj. unfold get, sub_mod2.
  assert (Hrow : forall X Y : matrix, length X = length Y -> i < length X ->
            nth i (map (fun p => map (fun q => ((fst q - snd q) mod 2)%Z)
                                     (combine (fst p) (snd p)))
                       (combine X Y)) []
            = map (fun q => ((fst q - snd q) mod 2)%Z)
                  (combine (nth i X []) (nth i Y []))).
  { clear. revert i. intros i X. revert i.
    induction X as [|x X IH]; intros [|i] [|y Y] Hlen Hi; simpl in *;
      try lia; auto.
    apply IH; lia. }
  rewrite Hrow by (destruct HX, HY; lia).
  pose proof (wf_row HX Hi) as Hx. pose proof (wf_row HY Hi) as Hy.
  revert Hx Hy Hj. generalize (nth i X []) (nth i Y []). clear.
  intros u. revert j m. induction u as [|a u IH]; intros [|j] m [|b v] Hu Hv Hj;
    simpl in *; try lia; auto.
  apply (IH j (length u)); lia.
Qed.

(* ================================================================== *)
(** * Part III.  Properties                                             *)
(* ================================================================== *)

(** ** Symplectic basis transform *)

Section Transform.
Variable n : nat.

(** The cells of [M] before position [(jj, kk)], in the order the loops
    visit them, hold [f]. *)
Definition filled (f : nat -> nat -> Z) (jj kk : nat) (M : matrix) : Prop :=
  wf n n M /\
  forall j k, j < n -> k < n -> j < jj \/ (j = jj /\ k < kk) ->
              get M j k = f j k.

Lemma filled_start f : filled f 0 0 (zeros n n).
Proof. split; [apply wf_zeros|]. intros; lia. Qed.

Lemma filled_cell f j k M :
  j < n -> k < n -> filled f j k M -> filled f j (S k) (set M j k (f j k)).
Proof.
  intros Hj Hk [HM Hf]. split; [now apply wf_set|].
  intros j' k' Hj' Hk' Hpos. rewrite (get_set _ _ _ HM Hj Hk).
  destruct (Nat.eqb_spec j j') as [<-|Hne]; simpl.
  - destruct (Nat.eqb_spec k k') as [<-|Hne']; auto.
    apply Hf; auto. lia.
  - apply Hf; auto. lia.
Qed.

Lemma filled_next_row f j M : filled f j n M -> filled f (S j) 0 M.
Proof.
  intros [HM Hf]. split; auto.
  intros j' k' Hj' Hk' Hpos. apply Hf; auto. lia.
Qed.

Variable S : matrix.

Definition filled4 (jj kk : nat) (q : quads) : Prop :=
  let '(a, b, c, d) := q in
  filled (fun j k => wrap8 (get S (2 * k) (2 * j))) jj kk a /\
  filled (fun j k => wrap8 (get S (2 * k + 1) (2 * j))) jj kk b /\
  filled (fun j k => wrap8 (get S (2 * k) (2 * j + 1))) jj kk c /\
  filled (fun j k => wrap8 (get S (2 * k + 1) (2 * j + 1))) jj kk d.

Lemma transform_loops :
  filled4 n 0
    (for_each (range 0 n) (fun j =>
       for_each (range 0 n) (fun k => transform_cell S j k))
       (zeros n n, zeros n n, zeros n n, zeros n n)).
Proof.
  apply (for_range_ind (fun j q => filled4 j 0 q)); [lia| |].
  - unfold filled4. split; [|split; [|split]]; apply filled_start.
  - intros j q Hj Hq.
    assert (Hrow : filled4 j n
              (for_each (range 0 n) (fun k => transform_cell S j k) q)).
    { apply (for_range_ind (fun k q => filled4 j k q)); [lia|exact Hq|].
      intros k [[[a b] c] d] Hk (Ha & Hb & Hc & Hd).
      unfold transform_cell, filled4. split; [|split; [|split]].
      - apply (@filled_cell (fun j k => wrap8 (get S (2 * k) (2 * j))));
          auto; lia.
      - apply (@filled_cell (fun j k => wrap8 (get S (2 * k + 1) (2 * j))));
          auto; lia.
      - apply (@filled_cell (fun j k => wrap8 (get S (2 * k) (2 * j + 1))));
          auto; lia.
      - apply (@filled_cell
                 (fun j k => wrap8 (get S (2 * k + 1) (2 * j + 1))));
          auto; lia. }
    destruct (for_each (range 0 n) (fun k => transform_cell S j k) q)
      as [[[a b] c] d].
    destruct Hrow as (Ha & Hb & Hc & Hd).
    unfold filled4. split; [|split; [|split]]; now apply filled_next_row.
Qed.
End Transform.

(** The array returned has the shape of [S]. *)
Lemma transform_symplectic_shape (n : nat) (S : matrix) :
  wf (2 * n) (2 * n) S -> wf (2 * n) (2 * n) (transform_symplectic S).
Proof.
  intros HS. unfold transform_symplectic.
  replace (nrows S / 2) with n
    by (rewrite (wf_nrows HS), Nat.mul_comm, Nat.div_mul; lia).
  pose proof (transform_loops n S) as Hq.
  destruct (for_each (range 0 n) _ _) as [[[a b] c] d].
  destruct Hq as ((Ha & _) & (Hb & _) & (Hc & _) & (Hd & _)).
  replace (2 * n) with (n + n) by lia.
  apply wf_vstack; now apply wf_hstack.
Qed.

(** The four quadrants, read on the cells of the array returned. *)
Lemma transform_symplectic_cells (n : nat) (S : matrix) :
  wf (2 * n) (2 * n) S -> binary S ->
  forall j k, j < n -> k < n ->
    get (transform_symplectic S) j k = get S (2 * k) (2 * j) /\
    get (transform_symplectic S) j (n + k) = get S (2 * k + 1) (2 * j) /\
    get (transform_symplectic S) (n + j) k = get S (2 * k) (2 * j + 1) /\
    get (transform_symplectic S) (n + j) (n + k)
    = get S (2 * k + 1) (2 * j + 1).
Proof.
  intros HS Hbin j k Hj Hk. unfold transform_symplectic.
  replace (nrows S / 2) with n
    by (rewrite (wf_nrows HS), Nat.mul_comm, Nat.div_mul; lia).
  pose proof (transform_loops n S) as Hq.
  destruct (for_each (range 0 n) _ _) as [[[a b] c] d].
  destruct Hq as ((Ha & Hfa) & (Hb & Hfb) & (Hc & Hfc) & (Hd & Hfd)).
  pose proof (wf_hstack Ha Hb) as Htop.
  assert (Hbit : forall r col, r < 2 * n -> col < 2 * n ->
                   wrap8 (get S r col) = get S r col)
    by (intros; apply wrap8_bit, (binary_get HS Hbin); auto).
  rewrite !(get_vstack _ _ _ Htop).
  destruct (Nat.ltb_spec j n); [|lia].
  destruct (Nat.ltb_spec (n + j) n); [lia|].
  replace (n + j - n) with j by lia.
  rewrite !(get_hstack _ Ha Hb), !(get_hstack _ Hc Hd) by auto.
  destruct (Nat.ltb_spec k n); [|lia].
  destruct (Nat.ltb_spec (n + k) n); [lia|].
  replace (n + k - n) with k by lia.
  rewrite Hfa, Hfb, Hfc, Hfd by (auto; lia).
  rewrite !Hbit by lia. auto.
Qed.

(** C8.  For a 2n by 2n binary array [S], [transform_symplectic S] is the
    2n by 2n block array [[a, b], [c, d]]: its n by n quadrants - [a] on
    rows and columns [0, n), [b] on rows [0, n) and columns [n, 2n), [c] on
    rows [n, 2n) and columns [0, n), [d] on rows and columns [n, 2n) - hold
    a[j,k] = S[2k, 2j], b[j,k] = S[2k+1, 2j], c[j,k] = S[2k, 2j+1] and
    d[j,k] = S[2k+1, 2j+1]. *)
Theorem transform_symplectic_quadrants (n : nat) (S : matrix) :
  wf (2 * n) (2 * n) S -> binary S ->
  wf (2 * n) (2 * n) (transform_symplectic S) /\
  exists a b c d : matrix,
    a = slice (transform_symplectic S) 0 n 0 n /\
    b = slice (transform_symplectic S) 0 n n (2 * n) /\
    c = slice (transform_symplectic S) n (2 * n) 0 n /\
    d = slice (transform_symplectic S) n (2 * n) n (2 * n) /\
    wf n n a /\ wf n n b /\ wf n n c /\ wf n n d /\
    forall j k, j < n -> k < n ->
      get a j k = get S (2 * k) (2 * j) /\
      get b j k = get S (2 * k + 1) (2 * j) /\
      get c j k = get S (2 * k) (2 * j + 1) /\
      get d j k = get S (2 * k + 1) (2 * j + 1).
Proof.
  intros HS Hbin.
  pose proof (@transform_symplectic_shape n S HS) as HT.
  split; [exact HT|].
  exists (slice (transform_symplectic S) 0 n 0 n),
         (slice (transform_symplectic S) 0 n n (2 * n)),
         (slice (transform_symplectic S) n (2 * n) 0 n),
         (slice (transform_symplectic S) n (2 * n) n (2 * n)).
  do 4 (split; [reflexivity|]).
  assert (Hwf : forall r0 c0,
            r0 + n <= 2 * n -> c0 + n <= 2 * n ->
            wf n n (slice (transform_symplectic S) r0 (r0 + n) c0 (c0 + n))).
  { intros r0 c0 Hr Hc.
    replace n with (r0 + n - r0) at 1 by lia.
    replace n with (c0 + n - c0) at 2 by lia.
    now apply (@wf_slice (2 * n) (2 * n)). }
  split; [apply (Hwf 0 0); lia|].
  split; [replace (2 * n) with (n + n) by lia; apply (Hwf 0 n); lia|].
  split; [replace (2 * n) with (n + n) by lia; apply (Hwf n 0); lia|].
  split; [replace (2 * n) with (n + n) by lia; apply (Hwf n n); lia|].
  intros j k Hj Hk.
  destruct (@transform_symplectic_cells n S HS Hbin j k Hj Hk)
    as (Ha & Hb & Hc & Hd).
  rewrite !(@get_slice (2 * n) (2 * n)) by (auto; lia).
  rewrite !Nat.add_0_l. rewrite Ha, Hb, Hc, Hd. auto.
Qed.

Lemma transform_symplectic_quadrants_witness :
  wf (2 * 1) (2 * 1) (transform_symplectic [[0; 1]; [1; 1]]%Z) /\
  exists a b c d : matrix,
    a = slice (transform_symplectic [[0; 1]; [1; 1]]%Z) 0 1 0 1 /\
    b = slice (transform_symplectic [[0; 1]; [1; 1]]%Z) 0 1 1 (2 * 1) /\
    c = slice (transform_symplectic [[0; 1]; [1; 1]]%Z) 1 (2 * 1) 0 1 /\
    d = slice (transform_symplectic [[0; 1]; [1; 1]]%Z) 1 (2 * 1) 1 (2 * 1) /\
    wf 1 1 a /\ wf 1 1 b /\ wf 1 1 c /\ wf 1 1 d /\
    forall j k, j < 1 -> k < 1 ->
      get a j k = get [[0; 1]; [1; 1]]%Z (2 * k) (2 * j) /\
      get b j k = get [[0; 1]; [1; 1]]%Z (2 * k + 1) (2 * j) /\
      get c j k = get [[0; 1]; [1; 1]]%Z (2 * k) (2 * j + 1) /\
      get d j k = get [[0; 1]; [1; 1]]%Z (2 * k + 1) (2 * j + 1).
Proof.
  apply (@transform_symplectic_quadrants 1 [[0; 1]; [1; 1]]%Z).
  - split; [reflexivity|]. repeat constructor.
  - repeat (first [apply Forall_nil | apply Forall_cons]); auto.
Defined.

(** ** Replay *)

Section Replay.
Context {S : Type} `{Simulator S}.

Lemma apply_gate_recognized g sim :
  recognized g = true -> exists sim', apply_gate g sim = inl sim'.
Proof.
  destruct g as [[k q1] q2]. unfold recognized, kind, apply_gate; simpl.
  destruct (String.eqb k "c"); [eauto|].
  destruct (String.eqb k "h"); [eauto|].
  destruct (String.eqb k "p"); [eauto|].
  destruct (String.eqb k "z"); [eauto|].
  destruct (String.eqb k "x"); [eauto|].
  destruct (String.eqb k "y"); [eauto|].
  discriminate.
Qed.

Lemma apply_gate_unrecognized g sim :
  recognized g = false -> apply_gate g sim = inr (ValueError gate_type_msg).
Proof.
  destruct g as [[k q1] q2]. unfold recognized, kind, apply_gate; simpl.
  destruct (String.eqb k "c"); [discriminate|].
  destruct (String.eqb k "h"); [discriminate|].
  destruct (String.eqb k "p"); [discriminate|].
  destruct (String.eqb k "z"); [discriminate|].
  destruct (String.eqb k "x"); [discriminate|].
  destruct (String.eqb k "y"); [discriminate|].
  reflexivity.
Qed.

Lemma apply_gates_raises_iff gates sim :
  (exists e, snd (apply_gates gates sim) = Some e) <->
  Exists (fun g => recognized g = false) gates.
Proof.
  revert sim. induction gates as [|g rest IH]; intros sim; simpl.
  - split.
    + intros [e He]. discriminate.
    + intros Hex. inversion Hex.
  - destruct (recognized g) eqn:Hg.
    + destruct (apply_gate_recognized g sim Hg) as [sim' ->].
      rewrite IH. split.
      * intros Hex. now apply Exists_cons_tl.
      * intros Hex. inversion Hex; subst; auto. congruence.
    + rewrite (apply_gate_unrecognized g sim Hg). simpl. split.
      * intros _. now apply Exists_cons_hd.
      * intros _. eauto.
Qed.

Lemma apply_gates_returns gates sim :
  Forall (fun g => recognized g = true) gates ->
  snd (apply_gates gates sim) = None.
Proof.
  intros Hall.
  destruct (snd (apply_gates gates sim)) as [e|] eqn:He; auto.
  assert (Hex : Exists (fun g => recognized g = false) gates)
    by (apply (apply_gates_raises_iff gates sim); eauto).
  apply Exists_exists in Hex. destruct Hex as (g & Hin & Hg).
  rewrite Forall_forall in Hall. specialize (Hall _ Hin). congruence.
Qed.

(** The calls before the first unknown kind are made; nothing after it. *)
Lemma apply_gates_app pre rest sim :
  Forall (fun g => recognized g = true) pre ->
  apply_gates (pre ++ rest) sim = apply_gates rest (fst (apply_gates pre sim)).
Proof.
  revert sim. induction pre as [|g pre IH]; intros sim Hpre; simpl; auto.
  inversion Hpre as [|g' pre' Hg Hpre']; subst.
  destruct (apply_gate_recognized g sim Hg) as [sim' ->]. now apply IH.
Qed.
End Replay.

(** C6.  [apply_gates] walks the list from its head, sending ['c'] to
    [apply_cnot(q1, q2)], ['h'] to [apply_hadamard(q1)], ['p'] to
    [apply_phase(q1)] and ['x'], ['y'], ['z'] to [apply_x], [apply_y],
    [apply_z] of [q1]; it raises exactly when some record's kind is outside
    {'c', 'h', 'p', 'z', 'x', 'y'}, and never on a list of recognized
    kinds. *)
Theorem apply_gates_dispatch (S : Type) (H : Simulator S) :
  (forall sim : S, apply_gates [] sim = (sim, None)) /\
  (forall q1 q2 rest (sim : S),
     apply_gates (("c"%string, q1, q2) :: rest) sim
     = apply_gates rest (apply_cnot q1 q2 sim)) /\
  (forall q1 q2 rest (sim : S),
     apply_gates (("h"%string, q1, q2) :: rest) sim
     = apply_gates rest (apply_hadamard q1 sim)) /\
  (forall q1 q2 rest (sim : S),
     apply_gates (("p"%string, q1, q2) :: rest) sim
     = apply_gates rest (apply_phase q1 sim)) /\
  (forall q1 q2 rest (sim : S),
     apply_gates (("x"%string, q1, q2) :: rest) sim
     = apply_gates rest (apply_x q1 sim)) /\
  (forall q1 q2 rest (sim : S),
     apply_gates (("y"%string, q1, q2) :: rest) sim
     = apply_gates rest (apply_y q1 sim)) /\
  (forall q1 q2 rest (sim : S),
     apply_gates (("z"%string, q1, q2) :: rest) sim
     = apply_gates rest (apply_z q1 sim)) /\
  (forall gates (sim : S),
     (exists e, snd (apply_gates gates sim) = Some e) <->
     Exists (fun g => recognized g = false) gates) /\
  (forall gates (sim : S),
     Forall (fun g => recognized g = true) gates ->
     snd (apply_gates gates sim) = None).
Proof.
  do 7 (split; [reflexivity|]). split.
  - intros gates sim. apply apply_gates_raises_iff.
  - intros gates sim. apply apply_gates_returns.
Qed.

(** C7 as stated: a list with an unknown kind leaves the simulator as it
    was.  It does not: the records before the unknown one are applied. *)
Lemma apply_gates_partial_counterexample :
  ~ (forall (gates : list gate) (sim : matrix),
       Exists (fun g => recognized g = false) gates ->
       fst (apply_gates gates sim) = sim).
Proof.
  intros Hclaim.
  specialize (Hclaim [("h"%string, 0%Z, None); ("q"%string, 0%Z, None)]
                     [[1; 0]; [0; 1]]%Z).
  assert (Hex : Exists (fun g => recognized g = false)
                  [("h"%string, 0%Z, None); ("q"%string, 0%Z, None)]).
  { apply Exists_cons_tl, Exists_cons_hd. reflexivity. }
  specialize (Hclaim Hex). vm_compute in Hclaim. discriminate.
Qed.

Lemma run_calls_app {S : Type} `{Simulator S} (k1 k2 : list call) (sim : S) :
  run_calls (k1 ++ k2) sim = run_calls k2 (run_calls k1 sim).
Proof. unfold run_calls. now rewrite fold_left_app. Qed.

Lemma run_calls_logged {S : Type} `{Simulator S} (k : list call)
  (sim : S) (log : list call) :
  run_calls k ((sim, log) : logged S) = (run_calls k sim, log ++ k).
Proof.
  revert sim log. induction k as [|c k IH]; intros sim log.
  - simpl. now rewrite app_nil_r.
  - change (run_calls (c :: k) ((sim, log) : logged S))
      with (run_calls k (run_call c ((sim, log) : logged S))).
    change (run_calls (c :: k) sim) with (run_calls k (run_call c sim)).
    replace (log ++ c :: k) with ((log ++ [c]) ++ k)
      by now rewrite <- app_assoc.
    destruct c; simpl run_call; apply IH.
Qed.

Lemma apply_gate_call {S : Type} `{Simulator S} (g : gate) (sim : S) :
  recognized g = true ->
  exists c, call_of g = Some c /\ apply_gate g sim = inl (run_call c sim).
Proof.
  destruct g as [[k q1] q2]. unfold recognized, kind, apply_gate, call_of.
  simpl.
  destruct (String.eqb k "c"); [eauto|].
  destruct (String.eqb k "h"); [eauto|].
  destruct (String.eqb k "p"); [eauto|].
  destruct (String.eqb k "z"); [eauto|].
  destruct (String.eqb k "x"); [eauto|].
  destruct (String.eqb k "y"); [eauto|].
  discriminate.
Qed.

Lemma apply_gates_calls {S : Type} `{Simulator S} (gates : list gate)
  (sim : S) :
  Forall (fun g => recognized g = true) gates ->
  apply_gates gates sim = (run_calls (calls_of gates) sim, None) /\
  map call_of gates = map Some (calls_of gates).
Proof.
  revert sim. induction gates as [|g gates IH]; intros sim Hall.
  - split; reflexivity.
  - inversion Hall as [|? ? Hg Hrest]; subst.
    destruct (apply_gate_call g sim Hg) as (c & Hc & Hrun).
    destruct (IH (run_call c sim) Hrest) as [IHrun IHmap].
    unfold calls_of in *. simpl. rewrite Hrun, Hc. simpl. split.
    + exact IHrun.
    + now rewrite IHmap.
Qed.

(** C7, amended.  When the first record of unknown kind comes after the
    recognized records [pre], [apply_gates] raises [ValueError] after it
    has made on the simulator, in order, the call of every record of
    [pre] - one call for each - and none for the records after the unknown
    one: the simulator is left as these calls leave it, and a simulator
    that logs its calls has logged exactly them. *)
Theorem apply_gates_stops_at_unknown (S : Type) (H : Simulator S)
  (pre rest : list gate) (g : gate) (sim : S) :
  Forall (fun g => recognized g = true) pre ->
  recognized g = false ->
  apply_gates (pre ++ g :: rest) sim
  = (run_calls (calls_of pre) sim, Some (ValueError gate_type_msg)) /\
  map call_of pre = map Some (calls_of pre) /\
  apply_gates pre sim = (run_calls (calls_of pre) sim, None) /\
  forall log : list call,
    snd (fst (apply_gates (pre ++ g :: rest) ((sim, log) : logged S)))
    = log ++ calls_of pre.
Proof.
  intros Hpre Hg.
  assert (Hstop : forall (S' : Type) (H' : Simulator S') (sim' : S'),
            apply_gates (pre ++ g :: rest) sim'
            = (run_calls (calls_of pre) sim',
               Some (ValueError gate_type_msg))).
  { intros S' H' sim'. rewrite apply_gates_app by assumption.
    destruct (apply_gates_calls sim' Hpre) as [-> _]. simpl.
    now rewrite (apply_gate_unrecognized g _ Hg). }
  destruct (apply_gates_calls sim Hpre) as [Hrun Hmap].
  split; [apply Hstop|]. split; [exact Hmap|]. split; [exact Hrun|].
  intros log. rewrite Hstop. simpl. now rewrite run_calls_logged.
Qed.

Lemma apply_gates_stops_at_unknown_witness :
  apply_gates ([("h"%string, 0%Z, None)] ++ ("q"%string, 0%Z, None)
                 :: [("p"%string, 0%Z, None)]) ([[1; 0]; [0; 1]]%Z : matrix)
  = (run_calls (calls_of [("h"%string, 0%Z, None)])
               ([[1; 0]; [0; 1]]%Z : matrix),
     Some (ValueError gate_type_msg)) /\
  map call_of [("h"%string, 0%Z, None)]
  = map Some (calls_of [("h"%string, 0%Z, None)]) /\
  apply_gates [("h"%string, 0%Z, None)] ([[1; 0]; [0; 1]]%Z : matrix)
  = (run_calls (calls_of [("h"%string, 0%Z, None)])
               ([[1; 0]; [0; 1]]%Z : matrix), None) /\
  forall log : list call,
    snd (fst (apply_gates ([("h"%string, 0%Z, None)]
                             ++ ("q"%string, 0%Z, None)
                             :: [("p"%string, 0%Z, None)])
                          (([[1; 0]; [0; 1]]%Z, log) : logged matrix)))
    = log ++ calls_of [("h"%string, 0%Z, None)].
Proof.
  apply (@apply_gates_stops_at_unknown matrix Tableau).
  - repeat constructor.
  - reflexivity.
Defined.

(** ** Recorded steps and gates *)

Definition distinct_step (p : step) : Prop := fst p <> snd p.

Section ColumnSteps.
Let D (st : matrix * list step) : Prop := Forall distinct_step (snd st).

Lemma col_clear_distinct i j st : i <> j -> D st -> D (col_clear i j st).
Proof.
  intros Hij Hst. destruct st as [M steps]. unfold col_clear.
  destruct (get M i j =? 1)%Z; auto. unfold D in *; simpl in *.
  apply Forall_app; split; auto; constructor; auto.
Qed.

Lemma col_fix_pivot_distinct i n st : D st -> D (col_fix_pivot i n st).
Proof.
  intros Hst. destruct st as [M steps]. unfold col_fix_pivot.
  destruct (negb (get M i i =? 1)%Z); auto.
  apply for_each_break_keeps; auto.
  intros j [M' steps'] Hj Hst'. apply in_range in Hj.
  destruct (get M' i j =? 1)%Z; auto. unfold D in *; simpl in *.
  apply Forall_app; split; auto; constructor; auto.
  unfold distinct_step; simpl. lia.
Qed.

Lemma col_lower_distinct n st : D st -> D (col_lower n st).
Proof.
  intros Hst. unfold col_lower. apply for_each_keeps; auto.
  intros i s Hi Hs. apply for_each_keeps.
  - now apply col_fix_pivot_distinct.
  - intros j s' Hj Hs'. apply in_range in Hj.
    apply col_clear_distinct; auto. lia.
Qed.

Lemma col_upper_distinct n st : D st -> D (col_upper n st).
Proof.
  intros Hst. unfold col_upper. apply for_each_keeps; auto.
  intros i s Hi Hs. apply for_each_keeps; auto.
  intros j s' Hj Hs'. apply in_range_down in Hj.
  apply col_clear_distinct; auto. lia.
Qed.

Lemma col_steps_distinct A :
  Forall distinct_step (col_wise_gaussian_elimination_steps A).
Proof.
  unfold col_wise_gaussian_elimination_steps, col_wise_run.
  apply col_upper_distinct, col_lower_distinct. constructor.
Qed.
End ColumnSteps.

(** A CNOT record names two different qubits. *)
Definition cnot_ok (g : gate) : Prop :=
  kind g = "c"%string ->
  exists i j : Z, g = ("c"%string, i, Some j) /\ i <> j.

Section Decompose.
Context {S : Type} `{Simulator S}.

Let G (st : S * list gate) : Prop := Forall cnot_ok (snd st).

Lemma do_hadamard_ok i st : G st -> G (do_hadamard i st).
Proof.
  destruct st as [sim gates]. unfold G; simpl. intros Hg.
  apply Forall_app; split; auto; constructor; auto.
  intros Hk. discriminate.
Qed.

Lemma do_phase_ok i st : G st -> G (do_phase i st).
Proof.
  destruct st as [sim gates]. unfold G; simpl. intros Hg.
  repeat (apply Forall_app; split); auto;
    constructor; auto; intros Hk; discriminate.
Qed.

Lemma do_cnot_ok i j st : i <> j -> G st -> G (do_cnot i j st).
Proof.
  destruct st as [sim gates]. unfold G; simpl. intros Hij Hg.
  apply Forall_app; split; auto; constructor; auto.
  intros _. exists (Z.of_nat i), (Z.of_nat j). split; auto. lia.
Qed.

Lemma stage_cnots_ok view n st : G st -> G (stage_cnots view n st).
Proof.
  intros Hst. unfold stage_cnots. apply fold_left_keeps; auto.
  intros p s Hp Hs. apply do_cnot_ok; auto.
  pose proof (col_steps_distinct (view n (fst st))) as Hd.
  rewrite Forall_forall in Hd. now apply Hd.
Qed.

Lemma stage_factor_ok view n st : G st -> G (stage_factor view n st).
Proof.
  intros Hst. unfold stage_factor.
  apply for_each_keeps.
  - apply for_each_keeps; auto. intros i s _ Hs.
    destruct (get _ i i =? 1)%Z; auto. now apply do_phase_ok.
  - intros j s _ Hs. apply for_each_keeps; auto.
    intros i s' Hi Hs'. apply in_range in Hi.
    destruct (get _ i j =? 1)%Z; auto. apply do_cnot_ok; auto. lia.
Qed.

Lemma stage_phases_ok n st : G st -> G (stage_phases n st).
Proof.
  intros Hst. unfold stage_phases. apply for_each_keeps; auto.
  intros i s _ Hs. now apply do_phase_ok.
Qed.

Lemma decompose_run_ok sim : Forall cnot_ok (snd (decompose_run sim)).
Proof.
  unfold decompose_run.
  apply stage_cnots_ok, stage_phases_ok, stage_factor_ok.
  apply for_each_keeps; [|intros; now apply do_hadamard_ok].
  apply stage_cnots_ok, stage_phases_ok, stage_factor_ok, stage_cnots_ok.
  apply for_each_keeps; [|intros; now apply do_hadamard_ok].
  constructor.
Qed.
End Decompose.

(** C10.  Every step (s, t) that [col_wise_gaussian_elimination_steps]
    returns has s <> t, and every CNOT record in the list
    [decompose_state] returns has a control different from its target. *)
Theorem cnot_control_differs_from_target :
  (forall A : matrix,
     Forall (fun p : step => fst p <> snd p)
            (col_wise_gaussian_elimination_steps A)) /\
  (forall (S : Type) (H : Simulator S) (sim : S),
     Forall (fun g : gate =>
               kind g = "c"%string ->
               exists i j : Z, g = ("c"%string, i, Some j) /\ i <> j)
            (decompose_state sim)).
Proof.
  split.
  - intros A. apply col_steps_distinct.
  - intros S H sim. unfold decompose_state.
    apply Forall_rev. apply (decompose_run_ok sim).
Qed.

(** ** What the simulator is asked to do, against what is recorded *)

Section Recording.
Context {S : Type} `{Simulator S}.

(** The list holds the records of the calls made so far, call by call. *)
Let R (st : logged S * list gate) : Prop :=
  snd st = flat_map records_of_call (snd (fst st)).

Lemma do_hadamard_recorded i st : R st -> R (do_hadamard i st).
Proof.
  destruct st as [[sim log] gates]. unfold R; simpl. intros ->.
  now rewrite flat_map_app.
Qed.

Lemma do_cnot_recorded i j st : R st -> R (do_cnot i j st).
Proof.
  destruct st as [[sim log] gates]. unfold R; simpl. intros ->.
  now rewrite flat_map_app.
Qed.

Lemma do_phase_recorded i st : R st -> R (do_phase i st).
Proof.
  destruct st as [[sim log] gates]. unfold R; simpl. intros ->.
  rewrite flat_map_app. simpl. now rewrite <- !app_assoc.
Qed.

Lemma stage_cnots_recorded view n st : R st -> R (stage_cnots view n st).
Proof.
  intros Hst. unfold stage_cnots. apply fold_left_keeps; auto.
  intros p s _ Hs. now apply do_cnot_recorded.
Qed.

Lemma stage_factor_recorded view n st : R st -> R (stage_factor view n st).
Proof.
  intros Hst. unfold stage_factor.
  apply for_each_keeps.
  - apply for_each_keeps; auto. intros i s _ Hs.
    destruct (get _ i i =? 1)%Z; auto. now apply do_phase_recorded.
  - intros j s _ Hs. apply for_each_keeps; auto.
    intros i s' _ Hs'.
    destruct (get _ i j =? 1)%Z; auto. now apply do_cnot_recorded.
Qed.

Lemma stage_phases_recorded n st : R st -> R (stage_phases n st).
Proof.
  intros Hst. unfold stage_phases. apply for_each_keeps; auto.
  intros i s _ Hs. now apply do_phase_recorded.
Qed.

Lemma decompose_run_recorded (sim : S) :
  R (decompose_run ((sim, []) : logged S)).
Proof.
  unfold decompose_run.
  apply stage_cnots_recorded, stage_phases_recorded, stage_factor_recorded.
  apply for_each_keeps; [|intros; now apply do_hadamard_recorded].
  apply stage_cnots_recorded, stage_phases_recorded, stage_factor_recorded,
    stage_cnots_recorded.
  apply for_each_keeps; [|intros; now apply do_hadamard_recorded].
  reflexivity.
Qed.
End Recording.

(** The log changes nothing: with or without it the simulator goes
    through the same states and the same list is built. *)
Section Logging.
Context {S : Type} `{Simulator S}.

Let E (sl : logged S * list gate) (sp : S * list gate) : Prop :=
  fst (fst sl) = fst sp /\ snd sl = snd sp.

Lemma do_hadamard_same i sl sp : E sl sp -> E (do_hadamard i sl) (do_hadamard i sp).
Proof.
  destruct sl as [[sim log] gates], sp as [sim' gates']. unfold E; simpl.
  intros [-> ->]. auto.
Qed.

Lemma do_cnot_same i j sl sp : E sl sp -> E (do_cnot i j sl) (do_cnot i j sp).
Proof.
  destruct sl as [[sim log] gates], sp as [sim' gates']. unfold E; simpl.
  intros [-> ->]. auto.
Qed.

Lemma do_phase_same i sl sp : E sl sp -> E (do_phase i sl) (do_phase i sp).
Proof.
  destruct sl as [[sim log] gates], sp as [sim' gates']. unfold E; simpl.
  intros [-> ->]. auto.
Qed.

Lemma stage_cnots_same (viewL : nat -> logged S -> matrix)
  (viewP : nat -> S -> matrix) n sl sp :
  (forall s, viewL n s = viewP n (fst s)) ->
  E sl sp -> E (stage_cnots viewL n sl) (stage_cnots viewP n sp).
Proof.
  intros Hview HE. unfold stage_cnots.
  rewrite Hview, (proj1 HE).
  apply fold_left_rel; auto. intros p s1 s2. apply do_cnot_same.
Qed.

Lemma stage_factor_same (viewL : nat -> logged S -> matrix)
  (viewP : nat -> S -> matrix) n sl sp :
  (forall s, viewL n s = viewP n (fst s)) ->
  E sl sp -> E (stage_factor viewL n sl) (stage_factor viewP n sp).
Proof.
  intros Hview HE. unfold stage_factor.
  rewrite Hview, (proj1 HE).
  apply for_each_rel.
  - intros j s1 s2 H12. apply for_each_rel; auto. intros i s1' s2' H12'.
    destruct (get _ i j =? 1)%Z; auto. now apply do_cnot_same.
  - apply for_each_rel; auto. intros i s1 s2 H12.
    destruct (get _ i i =? 1)%Z; auto. now apply do_phase_same.
Qed.

Lemma stage_phases_same n sl sp :
  E sl sp -> E (stage_phases n sl) (stage_phases n sp).
Proof.
  intros HE. unfold stage_phases. apply for_each_rel; auto.
  intros i s1 s2. apply do_phase_same.
Qed.

Lemma decompose_run_same (sim : S) :
  fst (fst (decompose_run ((sim, []) : logged S))) = fst (decompose_run sim) /\
  snd (decompose_run ((sim, []) : logged S)) = snd (decompose_run sim).
Proof.
  change (E (decompose_run ((sim, []) : logged S)) (decompose_run sim)).
  unfold decompose_run.
  apply stage_cnots_same; [reflexivity|].
  apply stage_phases_same.
  apply stage_factor_same; [reflexivity|].
  apply for_each_rel; [intros i s1 s2; apply do_hadamard_same|].
  apply stage_cnots_same; [reflexivity|].
  apply stage_phases_same.
  apply stage_factor_same; [reflexivity|].
  apply stage_cnots_same; [reflexivity|].
  apply for_each_rel; [intros i s1 s2; apply do_hadamard_same|].
  split; reflexivity.
Qed.
End Logging.

Lemma length_records calls :
  length (flat_map records_of_call calls)
  = length calls + 2 * length (filter is_phase_call calls).
Proof.
  induction calls as [|c calls IH]; simpl; auto.
  rewrite length_app, IH. destruct c; simpl; lia.
Qed.

(** The calls [decompose_state] makes on [sim], oldest first. *)
Definition decompose_calls {S : Type} `{Simulator S} (sim : S) : list call :=
  snd (fst (decompose_run ((sim, []) : logged S))).

(** C1 as stated: the simulator receives as many gate applications as the
    accumulated list has records.  On the one-qubit identity tableau it
    receives 6 and the list holds 14: each Phase is applied once. *)
Lemma decompose_applications_counterexample :
  ~ (forall sim : matrix,
       length (decompose_calls sim) = length (snd (decompose_run sim))).
Proof.
  intros Hclaim. specialize (Hclaim [[1; 0]; [0; 1]]%Z).
  vm_compute in Hclaim. discriminate.
Qed.

(** *** The calls, stage by stage

    What the twelve steps ask of the simulator, written as lists: each
    stage reads the simulator the earlier calls have produced, fixes the
    calls it makes, and makes them. *)

Definition hadamard_calls (l : list nat) : list call :=
  map (fun i => CallHadamard (Z.of_nat i)) l.

Definition phase_calls (l : list nat) : list call :=
  map (fun i => CallPhase (Z.of_nat i)) l.

Definition cnot_calls (l : list step) : list call :=
  map (fun p => CallCnot (Z.of_nat (fst p)) (Some (Z.of_nat (snd p)))) l.

(** Steps 3 and 8: the qubits [i] with [L[i, i] = 1], in increasing
    order, for [L = M M^T - A] and [M = find_M(A)]. *)
Definition factor_phases (A : matrix) (n : nat) : list nat :=
  let M := find_M A in
  let L := sub_mod2 (matmul8 M (transpose M)) A in
  filter (fun i => (get L i i =? 1)%Z) (range 0 n).

(** Steps 4 and 9: the pairs [(i, j)] below the diagonal with
    [M[i, j] = 1], column by column. *)
Definition factor_cnots (A : matrix) (n : nat) : list step :=
  let M := find_M A in
  flat_map (fun j =>
              map (fun i => (i, j))
                  (filter (fun i => (get M i j =? 1)%Z) (range (j + 1) n)))
           (range 0 n).

Section StageCalls.
Context {S : Type} `{Simulator S}.

(** One stage: the calls [f] fixes from the simulator are made and added
    to those made before. *)
Definition extend (f : S -> list call) (p : S * list call) : S * list call :=
  let k := f (fst p) in (run_calls k (fst p), snd p ++ k).

(** The simulator and the calls after steps 1 to 11.  At steps 3, 5, 8
    and 10 each Phase is one call. *)
Definition staged_calls (sim : S) : S * list call :=
  let n := qubits_of sim in
  let p := (sim, []) in
  (* Step 1 *)
  let p := extend (fun s => hadamard_calls
                     (get_hadamard_steps (view_c n s) (view_d n s))) p in
  (* Step 2 *)
  let p := extend (fun s => cnot_calls
                     (col_wise_gaussian_elimination_steps (view_c n s))) p in
  (* Steps 3, 4 *)
  let p := extend (fun s => phase_calls (factor_phases (view_d n s) n)
                            ++ cnot_calls (factor_cnots (view_d n s) n)) p in
  (* Step 5 *)
  let p := extend (fun _ => phase_calls (range 0 n)) p in
  (* Step 6 *)
  let p := extend (fun s => cnot_calls
                     (col_wise_gaussian_elimination_steps (view_c n s))) p in
  (* Step 7 *)
  let p := extend (fun _ => hadamard_calls (range 0 n)) p in
  (* Steps 8, 9 *)
  let p := extend (fun s => phase_calls (factor_phases (view_b n s) n)
                            ++ cnot_calls (factor_cnots (view_b n s) n)) p in
  (* Step 10 *)
  let p := extend (fun _ => phase_calls (range 0 n)) p in
  (* Step 11 *)
  extend (fun s => cnot_calls
            (col_wise_gaussian_elimination_steps (view_a n s))) p.

(** [st'] is [st] after the calls [k]: they were made on the simulator
    and logged. *)
Let adds (k : list call) (st st' : logged S * list gate) : Prop :=
  fst st' = (run_calls k (fst (fst st)), snd (fst st) ++ k).

Lemma adds_none st : adds [] st st.
Proof.
  destruct st as [[sim log] gates]. unfold adds. simpl.
  now rewrite app_nil_r.
Qed.

Lemma adds_then k1 k2 st st1 st2 :
  adds k1 st st1 -> adds k2 st1 st2 -> adds (k1 ++ k2) st st2.
Proof.
  unfold adds. intros H1 H2. rewrite H2, H1. simpl.
  now rewrite run_calls_app, app_assoc.
Qed.

Lemma do_hadamard_adds i st :
  adds [CallHadamard (Z.of_nat i)] st (do_hadamard i st).
Proof. destruct st as [[sim log] gates]. reflexivity. Qed.

Lemma do_phase_adds i st :
  adds [CallPhase (Z.of_nat i)] st (do_phase i st).
Proof. destruct st as [[sim log] gates]. reflexivity. Qed.

Lemma do_cnot_adds i j st :
  adds [CallCnot (Z.of_nat i) (Some (Z.of_nat j))] st (do_cnot i j st).
Proof. destruct st as [[sim log] gates]. reflexivity. Qed.

Lemma fold_left_adds {A : Type} (l : list A)
  (f : logged S * list gate -> A -> logged S * list gate)
  (k : A -> list call) st :
  (forall x s, adds (k x) s (f s x)) ->
  adds (flat_map k l) st (fold_left f l st).
Proof.
  intros Hf. revert st. induction l as [|x l IH]; intros st; simpl.
  - apply adds_none.
  - apply (adds_then (Hf x st)). apply IH.
Qed.

Lemma for_each_adds (l : list nat)
  (body : nat -> logged S * list gate -> logged S * list gate)
  (k : nat -> list call) st :
  (forall i s, adds (k i) s (body i s)) ->
  adds (flat_map k l) st (for_each l body st).
Proof.
  intros Hb. unfold for_each.
  apply (@fold_left_adds nat l (fun s i => body i s) k st). exact Hb.
Qed.

Lemma flat_map_single {A B : Type} (f : A -> B) (l : list A) :
  flat_map (fun x => [f x]) l = map f l.
Proof. induction l as [|x l IH]; simpl; congruence. Qed.

Lemma flat_map_if {A B : Type} (c : A -> bool) (f : A -> B) (l : list A) :
  flat_map (fun x => if c x then [f x] else []) l = map f (filter c l).
Proof.
  induction l as [|x l IH]; simpl; auto.
  destruct (c x); simpl; congruence.
Qed.

Lemma map_flat_map_list {A B C : Type} (f : B -> C) (g : A -> list B)
  (l : list A) :
  map f (flat_map g l) = flat_map (fun x => map f (g x)) l.
Proof.
  induction l as [|x l IH]; simpl; auto. now rewrite map_app, IH.
Qed.

Lemma hadamards_adds l st :
  adds (hadamard_calls l) st (for_each l do_hadamard st).
Proof.
  unfold hadamard_calls.
  rewrite <- (flat_map_single (fun i => CallHadamard (Z.of_nat i))).
  apply for_each_adds. intros i s. apply do_hadamard_adds.
Qed.

Lemma stage_phases_adds n st :
  adds (phase_calls (range 0 n)) st (stage_phases n st).
Proof.
  unfold phase_calls, stage_phases.
  rewrite <- (flat_map_single (fun i => CallPhase (Z.of_nat i))).
  apply for_each_adds. intros i s. apply do_phase_adds.
Qed.

Lemma stage_cnots_adds (view : nat -> logged S -> matrix) n st :
  adds (cnot_calls (col_wise_gaussian_elimination_steps (view n (fst st))))
       st (stage_cnots view n st).
Proof.
  unfold cnot_calls, stage_cnots.
  rewrite <- (flat_map_single
                (fun p : step =>
                   CallCnot (Z.of_nat (fst p)) (Some (Z.of_nat (snd p))))).
  apply (@fold_left_adds step). intros p s. apply do_cnot_adds.
Qed.

Lemma stage_factor_adds (view : nat -> logged S -> matrix) n st :
  adds (phase_calls (factor_phases (view n (fst st)) n)
        ++ cnot_calls (factor_cnots (view n (fst st)) n))
       st (stage_factor view n st).
Proof.
  unfold stage_factor, factor_phases, factor_cnots.
  set (M := find_M (view n (fst st))).
  set (L := sub_mod2 (matmul8 M (transpose M)) (view n (fst st))).
  apply (@adds_then _ _ st
           (for_each (range 0 n) (fun i st0 =>
              if (get L i i =? 1)%Z then do_phase i st0 else st0) st)).
  - unfold phase_calls.
    rewrite <- (flat_map_if (fun i => (get L i i =? 1)%Z)
                            (fun i => CallPhase (Z.of_nat i))).
    apply for_each_adds. intros i s. cbv beta.
    destruct (get L i i =? 1)%Z; [apply do_phase_adds|apply adds_none].
  - unfold cnot_calls. rewrite map_flat_map_list.
    apply for_each_adds. intros j s.
    rewrite map_map. cbn [fst snd].
    rewrite <- (flat_map_if (fun i => (get M i j =? 1)%Z)
                  (fun i => CallCnot (Z.of_nat i) (Some (Z.of_nat j)))).
    apply for_each_adds. intros i s'. cbv beta.
    destruct (get M i j =? 1)%Z; [apply do_cnot_adds|apply adds_none].
Qed.

Lemma hadamards_extend l st :
  fst (for_each l do_hadamard st) = extend (fun _ => hadamard_calls l) (fst st).
Proof. exact (hadamards_adds l st). Qed.

Lemma stage_phases_extend n st :
  fst (stage_phases n st)
  = extend (fun _ => phase_calls (range 0 n)) (fst st).
Proof. exact (stage_phases_adds n st). Qed.

Lemma stage_cnots_extend (viewL : nat -> logged S -> matrix)
  (viewP : nat -> S -> matrix) n st :
  (forall s, viewL n s = viewP n (fst s)) ->
  fst (stage_cnots viewL n st)
  = extend (fun s => cnot_calls
              (col_wise_gaussian_elimination_steps (viewP n s))) (fst st).
Proof.
  intros Hview. pose proof (stage_cnots_adds viewL n st) as Hadds.
  rewrite Hview in Hadds. exact Hadds.
Qed.

Lemma stage_factor_extend (viewL : nat -> logged S -> matrix)
  (viewP : nat -> S -> matrix) n st :
  (forall s, viewL n s = viewP n (fst s)) ->
  fst (stage_factor viewL n st)
  = extend (fun s => phase_calls (factor_phases (viewP n s) n)
                     ++ cnot_calls (factor_cnots (viewP n s) n)) (fst st).
Proof.
  intros Hview. pose proof (stage_factor_adds viewL n st) as Hadds.
  rewrite Hview in Hadds. exact Hadds.
Qed.

Lemma decompose_run_staged (sim : S) :
  fst (decompose_run ((sim, []) : logged S)) = staged_calls sim.
Proof.
  unfold decompose_run, staged_calls.
  change (qubits_of ((sim, []) : logged S)) with (qubits_of sim).
  set (n := qubits_of sim).
  rewrite (@stage_cnots_extend (@view_a (logged S) _) (@view_a S H) n)
    by reflexivity. f_equal.
  rewrite stage_phases_extend. f_equal.
  rewrite (@stage_factor_extend (@view_b (logged S) _) (@view_b S H) n)
    by reflexivity. f_equal.
  rewrite hadamards_extend. f_equal.
  rewrite (@stage_cnots_extend (@view_c (logged S) _) (@view_c S H) n)
    by reflexivity. f_equal.
  rewrite stage_phases_extend. f_equal.
  rewrite (@stage_factor_extend (@view_d (logged S) _) (@view_d S H) n)
    by reflexivity. f_equal.
  rewrite (@stage_cnots_extend (@view_c (logged S) _) (@view_c S H) n)
    by reflexivity. f_equal.
  rewrite hadamards_extend. reflexivity.
Qed.

Lemma extend_runs (f : S -> list call) (sim : S) p :
  fst p = run_calls (snd p) sim ->
  fst (extend f p) = run_calls (snd (extend f p)) sim.
Proof.
  intros Hp. unfold extend. simpl. now rewrite run_calls_app, <- Hp.
Qed.

Lemma staged_calls_run (sim : S) :
  fst (staged_calls sim) = run_calls (snd (staged_calls sim)) sim.
Proof.
  unfold staged_calls. do 9 apply extend_runs. reflexivity.
Qed.
End StageCalls.

(** C1, amended.  The calls [decompose_state] makes on the simulator are
    those of the stages in order: at every phase-correction site - step 3
    and step 8 for the qubits with [L[i, i] = 1], step 5 and step 10 for
    every qubit - Phase is applied to the simulator once, and it is
    recorded three times; Hadamard and CNOT are applied once and recorded
    once.  The simulator ends as these calls leave it, the accumulated
    list holds the records of the calls in application order, so it is
    longer than the sequence of applications by twice the number of Phase
    applications, and the list returned is the accumulated list
    reversed. *)
Theorem decompose_records_calls (S : Type) (H : Simulator S) (sim : S) :
  decompose_calls sim = snd (staged_calls sim) /\
  fst (decompose_run sim) = run_calls (decompose_calls sim) sim /\
  snd (decompose_run sim) = flat_map records_of_call (decompose_calls sim) /\
  length (snd (decompose_run sim))
  = length (decompose_calls sim)
    + 2 * length (filter is_phase_call (decompose_calls sim)) /\
  decompose_state sim
  = rev (flat_map records_of_call (snd (staged_calls sim))).
Proof.
  pose proof (decompose_run_recorded sim) as Hrec. simpl in Hrec.
  destruct (decompose_run_same sim) as [Hsim Hsame].
  pose proof (decompose_run_staged sim) as Hstaged.
  assert (Hcalls : decompose_calls sim = snd (staged_calls sim))
    by (unfold decompose_calls; now rewrite Hstaged).
  assert (Hlist : snd (decompose_run sim)
                  = flat_map records_of_call (decompose_calls sim)).
  { rewrite <- Hsame. exact Hrec. }
  split; [exact Hcalls|]. split; [|split; [exact Hlist|split]].
  - rewrite <- Hsim, Hcalls, Hstaged. apply staged_calls_run.
  - rewrite Hlist at 1. apply length_records.
  - unfold decompose_state. now rewrite Hlist, Hcalls.
Qed.

(** ** Runs on small tableaux

    The |+> state of one qubit and a Bell pair: the run drives the tableau
    to the identity, and replaying the returned list from the identity
    gives the tableau back. *)

Definition plus_state : matrix := [[0; 1]; [1; 0]]%Z.

Definition bell_state : matrix :=
  [[0; 0; 1; 0]; [0; 1; 0; 0]; [1; 1; 0; 0]; [0; 0; 1; 1]]%Z.

Example decompose_plus_state :
  fst (decompose_run plus_state) = identity 2 /\
  apply_gates (decompose_state plus_state) (identity 2) = (plus_state, None).
Proof. split; vm_compute; reflexivity. Qed.

Example decompose_bell_state :
  fst (decompose_run bell_state) = identity 4 /\
  apply_gates (decompose_state bell_state) (identity 4) = (bell_state, None).
Proof. split; vm_compute; reflexivity. Qed.

Example decompose_bell_state_calls :
  decompose_calls bell_state
  = [CallHadamard 0; CallCnot 1 (Some 0); CallCnot 0 (Some 1);
     CallCnot 1 (Some 0); CallPhase 0; CallCnot 1 (Some 0);
     CallPhase 0; CallPhase 1; CallCnot 1 (Some 0);
     CallHadamard 0; CallHadamard 1; CallPhase 0;
     CallCnot 1 (Some 0); CallPhase 0; CallPhase 1;
     CallCnot 1 (Some 0)]%Z.
Proof. vm_compute. reflexivity. Qed.

(** ** Congruence factorization *)

Definition symmetric (n : nat) (A : matrix) : Prop :=
  forall i j, i < n -> j < n -> get A i j = get A j i.

Section FindM.
Variables (n : nat) (A : matrix).

(** The recurrence the source computes for the cell below the diagonal. *)
Definition find_M_rec (M : matrix) (i j : nat) : Z :=
  ((get A i j - sumZ j (fun k => get M i k * get M j k)) mod 2)%Z.

(** [M] when the loops are about to write cell [(ii, jj)]: column by
    column, the cells below the diagonal already written hold the
    recurrence. *)
Definition fm_inv (jj ii : nat) (M : matrix) : Prop :=
  wf n n M /\
  (forall i, i < n -> get M i i = 1%Z) /\
  (forall i j, i < j -> j < n -> get M i j = 0%Z) /\
  (forall i j, i < n -> j < n -> get M i j = 0%Z \/ get M i j = 1%Z) /\
  (forall i j, j < i -> i < n -> j < jj \/ (j = jj /\ i < ii) ->
               get M i j = find_M_rec M i j).

Lemma fm_inv_start : fm_inv 0 0 (identity n).
Proof.
  split; [apply wf_identity|]. repeat split.
  - intros i Hi. rewrite get_identity by auto. now rewrite Nat.eqb_refl.
  - intros i j Hij Hj. rewrite get_identity by lia.
    destruct (Nat.eqb_spec i j); auto. lia.
  - intros i j Hi Hj. rewrite get_identity by lia.
    destruct (i =? j); auto.
  - intros; lia.
Qed.

Lemma fm_inv_cell j i M :
  j < i -> i < n -> fm_inv j i M -> fm_inv j (S i) (find_M_cell A j i M).
Proof.
  intros Hji Hi (HM & Hdiag & Hup & Hbin & Hdone).
  assert (Hj : j < n) by lia.
  unfold find_M_cell.
  set (v := ((get A i j - sumZ j (fun k => get M i k * get M j k)) mod 2)%Z).
  assert (Hv : wrap8 v = v) by (apply wrap8_bit, mod2_bit).
  rewrite Hv.
  assert (Hget : forall i' j', get (set M i j v) i' j' =
                   if (Nat.eqb i i' && Nat.eqb j j')%bool then v
                   else get M i' j')
    by (intros; now apply (get_set _ _ _ HM)).
  assert (Hsum : forall i' j', j' <= j -> j' < i' ->
            sumZ j' (fun k => get (set M i j v) i' k * get (set M i j v) j' k)%Z
            = sumZ j' (fun k => get M i' k * get M j' k)%Z).
  { intros i' j' Hj' Hij'. apply sumZ_ext. intros k Hk. rewrite !Hget.
    replace (Nat.eqb j k) with false by (symmetry; apply Nat.eqb_neq; lia).
    now rewrite !andb_false_r. }
  split; [now apply wf_set|]. repeat split.
  - intros i' Hi'. rewrite Hget.
    destruct (Nat.eqb_spec i i') as [<-|]; simpl; auto.
    replace (Nat.eqb j i) with false by (symmetry; apply Nat.eqb_neq; lia).
    auto.
  - intros i' j' Hij' Hj'. rewrite Hget.
    destruct (Nat.eqb_spec i i') as [<-|]; simpl; auto.
    destruct (Nat.eqb_spec j j') as [<-|]; simpl; auto. lia.
  - intros i' j' Hi' Hj'. rewrite Hget.
    destruct (Nat.eqb i i' && Nat.eqb j j')%bool; auto. apply mod2_bit.
  - intros i' j' Hji' Hi' Hpos. unfold find_M_rec.
    rewrite Hsum by lia. rewrite Hget.
    destruct (Nat.eqb_spec i i') as [<-|Hne]; simpl.
    + destruct (Nat.eqb_spec j j') as [<-|Hne']; auto.
      apply Hdone; auto. lia.
    + apply Hdone; auto. lia.
Qed.

Lemma fm_inv_column j M :
  j < n -> fm_inv j 0 M ->
  fm_inv (S j) 0 (for_each (range (j + 1) n) (find_M_cell A j) M).
Proof.
  intros Hj (HM & Hdiag & Hup & Hbin & Hdone).
  assert (Hcol : fm_inv j n (for_each (range (j + 1) n) (find_M_cell A j) M)).
  { apply (for_range_ind (fun i M => fm_inv j i M)); [lia| |].
    - do 4 (split; [assumption|]).
      intros i' j' Hji' Hi' Hpos. apply Hdone; auto. lia.
    - intros i M' Hi HM'. apply fm_inv_cell; auto; lia. }
  destruct Hcol as (HM' & Hdiag' & Hup' & Hbin' & Hdone').
  do 4 (split; [assumption|]).
  intros i' j' Hji' Hi' Hpos. apply Hdone'; auto. lia.
Qed.

Lemma find_M_inv : nrows A = n -> fm_inv n 0 (find_M A).
Proof.
  intros HA. unfold find_M. rewrite HA.
  apply (for_range_ind (fun j M => fm_inv j 0 M)); [lia| |].
  - apply fm_inv_start.
  - intros j M Hj HM. apply fm_inv_column; auto; lia.
Qed.

(** Off the diagonal, the row products of a unit lower triangular [M]
    that satisfies the recurrence agree with [A] modulo 2. *)
Lemma row_product_below M i j :
  fm_inv n 0 M -> j < i -> i < n ->
  eqm2 (sumZ n (fun k => get M i k * get M j k)%Z) (get A i j).
Proof.
  intros (HM & Hdiag & Hup & Hbin & Hdone) Hji Hi.
  rewrite (@sumZ_zero_tail (S j) n) by
    (try lia; intros k Hk; rewrite (Hup j k) by lia; lia).
  simpl. rewrite (Hdiag j) by lia.
  rewrite (Hdone i j) by (auto; lia). unfold find_M_rec.
  set (s := sumZ j (fun k => (get M i k * get M j k)%Z)).
  unfold eqm2. rewrite Z.mul_1_r, Zplus_mod_idemp_r.
  f_equal. lia.
Qed.
End FindM.

(** C3.  For a symmetric n by n array [A], [find_M A] is unit lower
    triangular with cells in {0, 1}, its cells below the diagonal satisfy
    M[i,j] = (A[i,j] - sum over k < j of M[i,k] * M[j,k]) mod 2, and
    (M @ M.T - A) % 2 is zero off the diagonal. *)
Theorem find_M_factorization (n : nat) (A : matrix) :
  wf n n A -> symmetric n A ->
  wf n n (find_M A) /\ binary (find_M A) /\
  (forall i, i < n -> get (find_M A) i i = 1%Z) /\
  (forall i j, i < j -> j < n -> get (find_M A) i j = 0%Z) /\
  (forall i j, j < i -> i < n ->
     get (find_M A) i j
     = ((get A i j
         - sumZ j (fun k => get (find_M A) i k * get (find_M A) j k)) mod 2)%Z) /\
  (forall i j, i < n -> j < n -> i <> j ->
     get (sub_mod2 (matmul8 (find_M A) (transpose (find_M A))) A) i j = 0%Z).
Proof.
  intros HA Hsym.
  pose proof (@find_M_inv n A (wf_nrows HA)) as Hinv.
  pose proof Hinv as (HM & Hdiag & Hup & Hbin & Hdone).
  split; [exact HM|]. split; [now apply (binary_of_get HM)|].
  split; [exact Hdiag|]. split; [exact Hup|]. split.
  - intros i j Hji Hi. apply Hdone; auto. lia.
  - intros i j Hi Hj Hij.
    assert (Hn : 0 < n) by lia.
    pose proof (wf_transpose HM Hn) as HT.
    rewrite (get_sub_mod2 (wf_matmul8 HM HT Hn) HA) by auto.
    rewrite (get_matmul8 HM HT) by auto.
    apply eqm2_sub_zero. eapply eqm2_trans; [apply eqm2_wrap8|].
    rewrite (@sumZ_ext n (fun k => get (find_M A) i k * get (transpose (find_M A)) k j)%Z
                        (fun k => get (find_M A) i k * get (find_M A) j k)%Z)
      by (intros k Hk; now rewrite (get_transpose HM)).
    destruct (Nat.lt_ge_cases j i) as [Hlt|Hge].
    + now apply (@row_product_below n A _ i j Hinv).
    + rewrite (Hsym i j) by auto.
      rewrite (@sumZ_ext n (fun k => get (find_M A) i k * get (find_M A) j k)%Z
                          (fun k => get (find_M A) j k * get (find_M A) i k)%Z)
        by (intros; lia).
      apply (@row_product_below n A _ j i Hinv); lia.
Qed.

Lemma find_M_factorization_witness :
  wf 2 2 (find_M [[0; 1]; [1; 1]]%Z) /\ binary (find_M [[0; 1]; [1; 1]]%Z) /\
  (forall i, i < 2 -> get (find_M [[0; 1]; [1; 1]]%Z) i i = 1%Z) /\
  (forall i j, i < j -> j < 2 -> get (find_M [[0; 1]; [1; 1]]%Z) i j = 0%Z) /\
  (forall i j, j < i -> i < 2 ->
     get (find_M [[0; 1]; [1; 1]]%Z) i j
     = ((get [[0; 1]; [1; 1]]%Z i j
         - sumZ j (fun k => get (find_M [[0; 1]; [1; 1]]%Z) i k
                            * get (find_M [[0; 1]; [1; 1]]%Z) j k)) mod 2)%Z) /\
  (forall i j, i < 2 -> j < 2 -> i <> j ->
     get (sub_mod2 (matmul8 (find_M [[0; 1]; [1; 1]]%Z)
                            (transpose (find_M [[0; 1]; [1; 1]]%Z)))
                   [[0; 1]; [1; 1]]%Z) i j = 0%Z).
Proof.
  apply (@find_M_factorization 2 [[0; 1]; [1; 1]]%Z).
  - split; [reflexivity|]. repeat constructor.
  - intros [|[|i]] [|[|j]] Hi Hj; try lia; reflexivity.
Defined.

(** ** Row reduction *)

(** The column of the pivot found in row [r]. *)
Definition pcol (pivots : list pivot) (r : nat) : nat :=
  snd (nth r pivots (0, 0)).

Lemma add_row_row_added n m M a b :
  wf n m M -> a < n -> b < n -> a <> b ->
  row_added n m a b (get M) (get (add_row M a b)).
Proof.
  intros HM Ha Hb Hab. repeat split; auto.
  - intros j Hj. rewrite (get_add_row _ HM Ha Hb Hj), Nat.eqb_refl.
    apply eqm2_mod.
  - intros r j Hr Hra Hj. rewrite (get_add_row _ HM Ha Hb Hj).
    destruct (Nat.eqb_spec a r); [lia|reflexivity].
Qed.

Lemma binary_add_row n m M a b :
  wf n m M -> binary M -> a < n -> b < n -> binary (add_row M a b).
Proof.
  intros HM Hbin Ha Hb. apply (@binary_of_get n m).
  - now apply wf_add_row.
  - intros r c Hr Hc. rewrite (get_add_row _ HM Ha Hb Hc).
    destruct (Nat.eqb a r); [apply mod2_bit|now apply (binary_get HM)].
Qed.

Section RowReduce.
Variables (n m : nat) (A : matrix).

(** What holds of the working copy while [k] pivots have been found in
    the columns before [j]: it spans the rows of [A]; each pivot row
    starts with its pivot, and has zeros below it; the rows without a
    pivot are zero before column [j]. *)
Definition stable (k j : nat) (pivots : list pivot) (M : matrix) : Prop :=
  wf n m M /\ binary M /\ same_span n n m (get M) (get A) /\
  (forall r, r < k ->
     get M r (pcol pivots r) = 1%Z /\
     (forall r', r < r' -> r' < n -> get M r' (pcol pivots r) = 0%Z) /\
     (forall c, c < pcol pivots r -> get M r c = 0%Z)) /\
  (forall r c, k <= r -> r < n -> c < j -> get M r c = 0%Z).

(** The pivots are in rows 0, 1, ... and in increasing columns before [j]. *)
Definition pivots_ok (k j : nat) (pivots : list pivot) : Prop :=
  length pivots = k /\
  (forall r, r < k -> fst (nth r pivots (0, 0)) = r /\ pcol pivots r < j) /\
  (forall r r', r < r' -> r' < k -> pcol pivots r < pcol pivots r').

Lemma stable_add_row k j pivots M a b :
  j <= m -> pivots_ok k j pivots -> stable k j pivots M ->
  k <= a -> a < n -> k <= b -> b < n -> a <> b ->
  stable k j pivots (add_row M a b).
Proof.
  intros Hjm (Hlen & Hpiv & Hinc) (HM & Hbin & Hspan & Hrows & Hzero)
         Hka Ha Hkb Hb Hab.
  split; [now apply wf_add_row|].
  split; [now apply (binary_add_row HM)|].
  split.
  { intros v. rewrite <- (Hspan v).
    apply (row_added_span (add_row_row_added HM Ha Hb Hab)). }
  split.
  - intros r Hr. destruct (Hrows r Hr) as (Hone & Hbelow & Hlead).
    assert (Hc : pcol pivots r < m) by (destruct (Hpiv r Hr); lia).
    split; [|split].
    + rewrite (get_add_row _ HM Ha Hb Hc).
      destruct (Nat.eqb_spec a r); [lia|auto].
    + intros r' Hrr' Hr'. rewrite (get_add_row _ HM Ha Hb Hc).
      destruct (Nat.eqb_spec a r') as [<-|]; auto.
      rewrite (Hbelow a), (Hbelow b) by lia. reflexivity.
    + intros c Hcc. rewrite (get_add_row _ HM Ha Hb) by lia.
      destruct (Nat.eqb_spec a r); [lia|auto].
  - intros r c Hkr Hr Hc. rewrite (get_add_row _ HM Ha Hb) by lia.
    destruct (Nat.eqb_spec a r) as [<-|]; auto.
    rewrite (Hzero a c), (Hzero b c) by lia. reflexivity.
Qed.

(** Lines 180-188 *)
Lemma row_find_pivot_spec k j pivots M :
  j < m -> k < n -> pivots_ok k j pivots -> stable k j pivots M ->
  stable k j pivots (fst (row_find_pivot n k j M)) /\
  (snd (row_find_pivot n k j M) = true ->
   get (fst (row_find_pivot n k j M)) k j = 1%Z) /\
  (snd (row_find_pivot n k j M) = false ->
   forall r, k <= r -> r < n -> get (fst (row_find_pivot n k j M)) r j = 0%Z).
Proof.
  intros Hj Hk Hpiv Hst. unfold row_find_pivot.
  destruct (Z.eqb_spec (get M k j) 1) as [Hone|Hnot]; simpl.
  { split; auto. split; auto. discriminate. }
  pose proof Hst as (HM & Hbin & _).
  assert (Hk0 : get M k j = 0%Z)
    by (destruct (binary_get HM Hbin Hk Hj); auto; contradiction).
  apply (for_range_break_ind
    (fun i (st : matrix * bool) =>
       fst st = M /\ snd st = false /\
       forall r, k < r -> r < i -> get M r j = 0%Z)
    (fun st : matrix * bool =>
       stable k j pivots (fst st) /\
       (snd st = true -> get (fst st) k j = 1%Z) /\
       (snd st = false ->
        forall r, k <= r -> r < n -> get (fst st) r j = 0%Z))).
  - lia.
  - simpl. split; auto. split; auto. intros; lia.
  - intros i [M' found] Hi (HM' & Hf & Hnone). simpl in HM', Hf. subst M' found.
    destruct (Z.eqb_spec (get M i j) 1) as [Hone|Hnot']; simpl.
    + split; [apply stable_add_row; auto; lia|]. split; [|discriminate].
      intros _. rewrite (get_add_row _ HM) by lia.
      rewrite Nat.eqb_refl, Hk0, Hone. reflexivity.
    + split; auto. split; auto. intros r Hkr Hri.
      destruct (Nat.eq_dec r i) as [->|]; [|apply Hnone; lia].
      destruct (@binary_get n m M i j HM Hbin ltac:(lia) Hj); auto.
      contradiction.
  - intros [M' found] (HM' & Hf & Hnone). simpl in HM', Hf. subst M' found.
    simpl. split; auto. split; [discriminate|]. intros _ r Hkr Hr.
    destruct (Nat.eq_dec r k) as [->|]; auto. apply Hnone; lia.
Qed.

(** Lines 194-196 *)
Lemma row_eliminate_spec k j pivots M :
  j < m -> k < n -> pivots_ok k j pivots -> stable k j pivots M ->
  get M k j = 1%Z ->
  stable k j pivots (row_eliminate n k j M) /\
  get (row_eliminate n k j M) k j = 1%Z /\
  (forall r, k < r -> r < n -> get (row_eliminate n k j M) r j = 0%Z).
Proof.
  intros Hj Hk Hpiv Hst Hone. unfold row_eliminate.
  apply (for_range_ind
    (fun i M' => stable k j pivots M' /\ get M' k j = 1%Z /\
                 forall r, k < r -> r < i -> get M' r j = 0%Z)).
  - lia.
  - split; auto. split; auto. intros; lia.
  - intros i M' Hi (Hst' & Hone' & Hdone).
    pose proof Hst' as (HM' & Hbin' & _).
    destruct (Z.eqb_spec (get M' i j) 1) as [Hi1|Hi0].
    + split; [apply stable_add_row; auto; lia|].
      split.
      * rewrite (get_add_row _ HM') by lia.
        destruct (Nat.eqb_spec i k); [lia|auto].
      * intros r Hkr Hri. rewrite (get_add_row _ HM') by lia.
        destruct (Nat.eqb_spec i r) as [<-|].
        -- rewrite Hi1, Hone'. reflexivity.
        -- apply Hdone; lia.
    + split; auto. split; auto. intros r Hkr Hri.
      destruct (Nat.eq_dec r i) as [->|]; [|apply Hdone; lia].
      destruct (@binary_get n m M' i j HM' Hbin' ltac:(lia) Hj); auto.
      contradiction.
Qed.
Lemma pcol_app_old pivots l r :
  r < length pivots -> pcol (pivots ++ l) r = pcol pivots r.
Proof. intros Hr. unfold pcol. now rewrite app_nth1. Qed.

Lemma nth_app_new (pivots : list pivot) p :
  nth (length pivots) (pivots ++ [p]) (0, 0) = p.
Proof. rewrite app_nth2 by lia. now rewrite Nat.sub_diag. Qed.

(** The invariant of the loop over the columns. *)
Definition rw_inv (j : nat) (s : rw_state) : Prop :=
  rw_k s <= n /\ j <= m /\
  pivots_ok (rw_k s) j (rw_pivots s) /\
  stable (rw_k s) j (rw_pivots s) (rw_M s).

(** Where the loop is left: at the last row or after the last column. *)
Definition rw_done (s : rw_state) : Prop :=
  exists j, rw_inv j s /\ (rw_k s = n \/ j = m).

Lemma row_body_spec j s :
  j < m -> rw_inv j s ->
  if snd (row_body n j s) then rw_done (fst (row_body n j s))
  else rw_inv (S j) (fst (row_body n j s)).
Proof.
  intros Hj Hinv. pose proof Hinv as (Hkn & _ & Hpiv & Hst).
  unfold row_body. destruct (Nat.eqb_spec (rw_k s) n) as [Hk|Hk]; simpl.
  { exists j. split; auto. }
  assert (Hk' : rw_k s < n) by lia.
  pose proof (row_find_pivot_spec Hj Hk' Hpiv Hst) as (Hst' & Hfound & Hnone).
  destruct (row_find_pivot n (rw_k s) j (rw_M s)) as [M' found].
  simpl in Hst', Hfound, Hnone.
  pose proof Hpiv as (Hlen & Hrows & Hinc).
  assert (Hnew : nth (rw_k s) (rw_pivots s ++ [(rw_k s, j)]) (0, 0)
                 = (rw_k s, j))
    by (rewrite <- Hlen at 1; apply nth_app_new).
  destruct found; simpl.
  - pose proof (row_eliminate_spec Hj Hk' Hpiv Hst' (Hfound eq_refl))
      as (Hst2 & Hone & Hbelow).
    destruct Hst2 as (HM2 & Hbin2 & Hspan2 & Hrows2 & Hzero2).
    unfold rw_inv; simpl.
    split; [lia|]. split; [lia|].
    split; [|split; [|split; [|split; [|split]]]]; auto.
    + split; [rewrite length_app; simpl; lia|]. split.
      * intros r Hr. destruct (Nat.eq_dec r (rw_k s)) as [->|Hne].
        -- unfold pcol. rewrite Hnew. simpl. split; [auto|lia].
        -- unfold pcol. rewrite app_nth1 by lia.
           destruct (Hrows r ltac:(lia)) as [Hf Hc].
           split; auto; unfold pcol in Hc; lia.
      * intros r r' Hrr' Hr'. rewrite (@pcol_app_old (rw_pivots s) [(rw_k s, j)] r) by lia.
        destruct (Nat.eq_dec r' (rw_k s)) as [->|Hne].
        -- unfold pcol at 2. rewrite Hnew. simpl.
           destruct (Hrows r ltac:(lia)); auto.
        -- rewrite (@pcol_app_old (rw_pivots s) [(rw_k s, j)] r') by lia. apply Hinc; lia.
    + intros r Hr. destruct (Nat.eq_dec r (rw_k s)) as [->|Hne].
      * assert (Hpc : pcol (rw_pivots s ++ [(rw_k s, j)]) (rw_k s) = j).
        { unfold pcol. now rewrite Hnew. }
        rewrite Hpc. split; [exact Hone|]. split; [exact Hbelow|].
        intros c Hc. apply Hzero2; auto.
      * rewrite (@pcol_app_old (rw_pivots s) [(rw_k s, j)] r) by lia. apply Hrows2. lia.
    + intros r c Hkr Hr Hc. destruct (Nat.eq_dec c j) as [->|Hne].
      * apply Hbelow; lia.
      * apply Hzero2; lia.
  - destruct Hst' as (HM' & Hbin' & Hspan' & Hrows' & Hzero').
    unfold rw_inv; simpl.
    split; [lia|]. split; [lia|].
    split; [|split; [|split; [|split; [|split]]]]; auto.
    + split; auto. split; auto. intros r Hr.
      destruct (Hrows r Hr). split; auto.
    + intros r c Hkr Hr Hc. destruct (Nat.eq_dec c j) as [->|Hne].
      * apply Hnone; auto.
      * apply Hzero'; auto; lia.
Qed.

Lemma row_wise_run_done :
  wf n m A -> binary A -> 0 < n -> rw_done (row_wise_run A).
Proof.
  intros HA Hbin Hn. unfold row_wise_run.
  rewrite (wf_nrows HA), (wf_ncols HA Hn).
  apply (for_range_break_ind rw_inv rw_done).
  - lia.
  - split; [simpl; lia|]. split; [lia|]. split.
    + split; [reflexivity|]. split; intros; simpl in *; lia.
    + simpl. split; auto. split; auto. split; [intros v; reflexivity|].
      split; intros; lia.
  - intros j s Hj Hinv. apply row_body_spec; auto. lia.
  - intros s Hinv. exists m. split; auto.
Qed.

(** The rows with a pivot are a basis of the row space of [A]. *)
Lemma rw_done_rank s : rw_done s -> has_rank n m (get A) (rw_k s).
Proof.
  intros (j & (Hkn & Hjm & (Hlen & Hrows & Hinc) & Hst) & Hend).
  destruct Hst as (HM & Hbin & Hspan & Hpiv & Hzero).
  exists (get (rw_M s)). split.
  - intros x Hx.
    apply (@echelon_coefficients (rw_k s) (get (rw_M s))
             (pcol (rw_pivots s)) x).
    + intros r Hr. destruct (Hpiv r Hr) as (-> & _). reflexivity.
    + intros r r' Hrr' Hr'.
      destruct (Hpiv r ltac:(lia)) as (_ & Hbelow & _).
      rewrite (Hbelow r') by lia. reflexivity.
    + intros r Hr. apply Hx. destruct (Hrows r Hr). lia.
  - intros v. rewrite <- (Hspan v). apply span_zero_tail; auto.
    intros i c Hi Hc. destruct Hend as [Hk|Hj]; [lia|].
    apply Hzero; lia.
Qed.
End RowReduce.

Definition increasing (l : list nat) : Prop :=
  forall i j, i < j -> j < length l -> nth i l 0 < nth j l 0.

Lemma nth_map_fst (l : list pivot) i : nth i (map fst l) 0 = fst (nth i l (0, 0)).
Proof. change 0 with (fst (0, 0)) at 1. apply map_nth. Qed.

Lemma nth_map_snd (l : list pivot) i : nth i (map snd l) 0 = pcol l i.
Proof. unfold pcol. change 0 with (snd (0, 0)) at 1. apply map_nth. Qed.

Lemma row_wise_run_empty : row_wise_run [] = RW [] 0 [].
Proof. reflexivity. Qed.

Lemma has_rank_empty m (F : fmat) : has_rank 0 m F 0.
Proof.
  exists F. split.
  - intros x _ i Hi. lia.
  - intros v. reflexivity.
Qed.

(** C4.  For an n by m binary array [A], the pivots that
    [row_wise_gaussian_elimination_pivots] returns are strictly increasing
    in the row index and in the column index, their number is the rank of
    [A] over GF(2), and [get_rank A] is that number.  The hypothesis
    n <= m of the source's note is not needed. *)
Theorem row_pivots_rank (n m : nat) (A : matrix) :
  wf n m A -> binary A ->
  increasing (map fst (row_wise_gaussian_elimination_pivots A)) /\
  increasing (map snd (row_wise_gaussian_elimination_pivots A)) /\
  has_rank n m (get A) (length (row_wise_gaussian_elimination_pivots A)) /\
  get_rank A = length (row_wise_gaussian_elimination_pivots A).
Proof.
  intros HA Hbin. unfold get_rank, row_wise_gaussian_elimination_pivots.
  destruct (Nat.eq_dec n 0) as [->|Hn].
  - destruct HA as [Hlen _]. apply length_zero_iff_nil in Hlen. subst A.
    rewrite row_wise_run_empty. simpl.
    split; [intros i j Hij Hj; simpl in Hj; lia|].
    split; [intros i j Hij Hj; simpl in Hj; lia|].
    split; [apply has_rank_empty|reflexivity].
  - pose proof (@row_wise_run_done n m A HA Hbin ltac:(lia)) as Hdone.
    pose proof (rw_done_rank Hdone) as Hrank.
    destruct Hdone as (j & (Hkn & Hjm & (Hlen & Hrows & Hinc) & Hst) & Hend).
    split; [|split; [|split]]; auto.
    + intros i i' Hii' Hi'. rewrite length_map in Hi'.
      assert (Hk : i' < rw_k (row_wise_run A)) by (rewrite <- Hlen; exact Hi').
      rewrite !nth_map_fst.
      destruct (Hrows i ltac:(lia)) as [-> _].
      destruct (Hrows i' ltac:(lia)) as [-> _]. exact Hii'.
    + intros i i' Hii' Hi'. rewrite length_map in Hi'.
      assert (Hk : i' < rw_k (row_wise_run A)) by (rewrite <- Hlen; exact Hi').
      rewrite !nth_map_snd. now apply Hinc.
    + now rewrite Hlen.
Qed.

Lemma row_pivots_rank_witness :
  increasing (map fst (row_wise_gaussian_elimination_pivots
                         [[0; 1; 1]; [0; 1; 1]]%Z)) /\
  increasing (map snd (row_wise_gaussian_elimination_pivots
                         [[0; 1; 1]; [0; 1; 1]]%Z)) /\
  has_rank 2 3 (get [[0; 1; 1]; [0; 1; 1]]%Z)
    (length (row_wise_gaussian_elimination_pivots [[0; 1; 1]; [0; 1; 1]]%Z)) /\
  get_rank [[0; 1; 1]; [0; 1; 1]]%Z
  = length (row_wise_gaussian_elimination_pivots [[0; 1; 1]; [0; 1; 1]]%Z).
Proof.
  apply (@row_pivots_rank 2 3 [[0; 1; 1]; [0; 1; 1]]%Z).
  - split; [reflexivity|]. repeat constructor.
  - repeat (first [apply Forall_nil | apply Forall_cons]); auto.
Defined.

(** ** Column reduction *)

(** Step [(s, t)] adds column [s] into column [t] modulo 2. *)
Definition apply_step (M : matrix) (p : step) : matrix :=
  add_col M (snd p) (fst p).

Definition apply_steps (A : matrix) (steps : list step) : matrix :=
  fold_left apply_step steps A.

Lemma apply_steps_snoc A steps p :
  apply_steps A (steps ++ [p]) = apply_step (apply_steps A steps) p.
Proof. unfold apply_steps. now rewrite fold_left_app. Qed.

Lemma add_col_col_added n m M t s :
  wf n m M -> t < m -> s < m -> t <> s ->
  col_added n m t s (get M) (get (add_col M t s)).
Proof.
  intros HM Ht Hs Hts. repeat split; auto.
  - intros r Hr. rewrite (get_add_col _ _ HM Hr Ht), Nat.eqb_refl.
    apply eqm2_mod.
  - intros r j Hr Hj Hjt. rewrite (get_add_col _ _ HM Hr Ht).
    destruct (Nat.eqb_spec t j); [lia|reflexivity].
Qed.

Lemma binary_add_col n m M t s :
  wf n m M -> binary M -> t < m -> binary (add_col M t s).
Proof.
  intros HM Hbin Ht. apply (@binary_of_get n m).
  - now apply wf_add_col.
  - intros r c Hr Hc. rewrite (get_add_col _ _ HM Hr Ht).
    destruct (Nat.eqb t c); [apply mod2_bit|now apply (binary_get HM)].
Qed.

Section ColReduce.
Variables (n : nat) (A : matrix).

(** The array is what the recorded steps make of [A]. *)
Definition replayed (st : matrix * list step) : Prop :=
  fst st = apply_steps A (snd st).

Lemma col_clear_replayed i j st : replayed st -> replayed (col_clear i j st).
Proof.
  destruct st as [M steps]. unfold replayed, col_clear; simpl. intros ->.
  destruct (get _ i j =? 1)%Z; simpl; auto.
  now rewrite apply_steps_snoc.
Qed.

Lemma col_fix_pivot_replayed i st :
  replayed st -> replayed (col_fix_pivot i n st).
Proof.
  intros Hst. destruct st as [M steps]. unfold col_fix_pivot.
  destruct (negb (get M i i =? 1)%Z); auto.
  apply for_each_break_keeps; auto.
  intros j [M' steps'] _. unfold replayed; simpl. intros ->.
  destruct (get _ i j =? 1)%Z; simpl; auto.
  now rewrite apply_steps_snoc.
Qed.

Lemma col_wise_run_replayed : replayed (col_upper n (col_lower n (A, []))).
Proof.
  unfold col_upper, col_lower.
  apply for_each_keeps.
  - apply for_each_keeps; [reflexivity|].
    intros i st _ Hst. apply for_each_keeps.
    + now apply col_fix_pivot_replayed.
    + intros j st' _ Hst'. now apply col_clear_replayed.
  - intros i st _ Hst. apply for_each_keeps; auto.
    intros j st' _ Hst'. now apply col_clear_replayed.
Qed.

(** Rows before [i] are those of a unit lower triangular array. *)
Definition lower_upto (i : nat) (M : matrix) : Prop :=
  wf n n M /\ binary M /\ indep n n (get M) /\
  forall r, r < i ->
    get M r r = 1%Z /\ forall c, r < c -> c < n -> get M r c = 0%Z.

(** A row that is zero from the diagonal on cannot follow [i] triangular
    rows: these [i + 1] rows would live on [i] coordinates. *)
Lemma pivot_exists i M :
  lower_upto i M -> i < n ->
  (forall c, i <= c -> c < n -> get M i c = 0%Z) -> False.
Proof.
  intros (HM & Hbin & Hind & Hrows) Hi Hrow.
  destruct (@dependent_of_wide i (S i) (get M) ltac:(lia))
    as (x & (i0 & Hi0 & Hodd) & Hzero).
  set (x' := fun r => if Nat.ltb r (S i) then x r else 0%Z).
  assert (Htriv : trivial n x').
  { apply Hind. intros j Hj.
    assert (Hcut : comb n x' (get M) j = comb (S i) x (get M) j).
    { rewrite (@comb_zero_tail (S i) n) by
        (try lia; intros r Hr; unfold x';
         destruct (Nat.ltb_spec r (S i)); lia).
      unfold comb. apply sumZ_ext. intros r Hr. unfold x'.
      destruct (Nat.ltb_spec r (S i)); [reflexivity|lia]. }
    rewrite Hcut. destruct (Nat.lt_ge_cases j i) as [Hlt|Hge].
    - now apply Hzero.
    - unfold comb. rewrite sumZ_zero; [reflexivity|]. intros r Hr.
      destruct (Nat.eq_dec r i) as [->|Hne].
      + rewrite Hrow by lia. lia.
      + destruct (Hrows r ltac:(lia)) as [_ Hz]. rewrite Hz by lia. lia. }
  apply (@trivial_not_odd n x' i0); auto; try lia.
  unfold x'. destruct (Nat.ltb_spec i0 (S i)); [exact Hodd|lia].
Qed.

Lemma lower_upto_add_col i M t s :
  lower_upto i M -> i <= t -> t < n -> i <= s -> s < n -> t <> s ->
  lower_upto i (add_col M t s).
Proof.
  intros (HM & Hbin & Hind & Hrows) Hit Ht His Hs Hts.
  split; [now apply wf_add_col|].
  split; [now apply (binary_add_col _ HM)|].
  split; [apply (col_added_indep (add_col_col_added HM Ht Hs Hts) Hind)|].
  intros r Hr. destruct (Hrows r Hr) as [Hone Hz]. split.
  - rewrite (get_add_col _ _ HM) by lia.
    destruct (Nat.eqb_spec t r); [lia|auto].
  - intros c Hrc Hc. rewrite (get_add_col _ _ HM) by lia.
    destruct (Nat.eqb_spec t c) as [<-|]; auto.
    rewrite (Hz t), (Hz s) by lia. reflexivity.
Qed.

(** Lines 89-94 *)
Lemma col_fix_pivot_spec i M steps :
  lower_upto i M -> i < n ->
  lower_upto i (fst (col_fix_pivot i n (M, steps))) /\
  get (fst (col_fix_pivot i n (M, steps))) i i = 1%Z.
Proof.
  intros Hlow Hi. pose proof Hlow as (HM & Hbin & _).
  unfold col_fix_pivot.
  destruct (Z.eqb_spec (get M i i) 1) as [Hone|Hnot]; simpl; auto.
  assert (Hii : get M i i = 0%Z)
    by (destruct (binary_get HM Hbin Hi Hi); auto; contradiction).
  apply (for_range_break_ind
    (fun j (st : matrix * list step) =>
       fst st = M /\ forall c, i < c -> c < j -> get M i c = 0%Z)
    (fun st : matrix * list step =>
       lower_upto i (fst st) /\ get (fst st) i i = 1%Z)).
  - lia.
  - simpl. split; auto. intros; lia.
  - intros j [M' steps'] Hj (HM' & Hnone). simpl in HM'. subst M'.
    destruct (Z.eqb_spec (get M i j) 1) as [Hone|Hnot']; simpl.
    + split; [apply lower_upto_add_col; auto; lia|].
      rewrite (get_add_col _ _ HM) by lia.
      rewrite Nat.eqb_refl, Hii, Hone. reflexivity.
    + split; auto. intros c Hic Hcj.
      destruct (Nat.eq_dec c j) as [->|]; [|apply Hnone; lia].
      destruct (@binary_get n n M i j HM Hbin Hi ltac:(lia)); auto.
      contradiction.
  - intros [M' steps'] (HM' & Hnone). simpl in HM'. subst M'. exfalso.
    apply (@pivot_exists i M Hlow Hi). intros c Hic Hc.
    destruct (Nat.eq_dec c i) as [->|]; auto. apply Hnone; lia.
Qed.

(** Lines 97-100 *)
Lemma col_clear_right_spec i st :
  lower_upto i (fst st) -> i < n -> get (fst st) i i = 1%Z ->
  lower_upto (S i) (fst (for_each (range (i + 1) n) (col_clear i) st)).
Proof.
  intros Hlow Hi Hone.
  assert (Hloop :
    let st' := for_each (range (i + 1) n) (col_clear i) st in
    lower_upto i (fst st') /\ get (fst st') i i = 1%Z /\
    forall c, i < c -> c < n -> get (fst st') i c = 0%Z).
  { apply (for_range_ind
      (fun j (st' : matrix * list step) =>
         lower_upto i (fst st') /\ get (fst st') i i = 1%Z /\
         forall c, i < c -> c < j -> get (fst st') i c = 0%Z)).
    - lia.
    - split; auto. split; auto. intros; lia.
    - intros j [M' steps'] Hj (Hlow' & Hone' & Hdone). simpl in *.
      pose proof Hlow' as (HM' & Hbin' & _).
      unfold col_clear.
      destruct (Z.eqb_spec (get M' i j) 1) as [Hj1|Hj0]; simpl.
      + split; [apply lower_upto_add_col; auto; lia|]. split.
        * rewrite (get_add_col _ _ HM') by lia.
          destruct (Nat.eqb_spec j i); [lia|auto].
        * intros c Hic Hcj. rewrite (get_add_col _ _ HM') by lia.
          destruct (Nat.eqb_spec j c) as [<-|].
          -- rewrite Hj1, Hone'. reflexivity.
          -- apply Hdone; lia.
      + split; auto. split; auto. intros c Hic Hcj.
        destruct (Nat.eq_dec c j) as [->|]; [|apply Hdone; lia].
        destruct (@binary_get n n M' i j HM' Hbin' Hi ltac:(lia)); auto.
        contradiction. }
  simpl in Hloop. destruct Hloop as ((HM' & Hbin' & Hind' & Hrows') & Hone' & Hz').
  split; auto. split; auto. split; auto.
  intros r Hr. destruct (Nat.eq_dec r i) as [->|Hne].
  - split; auto.
  - apply Hrows'. lia.
Qed.

Lemma col_lower_spec :
  wf n n A -> binary A -> indep n n (get A) ->
  lower_upto n (fst (col_lower n (A, []))).
Proof.
  intros HA Hbin Hind. unfold col_lower.
  apply (for_range_ind (fun i (st : matrix * list step) =>
                          lower_upto i (fst st))).
  - lia.
  - simpl. split; auto. split; auto. split; auto. intros; lia.
  - intros i [M steps] Hi Hlow. simpl in Hlow.
    destruct (@col_fix_pivot_spec i M steps Hlow ltac:(lia)) as [Hlow' Hone].
    apply col_clear_right_spec; auto. lia.
Qed.
End ColReduce.

Section ColUpper.
Variable n : nat.

(** A unit lower triangular array whose rows from [i] on are those of
    the identity. *)
Definition upper_done (i : nat) (M : matrix) : Prop :=
  wf n n M /\ binary M /\
  (forall r, r < n -> get M r r = 1%Z) /\
  (forall r c, r < c -> c < n -> get M r c = 0%Z) /\
  (forall r c, i <= r -> r < n -> c < r -> get M r c = 0%Z).

Lemma lower_upto_upper_done M : lower_upto n n M -> upper_done n M.
Proof.
  intros (HM & Hbin & _ & Hrows). split; auto. split; auto.
  split; [|split].
  - intros r Hr. now apply Hrows.
  - intros r c Hrc Hc. destruct (Hrows r ltac:(lia)) as [_ Hz]. now apply Hz.
  - intros; lia.
Qed.

(** Column [i] of such an array is the unit column, so adding it into
    column [j < i] changes row [i] only. *)
Lemma upper_done_add_col i j M :
  upper_done (S i) M -> j < i -> i < n ->
  upper_done (S i) (add_col M j i) /\
  get (add_col M j i) i j = ((get M i j + 1) mod 2)%Z /\
  (forall c, c <> j -> c < n -> get (add_col M j i) i c = get M i c).
Proof.
  intros (HM & Hbin & Hdiag & Hup & Hlow) Hji Hi.
  assert (Hcol : forall r, r < n -> r <> i -> get M r i = 0%Z).
  { intros r Hr Hri. destruct (Nat.lt_ge_cases r i).
    - apply Hup; lia.
    - apply Hlow; lia. }
  assert (Hget : forall r c, r < n ->
            get (add_col M j i) r c =
            if Nat.eqb j c then ((get M r j + get M r i) mod 2)%Z
            else get M r c)
    by (intros; apply (get_add_col _ _ HM); lia).
  assert (Hkeep : forall r, r < n -> r <> i ->
            ((get M r j + get M r i) mod 2)%Z = get M r j).
  { intros r Hr Hri. rewrite (Hcol r Hr Hri), Z.add_0_r.
    apply bit_mod2. apply (binary_get HM Hbin); lia. }
  split; [|split].
  - split; [now apply wf_add_col|].
    split; [apply (binary_add_col _ HM Hbin); lia|].
    split; [|split].
    + intros r Hr. rewrite Hget by auto.
      destruct (Nat.eqb_spec j r) as [<-|]; auto.
      rewrite Hkeep by lia. apply Hdiag; lia.
    + intros r c Hrc Hc. rewrite Hget by lia.
      destruct (Nat.eqb_spec j c) as [<-|]; [|now apply Hup].
      rewrite Hkeep by lia. apply Hup; lia.
    + intros r c Hir Hr Hcr. rewrite Hget by lia.
      destruct (Nat.eqb_spec j c) as [<-|]; [|now apply Hlow].
      rewrite Hkeep by lia. apply Hlow; lia.
  - rewrite Hget, Nat.eqb_refl, (Hdiag i) by lia. reflexivity.
  - intros c Hcj Hc. rewrite Hget by lia.
    destruct (Nat.eqb_spec j c); [lia|reflexivity].
Qed.

(** Lines 106-109 *)
Lemma col_clear_left_spec i st :
  upper_done (S i) (fst st) -> i < n ->
  upper_done i (fst (for_each (range_down i) (col_clear i) st)).
Proof.
  intros Hup Hi.
  assert (Hloop :
    let st' := for_each (range_down i) (col_clear i) st in
    upper_done (S i) (fst st') /\
    forall c, 0 <= c -> c < i -> get (fst st') i c = 0%Z).
  { apply (for_down_ind
      (fun j (st' : matrix * list step) =>
         upper_done (S i) (fst st') /\
         forall c, j <= c -> c < i -> get (fst st') i c = 0%Z)).
    - split; auto. intros; lia.
    - intros j [M steps] Hj (Hup' & Hdone). simpl in *.
      pose proof Hup' as (HM & Hbin & _).
      unfold col_clear.
      destruct (Z.eqb_spec (get M i j) 1) as [Hj1|Hj0]; simpl.
      + destruct (@upper_done_add_col i j M Hup' Hj Hi) as (Hup2 & Hnew & Hold).
        split; auto. intros c Hjc Hci.
        destruct (Nat.eq_dec c j) as [->|Hne].
        * rewrite Hnew, Hj1. reflexivity.
        * rewrite Hold by lia. apply Hdone; lia.
      + split; auto. intros c Hjc Hci.
        destruct (Nat.eq_dec c j) as [->|Hne]; [|apply Hdone; lia].
        destruct (@binary_get n n M i j HM Hbin Hi ltac:(lia)); auto.
        contradiction. }
  simpl in Hloop. destruct Hloop as ((HM & Hbin & Hdiag & Hupper & Hlow) & Hrow).
  split; auto. split; auto. split; auto. split; auto.
  intros r c Hir Hr Hcr. destruct (Nat.eq_dec r i) as [->|Hne].
  - apply Hrow; lia.
  - apply Hlow; lia.
Qed.

Lemma col_upper_spec st :
  upper_done n (fst st) -> fst (col_upper n st) = identity n.
Proof.
  intros Hup.
  assert (Hend : upper_done 0 (fst (col_upper n st))).
  { unfold col_upper.
    apply (for_down_ind (fun i (st' : matrix * list step) =>
                           upper_done i (fst st'))); auto.
    intros i st' Hi Hup'. now apply col_clear_left_spec. }
  destruct Hend as (HM & Hbin & Hdiag & Hupper & Hlow).
  apply (matrix_ext HM (wf_identity n)). intros r c Hr Hc.
  rewrite get_identity by auto.
  destruct (Nat.eqb_spec r c) as [->|Hne]; [now apply Hdiag|].
  destruct (Nat.lt_ge_cases r c).
  - now apply Hupper.
  - apply Hlow; lia.
Qed.
End ColUpper.

(** C2.  For a square binary array [A] of full rank, applying the steps
    that [col_wise_gaussian_elimination_steps A] returns, in order, each
    step (s, t) adding column s into column t modulo 2, turns [A] into the
    identity. *)
Theorem col_steps_reach_identity (n : nat) (A : matrix) :
  wf n n A -> binary A -> has_rank n n (get A) n ->
  apply_steps A (col_wise_gaussian_elimination_steps A) = identity n.
Proof.
  intros HA Hbin Hrank.
  pose proof (full_rank_indep Hrank) as Hind.
  unfold col_wise_gaussian_elimination_steps, col_wise_run.
  rewrite (wf_nrows HA).
  rewrite <- (@col_wise_run_replayed n A).
  apply col_upper_spec. apply lower_upto_upper_done.
  now apply col_lower_spec.
Qed.

Lemma indep_swap2 : indep 2 2 (get [[0; 1]; [1; 1]]%Z).
Proof.
  intros x Hzero.
  pose proof (Hzero 0 ltac:(lia)) as H0. pose proof (Hzero 1 ltac:(lia)) as H1.
  unfold comb, eqm2, get in H0, H1. simpl in H0, H1.
  intros [|[|i]] Hi; try lia; unfold eqm2; Z.div_mod_to_equations; lia.
Qed.

Lemma col_steps_reach_identity_witness :
  apply_steps [[0; 1]; [1; 1]]%Z
    (col_wise_gaussian_elimination_steps [[0; 1]; [1; 1]]%Z)
  = identity 2.
Proof.
  apply (@col_steps_reach_identity 2 [[0; 1]; [1; 1]]%Z).
  - split; [reflexivity|]. repeat constructor.
  - repeat (first [apply Forall_nil | apply Forall_cons]); auto.
  - apply indep_has_rank. apply indep_swap2.
Defined.

(** ** Hadamard selection *)

(** Replacing column [i] of [c] by column [i] of [d], and so for every
    index of a list. *)
Definition replace_col (c d : matrix) (i : nat) : matrix :=
  map (fun p => upd (fst p) i (nth i (snd p) 0%Z)) (combine c d).

Definition replace_cols (c d : matrix) (idx : list nat) : matrix :=
  fold_left (fun c' i => replace_col c' d i) idx c.

(** The rows of [c | d] commute for the symplectic product: c d^T + d c^T
    vanishes modulo 2, as it does for the stabilizer rows of a tableau. *)
Definition commuting (n : nat) (c d : matrix) : Prop :=
  forall p q, p < n -> q < n ->
    eqm2 (sumZ n (fun i => get c p i * get d q i + get d p i * get c q i)%Z) 0.

Lemma nth_replace_col_row (c d : matrix) i r n :
  length c = n -> length d = n -> r < n ->
  nth r (replace_col c d i) [] = upd (nth r c []) i (nth i (nth r d []) 0%Z).
Proof.
  unfold replace_col. revert d r n.
  induction c as [|x c IH]; intros [|y d] [|r] n Hc Hd Hr; simpl in *;
    try lia; auto.
  apply (IH d r (length c)); lia.
Qed.

Lemma wf_replace_col n m c d i :
  wf n m c -> wf n m d -> wf n m (replace_col c d i).
Proof.
  intros Hc Hd.
  assert (Hlen : length (replace_col c d i) = n).
  { unfold replace_col. rewrite length_map, length_combine.
    destruct Hc, Hd; lia. }
  split; auto. apply Forall_forall. intros x Hx.
  destruct (In_nth _ _ [] Hx) as (r & Hr & <-). rewrite Hlen in Hr.
  rewrite (@nth_replace_col_row c d i r n) by (destruct Hc, Hd; auto).
  rewrite length_upd. now apply (wf_row Hc).
Qed.

Lemma get_replace_col n m c d i r j :
  wf n m c -> wf n m d -> r < n -> i < m ->
  get (replace_col c d i) r j = if Nat.eqb i j then get d r i else get c r j.
Proof.
  intros Hc Hd Hr Hi. unfold get.
  rewrite (@nth_replace_col_row c d i r n) by (destruct Hc, Hd; auto).
  now rewrite nth_upd by now rewrite (wf_row Hc Hr).
Qed.

Lemma get_replace_cols n m d idx : forall c r j,
  wf n m c -> wf n m d -> Forall (fun i => i < m) idx -> r < n -> j < m ->
  get (replace_cols c d idx) r j
  = if existsb (Nat.eqb j) idx then get d r j else get c r j.
Proof.
  induction idx as [|i idx IH]; intros c r j Hc Hd Hidx Hr Hj; simpl; auto.
  inversion Hidx as [|i' idx' Hi Hidx']; subst.
  rewrite IH; auto; [|now apply wf_replace_col].
  rewrite (get_replace_col _ Hc Hd Hr Hi).
  rewrite (Nat.eqb_sym j i).
  destruct (Nat.eqb_spec i j) as [->|Hne]; simpl.
  - now destruct (existsb (Nat.eqb j) idx).
  - reflexivity.
Qed.

Section Selection.
Variables (n : nat) (c d M : matrix) (pc : nat -> nat) (T : list nat)
          (C' : fmat).

(** [M] is an echelon form of [c | d] with [n] pivots, at columns [pc];
    [T] holds the pivot columns of the right half, counted from [n]; [C']
    is [c] with the columns of [T] taken from [d]. *)
Hypothesis HM : wf n (n + n) M.
Hypothesis Hspan : same_span n n (n + n) (get M) (get (hstack c d)).
Hypothesis Hinc : forall r r', r < r' -> r' < n -> pc r < pc r'.
Hypothesis Hpc : forall r, r < n -> pc r < n + n.
Hypothesis Hone : forall r, r < n -> get M r (pc r) = 1%Z.
Hypothesis Hbelow : forall r r', r < r' -> r' < n -> get M r' (pc r) = 0%Z.
Hypothesis Hlead : forall r col, r < n -> col < pc r -> get M r col = 0%Z.
Hypothesis HT : forall i, In i T <-> exists r, r < n /\ pc r = n + i.
Hypothesis HCin :
  forall r i, r < n -> i < n -> In i T -> C' r i = get (hstack c d) r (n + i).
Hypothesis HCout :
  forall r i, r < n -> i < n -> ~ In i T -> C' r i = get (hstack c d) r i.
Hypothesis Hind : indep n (n + n) (get (hstack c d)).
Hypothesis Hiso :
  forall p q, p < n -> q < n ->
    eqm2 (omega n (get (hstack c d) p) (get (hstack c d) q)) 0.

Lemma selection_indep : indep n n C'.
Proof.
  intros x Hx. set (w := comb n x (get (hstack c d))).
  assert (Hout : forall i, i < n -> ~ In i T -> eqm2 (w i) 0).
  { intros i Hi Hni. rewrite <- (Hx i Hi). unfold w.
    apply comb_eqm2; [reflexivity|]. intros r Hr.
    rewrite HCout by auto. reflexivity. }
  assert (Hin : forall i, i < n -> In i T -> eqm2 (w (n + i)) 0).
  { intros i Hi Hni. rewrite <- (Hx i Hi). unfold w, comb.
    apply eqm2_sumZ. intros r Hr.
    rewrite HCin by auto. reflexivity. }
  assert (Hw : in_span n (n + n) (get (hstack c d)) w)
    by (exists x; intros; reflexivity).
  assert (Horth : forall r, r < n -> eqm2 (omega n w (get M r)) 0).
  { intros r Hr. apply (@omega_span n n (get (hstack c d))); auto.
    apply Hspan. now apply in_span_row. }
  (* the left half of [w] vanishes, last pivot first *)
  assert (Hdown : forall b r, n - b <= r -> r < n ->
            forall i, i < n -> pc r = n + i -> eqm2 (w i) 0).
  { induction b as [|b IH]; intros r Hbr Hr i Hi Hpci; [lia|].
    destruct (Nat.le_gt_cases (n - b) r) as [Hle|Hgt];
      [apply IH with (r := r); auto|].
    rewrite <- (Horth r Hr). symmetry. unfold omega.
    transitivity (sumZ n (fun i' => if Nat.eqb i' i then w i else 0%Z)).
    - apply eqm2_sumZ. intros i' Hi'.
      rewrite (@Hlead r i') by lia. rewrite Z.mul_0_r, Z.add_0_r.
      destruct (Nat.eqb_spec i' i) as [->|Hne].
      + rewrite <- Hpci, Hone by auto. now rewrite Z.mul_1_r.
      + destruct (Nat.lt_ge_cases i' i) as [Hlt|Hge].
        * rewrite (@Hlead r (n + i')) by lia. now rewrite Z.mul_0_r.
        * assert (Hwi : eqm2 (w i') 0).
          { destruct (in_dec Nat.eq_dec i' T) as [Hyes|Hno];
              [|now apply Hout].
            apply HT in Hyes. destruct Hyes as (r' & Hr' & Hpc').
            apply IH with (r := r'); auto.
            destruct (Nat.le_gt_cases r' r) as [Hle'|]; [|lia].
            destruct (Nat.eq_dec r' r) as [->|Hne']; [lia|].
            pose proof (@Hinc r' r ltac:(lia) Hr). lia. }
          rewrite Hwi. now rewrite Z.mul_0_l.
    - rewrite (@sumZ_single n i (fun i' => if Nat.eqb i' i then w i else 0%Z))
        by (auto; intros i' Hi' Hne; destruct (Nat.eqb_spec i' i); lia).
      rewrite Nat.eqb_refl. reflexivity. }
  assert (Hleft : forall i, i < n -> eqm2 (w i) 0).
  { intros i Hi. destruct (in_dec Nat.eq_dec i T) as [Hyes|Hno];
      [|now apply Hout].
    apply HT in Hyes. destruct Hyes as (r & Hr & Hpcr).
    apply Hdown with (b := n) (r := r); auto; lia. }
  assert (Hcols : forall r, r < n -> eqm2 (w (pc r)) 0).
  { intros r Hr. destruct (Nat.lt_ge_cases (pc r) n) as [Hlt|Hge].
    - now apply Hleft.
    - replace (pc r) with (n + (pc r - n)) by lia.
      pose proof (@Hpc r Hr). apply Hin; [lia|].
      apply HT. exists r. split; auto. lia. }
  destruct (proj2 (Hspan w) Hw) as [y Hy].
  assert (Hy0 : trivial n y).
  { apply (@echelon_coefficients n (get M) pc y).
    - intros r Hr. rewrite Hone by auto. reflexivity.
    - intros r r' Hrr' Hr'. rewrite Hbelow by auto. reflexivity.
    - intros r Hr. rewrite (Hy (pc r)) by auto. now apply Hcols. }
  apply Hind. intros j Hj. fold w. rewrite <- (Hy j Hj).
  now apply comb_trivial.
Qed.
End Selection.

Lemma in_hadamard_steps (pivots : list pivot) n i :
  In i (map (fun p => snd p - n) (filter (fun p => Nat.leb n (snd p)) pivots))
  <-> exists r, r < length pivots /\ pcol pivots r = n + i.
Proof.
  rewrite in_map_iff. split.
  - intros (p & Hi & Hp). apply filter_In in Hp. destruct Hp as [Hp Hle].
    apply Nat.leb_le in Hle.
    destruct (In_nth _ _ (0, 0) Hp) as (r & Hr & Hnth).
    exists r. split; auto. unfold pcol.
    replace (nth r pivots (0, 0)) with p by (symmetry; exact Hnth). lia.
  - intros (r & Hr & Hpc). exists (nth r pivots (0, 0)). unfold pcol in Hpc.
    split; [lia|]. apply filter_In. split.
    + now apply nth_In.
    + apply Nat.leb_le. lia.
Qed.

Lemma binary_hstack n m1 m2 a b :
  wf n m1 a -> wf n m2 b -> binary a -> binary b -> binary (hstack a b).
Proof.
  intros Ha Hb Hba Hbb. apply (binary_of_get (wf_hstack Ha Hb)).
  intros i j Hi Hj. rewrite (get_hstack _ Ha Hb Hi).
  destruct (Nat.ltb_spec j m1).
  - now apply (binary_get Ha).
  - apply (binary_get Hb); auto. lia.
Qed.

(** C5 as stated: whenever [c | d] has rank n, exchanging the selected
    columns makes [c] full rank.  With c = [[1,0],[0,0]] and
    d = [[0,0],[1,0]] the rows X and Z of one qubit do not commute: the
    selection is [0] and the result [[0,0],[1,0]] has rank 1. *)
Lemma hadamard_selection_counterexample :
  ~ (forall (n : nat) (c d : matrix),
       wf n n c -> wf n n d -> binary c -> binary d ->
       has_rank n (2 * n) (get (hstack c d)) n ->
       has_rank n n (get (replace_cols c d (get_hadamard_steps c d))) n).
Proof.
  intros Hclaim.
  specialize (Hclaim 2 [[1; 0]; [0; 0]]%Z [[0; 0]; [1; 0]]%Z).
  assert (Hrank : has_rank 2 2
            (get (replace_cols [[1; 0]; [0; 0]]%Z [[0; 0]; [1; 0]]%Z
                    (get_hadamard_steps [[1; 0]; [0; 0]]%Z [[0; 0]; [1; 0]]%Z)))
            2).
  { apply Hclaim.
    - split; [reflexivity|]. repeat constructor.
    - split; [reflexivity|]. repeat constructor.
    - repeat (first [apply Forall_nil | apply Forall_cons]); auto.
    - repeat (first [apply Forall_nil | apply Forall_cons]); auto.
    - apply indep_has_rank. intros x Hzero.
      pose proof (Hzero 0 ltac:(lia)) as H0.
      pose proof (Hzero 2 ltac:(lia)) as H2.
      unfold comb, eqm2, get in H0, H2. simpl in H0, H2.
      intros [|[|i]] Hi; try lia; unfold eqm2; Z.div_mod_to_equations; lia. }
  apply full_rank_indep in Hrank.
  specialize (Hrank (fun i => if Nat.eqb i 0 then 1%Z else 0%Z)).
  assert (Hzero : zero_comb 2 2 (fun i => if Nat.eqb i 0 then 1%Z else 0%Z)
            (get (replace_cols [[1; 0]; [0; 0]]%Z [[0; 0]; [1; 0]]%Z
                    (get_hadamard_steps [[1; 0]; [0; 0]]%Z
                                        [[0; 0]; [1; 0]]%Z)))).
  { intros [|[|j]] Hj; try lia; reflexivity. }
  specialize (Hrank Hzero 0 ltac:(lia)). simpl in Hrank.
  now apply eqm2_0_1.
Qed.

(** C5, amended.  For n by n binary arrays [c] and [d] whose
    concatenation [c | d] has rank n over GF(2) and whose rows commute for
    the symplectic product (c d^T + d c^T = 0 modulo 2),
    [get_hadamard_steps c d] returns the indices j - n of the pivots found
    in the right half, and replacing column i of [c] by column i of [d]
    for each returned i gives an array of full rank. *)
Theorem hadamard_steps_full_rank (n : nat) (c d : matrix) :
  wf n n c -> wf n n d -> binary c -> binary d ->
  has_rank n (2 * n) (get (hstack c d)) n ->
  commuting n c d ->
  get_hadamard_steps c d
  = map (fun p => snd p - n)
        (filter (fun p => Nat.leb n (snd p))
                (row_wise_gaussian_elimination_pivots (hstack c d))) /\
  has_rank n n (get (replace_cols c d (get_hadamard_steps c d))) n.
Proof.
  intros Hc Hd Hbc Hbd Hrank Hcomm.
  replace (2 * n) with (n + n) in Hrank by lia.
  pose proof (wf_hstack Hc Hd) as HA.
  pose proof (binary_hstack Hc Hd Hbc Hbd) as HbA.
  assert (Hsteps : get_hadamard_steps c d
            = map (fun p => snd p - n)
                  (filter (fun p => Nat.leb n (snd p))
                     (row_wise_gaussian_elimination_pivots (hstack c d)))).
  { unfold get_hadamard_steps. now rewrite (wf_nrows HA). }
  split; [exact Hsteps|].
  destruct (Nat.eq_dec n 0) as [->|Hn]; [apply has_rank_empty|].
  pose proof (@row_wise_run_done n (n + n) (hstack c d) HA HbA ltac:(lia))
    as Hdone.
  pose proof (rank_unique (rw_done_rank Hdone) Hrank) as Hk.
  destruct Hdone as (j & (Hkn & Hjm & (Hlen & Hrows & Hinc) & Hst) & Hend).
  destruct Hst as (HM & HbM & Hspan & Hpiv & Hzero).
  rewrite Hk in *.
  assert (HT : forall i, In i (get_hadamard_steps c d) <->
                 exists r, r < n /\ pcol (rw_pivots (row_wise_run (hstack c d))) r
                                    = n + i).
  { intros i. rewrite Hsteps.
    unfold row_wise_gaussian_elimination_pivots.
    rewrite in_hadamard_steps. split; intros (r & Hr & Hpc); exists r;
      (split; [|exact Hpc]).
    - rewrite <- Hlen. exact Hr.
    - rewrite <- Hlen in Hr. exact Hr. }
  assert (Hlt : Forall (fun i => i < n) (get_hadamard_steps c d)).
  { apply Forall_forall. intros i Hi. apply HT in Hi.
    destruct Hi as (r & Hr & Hpc). destruct (Hrows r Hr). lia. }
  assert (Hmem : forall i, existsb (Nat.eqb i) (get_hadamard_steps c d) = true
                           <-> In i (get_hadamard_steps c d)).
  { intros i. rewrite existsb_exists. split.
    - intros (y & Hy & Heq). apply Nat.eqb_eq in Heq. now subst.
    - intros Hi. exists i. split; auto. apply Nat.eqb_refl. }
  apply indep_has_rank.
  apply (@selection_indep n c d (rw_M (row_wise_run (hstack c d)))
           (pcol (rw_pivots (row_wise_run (hstack c d))))
           (get_hadamard_steps c d)); auto.
  - intros r Hr. destruct (Hrows r Hr). lia.
  - intros r Hr. now apply Hpiv.
  - intros r r' Hrr' Hr'. destruct (Hpiv r ltac:(lia)) as (_ & Hb & _).
    now apply Hb.
  - intros r col Hr Hcol. destruct (Hpiv r Hr) as (_ & _ & Hl). now apply Hl.
  - intros r i Hr Hi Hin.
    rewrite (get_replace_cols Hc Hd Hlt Hr Hi).
    rewrite (proj2 (Hmem i) Hin).
    rewrite (get_hstack _ Hc Hd Hr).
    destruct (Nat.ltb_spec (n + i) n); [lia|]. f_equal. lia.
  - intros r i Hr Hi Hnin.
    rewrite (get_replace_cols Hc Hd Hlt Hr Hi).
    destruct (existsb (Nat.eqb i) (get_hadamard_steps c d)) eqn:He.
    + apply Hmem in He. contradiction.
    + rewrite (get_hstack _ Hc Hd Hr).
      destruct (Nat.ltb_spec i n); [reflexivity|lia].
  - now apply full_rank_indep.
  - intros p q Hp Hq. rewrite <- (Hcomm p q Hp Hq). unfold omega.
    apply eqm2_sumZ. intros i Hi.
    rewrite !(get_hstack _ Hc Hd) by auto.
    destruct (Nat.ltb_spec i n); [|lia].
    destruct (Nat.ltb_spec (n + i) n); [lia|].
    replace (n + i - n) with i by lia. reflexivity.
Qed.

Lemma hadamard_steps_full_rank_witness :
  get_hadamard_steps [[1; 1]; [0; 0]]%Z [[0; 0]; [1; 1]]%Z
  = map (fun p => snd p - 2)
        (filter (fun p => Nat.leb 2 (snd p))
                (row_wise_gaussian_elimination_pivots
                   (hstack [[1; 1]; [0; 0]]%Z [[0; 0]; [1; 1]]%Z))) /\
  has_rank 2 2
    (get (replace_cols [[1; 1]; [0; 0]]%Z [[0; 0]; [1; 1]]%Z
            (get_hadamard_steps [[1; 1]; [0; 0]]%Z [[0; 0]; [1; 1]]%Z))) 2.
Proof.
  apply (@hadamard_steps_full_rank 2 [[1; 1]; [0; 0]]%Z [[0; 0]; [1; 1]]%Z).
  - split; [reflexivity|]. repeat constructor.
  - split; [reflexivity|]. repeat constructor.
  - repeat (first [apply Forall_nil | apply Forall_cons]); auto.
  - repeat (first [apply Forall_nil | apply Forall_cons]); auto.
  - apply indep_has_rank. intros x Hzero.
    pose proof (Hzero 0 ltac:(lia)) as H0.
    pose proof (Hzero 2 ltac:(lia)) as H2.
    unfold comb, eqm2, get in H0, H2. simpl in H0, H2.
    intros [|[|i]] Hi; try lia; unfold eqm2; Z.div_mod_to_equations; lia.
  - intros [|[|p]] [|[|q]] Hp Hq; try lia; reflexivity.
Defined.

(** ** Arguments are left as they were *)

Lemma load_new (h : Ref.heap) M : Ref.load (h ++ [M]) (length h) = M.
Proof. unfold Ref.load. rewrite app_nth2 by lia. now rewrite Nat.sub_diag. Qed.

Lemma load_old (h : Ref.heap) M p :
  p < length h -> Ref.load (h ++ [M]) p = Ref.load h p.
Proof. intros Hp. unfold Ref.load. now rewrite app_nth1. Qed.

Lemma store_new (h : Ref.heap) M M' :
  Ref.store (h ++ [M]) (length h) M' = h ++ [M'].
Proof.
  unfold Ref.store. induction h as [|x h IH]; simpl; auto. now rewrite IH.
Qed.

Section OnObjects.
Variable h0 : Ref.heap.
Let pM : Ref.loc := length h0.

Lemma ref_row_find_pivot n k j M :
  Ref.row_find_pivot pM n k j (h0 ++ [M])
  = (h0 ++ [fst (row_find_pivot n k j M)], snd (row_find_pivot n k j M)).
Proof.
  unfold Ref.row_find_pivot, row_find_pivot, pM. rewrite load_new.
  destruct (get M k j =? 1)%Z; auto.
  set (phi := fun st : matrix * bool => (h0 ++ [fst st], snd st)).
  change (h0 ++ [M], false) with (phi (M, false)).
  rewrite (@for_each_break_map _ _ phi _ _
             (fun i st =>
                let (M, found) := st : matrix * bool in
                if (get M i j =? 1)%Z
                then ((add_row M k i, true), true)
                else ((M, found), false))).
  - reflexivity.
  - intros i [M' found]. unfold phi; simpl. rewrite load_new, store_new.
    destruct (get M' i j =? 1)%Z; reflexivity.
Qed.

Lemma ref_row_eliminate n k j M :
  Ref.row_eliminate pM n k j (h0 ++ [M]) = h0 ++ [row_eliminate n k j M].
Proof.
  unfold Ref.row_eliminate, row_eliminate, pM.
  apply (@for_each_map _ _ (fun M : matrix => h0 ++ [M])).
  intros i M'. rewrite load_new, store_new.
  destruct (get M' i j =? 1)%Z; reflexivity.
Qed.

Definition on_heap (s : rw_state) : Ref.rw_state :=
  Ref.RW (h0 ++ [rw_M s]) (rw_k s) (rw_pivots s).

Lemma ref_row_body n j s :
  Ref.row_body pM n j (on_heap s)
  = (on_heap (fst (row_body n j s)), snd (row_body n j s)).
Proof.
  unfold Ref.row_body, row_body, on_heap; simpl.
  destruct (Nat.eqb (rw_k s) n); auto.
  rewrite ref_row_find_pivot.
  destruct (row_find_pivot n (rw_k s) j (rw_M s)) as [M' found]; simpl.
  destruct found; simpl; auto.
  now rewrite ref_row_eliminate.
Qed.

Lemma ref_col_clear i j (st : matrix * list step) :
  Ref.col_clear pM i j (h0 ++ [fst st], snd st)
  = (h0 ++ [fst (col_clear i j st)], snd (col_clear i j st)).
Proof.
  destruct st as [M steps]. unfold Ref.col_clear, col_clear, pM; simpl.
  rewrite load_new, store_new. destruct (get M i j =? 1)%Z; reflexivity.
Qed.

Lemma ref_col_fix_pivot i n (st : matrix * list step) :
  Ref.col_fix_pivot pM i n (h0 ++ [fst st], snd st)
  = (h0 ++ [fst (col_fix_pivot i n st)], snd (col_fix_pivot i n st)).
Proof.
  destruct st as [M steps]. unfold Ref.col_fix_pivot, col_fix_pivot, pM; simpl.
  rewrite load_new. destruct (negb (get M i i =? 1)%Z); auto.
  set (phi := fun st : matrix * list step => (h0 ++ [fst st], snd st)).
  change (h0 ++ [M], steps) with (phi (M, steps)).
  rewrite (@for_each_break_map _ _ phi _ _
             (fun j st =>
                let (M, steps) := st : matrix * list step in
                if (get M i j =? 1)%Z
                then ((add_col M i j, steps ++ [(j, i)]), true)
                else ((M, steps), false))).
  - reflexivity.
  - intros j [M' steps']. unfold phi; simpl. rewrite load_new, store_new.
    destruct (get M' i j =? 1)%Z; reflexivity.
Qed.

Lemma ref_find_M_cell pA j i M :
  pA < length h0 ->
  Ref.find_M_cell pA pM j i (h0 ++ [M])
  = h0 ++ [find_M_cell (Ref.load h0 pA) j i M].
Proof.
  intros HpA. unfold Ref.find_M_cell, find_M_cell, pM.
  now rewrite load_new, store_new, load_old.
Qed.
End OnObjects.

(** Each routine returns what it returns on values, and the store it
    leaves is the store it was given followed by the arrays it allocated. *)
Lemma ref_row_wise pA h :
  Ref.row_wise_gaussian_elimination_pivots pA h
  = (row_wise_gaussian_elimination_pivots (Ref.load h pA),
     h ++ [rw_M (row_wise_run (Ref.load h pA))]).
Proof.
  unfold Ref.row_wise_gaussian_elimination_pivots, Ref.alloc.
  rewrite load_new.
  change (Ref.RW (h ++ [Ref.load h pA]) 0 [])
    with (on_heap h (RW (Ref.load h pA) 0 [])).
  rewrite (@for_each_break_map _ _ (on_heap h) _ _
             (row_body (nrows (Ref.load h pA)))
             (fun i s => ref_row_body h (nrows (Ref.load h pA)) i s)).
  reflexivity.
Qed.

Lemma ref_col_wise pA h :
  Ref.col_wise_gaussian_elimination_steps pA h
  = (col_wise_gaussian_elimination_steps (Ref.load h pA),
     h ++ [fst (col_wise_run (Ref.load h pA))]).
Proof.
  unfold Ref.col_wise_gaussian_elimination_steps, Ref.alloc.
  rewrite load_new.
  set (phi := fun st : matrix * list step => (h ++ [fst st], snd st)).
  change (h ++ [Ref.load h pA], @nil step) with (phi (Ref.load h pA, [])).
  rewrite (@for_each_map _ _ phi _ _
             (fun i st =>
                for_each (range (i + 1) (nrows (Ref.load h pA))) (col_clear i)
                  (col_fix_pivot i (nrows (Ref.load h pA)) st))).
  2:{ intros i st. unfold phi at 1. rewrite ref_col_fix_pivot.
      apply (@for_each_map _ _ phi). intros j st'. apply ref_col_clear. }
  rewrite (@for_each_map _ _ phi _ _
             (fun i st => for_each (range_down i) (col_clear i) st)).
  2:{ intros i st. apply (@for_each_map _ _ phi). intros j st'.
      apply ref_col_clear. }
  reflexivity.
Qed.

Lemma ref_find_M pA h :
  pA < length h ->
  Ref.find_M pA h = (length h, h ++ [find_M (Ref.load h pA)]).
Proof.
  intros HpA. unfold Ref.find_M, Ref.alloc, find_M. f_equal.
  apply (@for_each_map _ _ (fun M : matrix => h ++ [M])). intros j M.
  apply (@for_each_map _ _ (fun M : matrix => h ++ [M])). intros i M'.
  now apply ref_find_M_cell.
Qed.

Lemma ref_get_hadamard_steps pc pd h :
  Ref.get_hadamard_steps pc pd h
  = (get_hadamard_steps (Ref.load h pc) (Ref.load h pd),
     (h ++ [hstack (Ref.load h pc) (Ref.load h pd)])
       ++ [rw_M (row_wise_run (hstack (Ref.load h pc) (Ref.load h pd)))]).
Proof.
  unfold Ref.get_hadamard_steps, Ref.alloc, get_hadamard_steps.
  rewrite ref_row_wise, load_new. reflexivity.
Qed.

(** C9.  [row_wise_gaussian_elimination_pivots],
    [col_wise_gaussian_elimination_steps], [get_hadamard_steps] and
    [find_M] leave every array that existed before the call, their
    arguments among them, as it was: they write only into arrays they
    allocate. *)
Theorem kernel_leaves_arguments (h : Ref.heap) (pA pc pd p : Ref.loc) :
  pA < length h -> pc < length h -> pd < length h -> p < length h ->
  Ref.load (snd (Ref.row_wise_gaussian_elimination_pivots pA h)) p
  = Ref.load h p /\
  Ref.load (snd (Ref.col_wise_gaussian_elimination_steps pA h)) p
  = Ref.load h p /\
  Ref.load (snd (Ref.get_hadamard_steps pc pd h)) p = Ref.load h p /\
  Ref.load (snd (Ref.find_M pA h)) p = Ref.load h p.
Proof.
  intros HpA Hpc Hpd Hp.
  rewrite ref_row_wise, ref_col_wise, ref_get_hadamard_steps, ref_find_M by auto.
  simpl. rewrite !load_old; auto.
  rewrite length_app; simpl; lia.
Qed.

Lemma kernel_leaves_arguments_witness :
  Ref.load (snd (Ref.row_wise_gaussian_elimination_pivots 0
                   [[[0; 1]; [1; 1]]; [[1; 1]; [1; 0]]]%Z)) 0
  = Ref.load [[[0; 1]; [1; 1]]; [[1; 1]; [1; 0]]]%Z 0 /\
  Ref.load (snd (Ref.col_wise_gaussian_elimination_steps 0
                   [[[0; 1]; [1; 1]]; [[1; 1]; [1; 0]]]%Z)) 0
  = Ref.load [[[0; 1]; [1; 1]]; [[1; 1]; [1; 0]]]%Z 0 /\
  Ref.load (snd (Ref.get_hadamard_steps 0 1
                   [[[0; 1]; [1; 1]]; [[1; 1]; [1; 0]]]%Z)) 0
  = Ref.load [[[0; 1]; [1; 1]]; [[1; 1]; [1; 0]]]%Z 0 /\
  Ref.load (snd (Ref.find_M 0 [[[0; 1]; [1; 1]]; [[1; 1]; [1; 0]]]%Z)) 0
  = Ref.load [[[0; 1]; [1; 1]]; [[1; 1]; [1; 0]]]%Z 0.
Proof.
  apply (@kernel_leaves_arguments
           [[[0; 1]; [1; 1]]; [[1; 1]; [1; 0]]]%Z 0 0 1 0); simpl; lia.
Defined.

(* ================================================================== *)
(** * Part IV.  The rest of the module                                  *)
(* ================================================================== *)

(** ** Indexing that can fail

    [a[i]] on a Python list or a numpy axis of length [len]: indices
    [0 .. len - 1] are taken as they are, [-len .. -1] count from the end,
    anything else raises [IndexError] ([None]). *)
Definition np_index (len : nat) (i : Z) : option nat :=
  if ((0 <=? i) && (i <? Z.of_nat len))%Z then Some (Z.to_nat i)
  else if ((- Z.of_nat len <=? i) && (i <? 0))%Z
       then Some (Z.to_nat (i + Z.of_nat len))
       else None.

Definition bind {A B : Type} (c : option A) (k : A -> option B) : option B :=
  match c with
  | Some x => k x
  | None => None
  end.

Notation "x <- c ;; k" := (bind c (fun x => k))
  (at level 61, c at next level, right associativity).

(** [M[i, j]] read on a two-dimensional array. *)
Definition get_at (M : matrix) (i j : Z) : option Z :=
  r <- np_index (nrows M) i ;;
  c <- np_index (ncols M) j ;;
  Some (get M r c).

(** [qubits[i]] *)
Definition py_getitem (l : list Z) (i : Z) : option Z :=
  k <- np_index (length l) i ;;
  nth_error l k.

(** [for x in l: body], where [body] may raise. *)
Fixpoint for_in {A St : Type} (l : list A) (body : A -> St -> option St)
  (s : St) : option St :=
  match l with
  | [] => Some s
  | x :: l' => s' <- body x s ;; for_in l' body s'
  end.

(** [enumerate(l)] *)
Definition enumerate {A : Type} (l : list A) : list (nat * A) :=
  combine (seq 0 (length l)) l.

(** ** Storing into an [int8] array

    A value in [-128, 128) is stored as it is.  Outside that range the
    outcome is the installed library's: NumPy 1 converts the value, which
    wraps it around; NumPy 2 raises [OverflowError].  Both are run. *)
Inductive int8_rule := Int8Wraps | Int8Raises.

Definition int8_store (rule : int8_rule) (v : Z) : option Z :=
  match rule with
  | Int8Wraps => Some (wrap8 v)
  | Int8Raises =>
      if ((-128 <=? v) && (v <? 128))%Z then Some v else None
  end.

(** [M[i, j] = v] on an [int8] array: an exception ([None]) for an index
    out of range or a value the rule refuses. *)
Definition set8_at (rule : int8_rule) (M : matrix) (i j : Z) (v : Z)
  : option matrix :=
  r <- np_index (nrows M) i ;;
  c <- np_index (ncols M) j ;;
  w <- int8_store rule v ;;
  Some (set M r c w).

(** ** symplectic_to_matrix *)

(** Lines 66-69: the four cells of the pair [(i, q_i)], [(j, q_j)]; each
    value is stored into the [int8] array [M]. *)
Definition s2m_cell (rule : int8_rule) (S : matrix) (n m : nat)
  (iq jq : nat * Z) (M : matrix) : option matrix :=
  let (i, q_i) := iq in
  let (j, q_j) := jq in
  v <- get_at S (Z.of_nat i) (Z.of_nat j) ;;
  M <- set8_at rule M q_i q_j v ;;
  v <- get_at S (Z.of_nat (i + m)) (Z.of_nat j) ;;
  M <- set8_at rule M (q_i + Z.of_nat n) q_j v ;;
  v <- get_at S (Z.of_nat i) (Z.of_nat (j + m)) ;;
  M <- set8_at rule M q_i (q_j + Z.of_nat n) v ;;
  v <- get_at S (Z.of_nat (i + m)) (Z.of_nat (j + m)) ;;
  set8_at rule M (q_i + Z.of_nat n) (q_j + Z.of_nat n) v.

Definition symplectic_to_matrix (rule : int8_rule) (S : matrix) (n : nat)
  (qubits : list Z) : option matrix :=
  let M := identity (2 * n) in
  let m := length qubits in
  for_in (enumerate qubits) (fun iq =>
    for_in (enumerate qubits) (fun jq => s2m_cell rule S n m iq jq)) M.

(** ** change_gates *)

(** Lines 351-352: one element of the comprehension. *)
Definition change_gate (qubits : list Z) (g : gate) : option gate :=
  let '(gate, i, j) := g in
  match j with
  | Some j =>
      qi <- py_getitem qubits i ;;
      qj <- py_getitem qubits j ;;
      Some (gate, qi, Some qj)
  | None =>
      qi <- py_getitem qubits i ;;
      Some (gate, qi, None)
  end.

Fixpoint change_gates (gates : list gate) (qubits : list Z)
  : option (list gate) :=
  match gates with
  | [] => Some []
  | g :: rest =>
      g' <- change_gate qubits g ;;
      rest' <- change_gates rest qubits ;;
      Some (g' :: rest')
  end.

(** ** Indexing *)

Lemma np_index_spec len i k :
  np_index len i = Some k <->
  ((0 <= i < Z.of_nat len)%Z /\ k = Z.to_nat i) \/
  ((- Z.of_nat len <= i < 0)%Z /\ k = Z.to_nat (i + Z.of_nat len)).
Proof.
  unfold np_index.
  destruct (Z.leb_spec 0 i), (Z.ltb_spec i (Z.of_nat len)); simpl;
    try (destruct (Z.leb_spec (- Z.of_nat len) i), (Z.ltb_spec i 0); simpl);
    split; intros Hk; try discriminate;
    try (injection Hk as <-); try lia;
    try (destruct Hk as [[? ->]|[? ->]]; try lia; reflexivity).
Qed.

Lemma np_index_lt len i k : np_index len i = Some k -> k < len.
Proof. rewrite np_index_spec. lia. Qed.

Lemma np_index_defined len i :
  (exists k, np_index len i = Some k) <-> (- Z.of_nat len <= i < Z.of_nat len)%Z.
Proof.
  split.
  - intros [k Hk]. apply np_index_spec in Hk. lia.
  - intros Hi. destruct (Z.leb_spec 0 i).
    + exists (Z.to_nat i). apply np_index_spec. left. lia.
    + exists (Z.to_nat (i + Z.of_nat len)). apply np_index_spec. right. lia.
Qed.

Lemma np_index_nat len (k : nat) : k < len -> np_index len (Z.of_nat k) = Some k.
Proof. intros Hk. apply np_index_spec. left. lia. Qed.

Lemma py_getitem_defined l i :
  (exists x, py_getitem l i = Some x)
  <-> (- Z.of_nat (length l) <= i < Z.of_nat (length l))%Z.
Proof.
  unfold py_getitem. rewrite <- np_index_defined. split.
  - intros [x Hx]. destruct (np_index (length l) i) as [k|]; eauto.
    discriminate.
  - intros [k Hk]. rewrite Hk. simpl.
    destruct (nth_error l k) as [x|] eqn:Hn; eauto.
    apply nth_error_None in Hn. apply np_index_lt in Hk. lia.
Qed.

(** ** Remapping a gate list *)

(** The indices a record uses. *)
Definition gate_indices (g : gate) : list Z :=
  match g with
  | (_, i, Some j) => [i; j]
  | (_, i, None) => [i]
  end.

Definition index_in (len : nat) (i : Z) : Prop :=
  (- Z.of_nat len <= i < Z.of_nat len)%Z.

Lemma change_gate_defined qubits g :
  (exists g', change_gate qubits g = Some g')
  <-> Forall (index_in (length qubits)) (gate_indices g).
Proof.
  destruct g as [[k i] [j|]]; unfold change_gate, gate_indices; simpl.
  - split.
    + intros [g' Hg].
      destruct (py_getitem qubits i) as [qi|] eqn:Hi; [|discriminate].
      destruct (py_getitem qubits j) as [qj|] eqn:Hj; [|discriminate].
      repeat constructor; apply py_getitem_defined; eauto.
    + intros Hall. inversion Hall as [|? ? Hi Hrest]; subst.
      inversion Hrest as [|? ? Hj _]; subst.
      apply py_getitem_defined in Hi. apply py_getitem_defined in Hj.
      destruct Hi as [qi ->], Hj as [qj ->]. simpl. eauto.
  - split.
    + intros [g' Hg].
      destruct (py_getitem qubits i) as [qi|] eqn:Hi; [|discriminate].
      repeat constructor; apply py_getitem_defined; eauto.
    + intros Hall. inversion Hall as [|? ? Hi _]; subst.
      apply py_getitem_defined in Hi. destruct Hi as [qi ->]. simpl. eauto.
Qed.

Lemma change_gates_some_iff (gates : list gate) (qubits : list Z) :
  (exists r, change_gates gates qubits = Some r)
  <-> Forall (fun g => Forall (index_in (length qubits)) (gate_indices g)) gates.
Proof.
  induction gates as [|g rest IH]; simpl.
  - split; [constructor|eauto].
  - split.
    + intros [r Hr].
      destruct (change_gate qubits g) as [g'|] eqn:Hg; [|discriminate].
      destruct (change_gates rest qubits) as [rest'|] eqn:Hrest;
        [|discriminate].
      constructor.
      * apply change_gate_defined. eauto.
      * apply IH. eauto.
    + intros Hall. inversion Hall as [|? ? Hg Hrest]; subst.
      apply change_gate_defined in Hg. apply IH in Hrest.
      destruct Hg as [g' ->], Hrest as [rest' ->]. simpl. eauto.
Qed.

(** X1.  [change_gates] returns a list exactly when every index used by a
    record lies in [-len(qubits), len(qubits)); otherwise indexing
    [qubits] raises.  Negative indices count from the end of [qubits]. *)
Theorem change_gates_defined (gates : list gate) (qubits : list Z) :
  (exists r, change_gates gates qubits = Some r)
  <-> Forall (fun g => Forall (index_in (length qubits)) (gate_indices g)) gates.
Proof. apply change_gates_some_iff. Qed.

Lemma change_gate_kind qubits g g' :
  change_gate qubits g = Some g' ->
  kind g' = kind g /\ (snd g' = None <-> snd g = None).
Proof.
  destruct g as [[k i] [j|]]; unfold change_gate; simpl.
  - destruct (py_getitem qubits i) as [qi|]; [|discriminate].
    destruct (py_getitem qubits j) as [qj|]; [|discriminate].
    simpl. intros [= <-]. simpl. split; auto. split; discriminate.
  - destruct (py_getitem qubits i) as [qi|]; [|discriminate].
    simpl. intros [= <-]. simpl. split; auto. split; auto.
Qed.

Lemma change_gates_kinds qubits : forall gates r,
  change_gates gates qubits = Some r ->
  length r = length gates /\ map kind r = map kind gates /\
  Forall2 (fun g' g => snd g' = None <-> snd g = None) r gates.
Proof.
  induction gates as [|g rest IH]; simpl; intros r Hr.
  - injection Hr as <-. repeat split; constructor.
  - destruct (change_gate qubits g) as [g'|] eqn:Hg; [|discriminate].
    destruct (change_gates rest qubits) as [rest'|] eqn:Hrest; [|discriminate].
    simpl in Hr. injection Hr as <-.
    destruct (change_gate_kind _ _ Hg) as [Hk Hn].
    destruct (IH rest' eq_refl) as (Hlen & Hkinds & Hnone).
    simpl. repeat split; try congruence. now constructor.
Qed.

Lemma recognized_by_kind g g' : kind g' = kind g -> recognized g' = recognized g.
Proof. unfold recognized. now intros ->. Qed.

Lemma exists_unrecognized_by_kinds : forall r gates,
  map kind r = map kind gates ->
  Exists (fun g => recognized g = false) r ->
  Exists (fun g => recognized g = false) gates.
Proof.
  induction r as [|g' r IH]; intros [|g gates] Hk Hex; simpl in *;
    try discriminate; inversion Hex; subst.
  - apply Exists_cons_hd. injection Hk as Hk _.
    now rewrite <- (recognized_by_kind _ _ Hk).
  - apply Exists_cons_tl. injection Hk as _ Hk. now apply IH.
Qed.

(** X2.  A remapped list has the length, the kinds and the one- or
    two-qubit shape of the records it came from, so replaying it raises
    exactly when replaying the original does. *)
Theorem change_gates_keeps_kinds (S : Type) (H : Simulator S)
  (gates r : list gate) (qubits : list Z) (sim sim' : S) :
  change_gates gates qubits = Some r ->
  length r = length gates /\ map kind r = map kind gates /\
  Forall2 (fun g' g => snd g' = None <-> snd g = None) r gates /\
  ((exists e, snd (apply_gates r sim) = Some e)
   <-> (exists e, snd (apply_gates gates sim') = Some e)).
Proof.
  intros Hr. destruct (change_gates_kinds _ _ Hr) as (Hlen & Hk & Hn).
  repeat split; auto.
  - intros Hex. apply (proj2 (@apply_gates_raises_iff S H gates sim')).
    apply (@exists_unrecognized_by_kinds r gates); auto.
    now apply (proj1 (@apply_gates_raises_iff S H r sim)).
  - intros Hex. apply (proj2 (@apply_gates_raises_iff S H r sim)).
    apply (@exists_unrecognized_by_kinds gates r); auto.
    now apply (proj1 (@apply_gates_raises_iff S H gates sim')).
Qed.

Lemma change_gates_keeps_kinds_witness :
  length [("c"%string, 5%Z, Some 7%Z); ("q"%string, 7%Z, None)]
  = length [("c"%string, 0%Z, Some 1%Z); ("q"%string, (-1)%Z, None)] /\
  map kind [("c"%string, 5%Z, Some 7%Z); ("q"%string, 7%Z, None)]
  = map kind [("c"%string, 0%Z, Some 1%Z); ("q"%string, (-1)%Z, None)] /\
  Forall2 (fun g' g : gate => snd g' = None <-> snd g = None)
    [("c"%string, 5%Z, Some 7%Z); ("q"%string, 7%Z, None)]
    [("c"%string, 0%Z, Some 1%Z); ("q"%string, (-1)%Z, None)] /\
  ((exists e, snd (apply_gates
                     [("c"%string, 5%Z, Some 7%Z); ("q"%string, 7%Z, None)]
                     (identity 2)) = Some e)
   <-> (exists e, snd (apply_gates
                         [("c"%string, 0%Z, Some 1%Z);
                          ("q"%string, (-1)%Z, None)]
                         (identity 2)) = Some e)).
Proof.
  apply (@change_gates_keeps_kinds matrix Tableau
           [("c"%string, 0%Z, Some 1%Z); ("q"%string, (-1)%Z, None)]
           [("c"%string, 5%Z, Some 7%Z); ("q"%string, 7%Z, None)]
           [5; 7]%Z (identity 2) (identity 2)).
  reflexivity.
Defined.

(** [[q2[x] for x in q1]] *)
Fixpoint index_all (q1 q2 : list Z) : option (list Z) :=
  match q1 with
  | [] => Some []
  | x :: rest =>
      y <- py_getitem q2 x ;;
      ys <- index_all rest q2 ;;
      Some (y :: ys)
  end.

Lemma index_all_length q2 : forall q1 q,
  index_all q1 q2 = Some q -> length q = length q1.
Proof.
  induction q1 as [|x q1 IH]; simpl; intros q Hq.
  - now injection Hq as <-.
  - destruct (py_getitem q2 x) as [y|]; [|discriminate].
    destruct (index_all q1 q2) as [ys|]; [|discriminate].
    simpl in Hq. injection Hq as <-. simpl. f_equal. now apply IH.
Qed.

Lemma index_all_nth q2 : forall q1 q k,
  index_all q1 q2 = Some q -> k < length q1 ->
  nth_error q k = bind (nth_error q1 k) (py_getitem q2).
Proof.
  induction q1 as [|x q1 IH]; simpl; intros q k Hq Hk; [lia|].
  destruct (py_getitem q2 x) as [y|] eqn:Hy; [|discriminate].
  destruct (index_all q1 q2) as [ys|] eqn:Hys; [|discriminate].
  simpl in Hq. injection Hq as <-. destruct k as [|k]; simpl.
  - now rewrite Hy.
  - apply IH; auto. lia.
Qed.

Lemma index_all_getitem q1 q2 q i :
  index_all q1 q2 = Some q ->
  py_getitem q i = bind (py_getitem q1 i) (py_getitem q2).
Proof.
  intros Hq. unfold py_getitem at 1 2.
  rewrite (index_all_length _ _ Hq).
  destruct (np_index (length q1) i) as [k|] eqn:Hk; simpl; auto.
  apply (index_all_nth _ _ Hq). now apply np_index_lt in Hk.
Qed.

Lemma change_gate_twice q1 q2 q g :
  index_all q1 q2 = Some q ->
  change_gate q g = bind (change_gate q1 g) (change_gate q2).
Proof.
  intros Hq. pose proof (fun i => @index_all_getitem q1 q2 q i Hq) as Hget.
  destruct g as [[k i] [j|]]; unfold change_gate; simpl.
  - rewrite !Hget.
    destruct (py_getitem q1 i) as [x|]; simpl; auto.
    destruct (py_getitem q1 j) as [y|]; simpl; auto.
    now destruct (py_getitem q2 x).
  - rewrite !Hget.
    destruct (py_getitem q1 i) as [x|]; simpl; auto.
Qed.

(** X3.  Remapping by [q1] and then by [q2] is remapping once by
    [[q2[x] for x in q1]], failures included. *)
Theorem change_gates_twice (gates : list gate) (q1 q2 q : list Z) :
  index_all q1 q2 = Some q ->
  bind (change_gates gates q1) (fun r => change_gates r q2)
  = change_gates gates q.
Proof.
  intros Hq. induction gates as [|g rest IH]; simpl; auto.
  rewrite (@change_gate_twice q1 q2 q g Hq), <- IH.
  destruct (change_gate q1 g) as [g'|]; simpl; auto.
  destruct (change_gates rest q1) as [rest'|]; simpl.
  - reflexivity.
  - now destruct (change_gate q2 g').
Qed.

Lemma change_gates_twice_witness :
  bind (change_gates [("c"%string, 0%Z, Some 1%Z); ("h"%string, (-1)%Z, None)]
                     [1; 0]%Z)
       (fun r => change_gates r [5; 7]%Z)
  = change_gates [("c"%string, 0%Z, Some 1%Z); ("h"%string, (-1)%Z, None)]
                 [7; 5]%Z.
Proof.
  apply (@change_gates_twice
           [("c"%string, 0%Z, Some 1%Z); ("h"%string, (-1)%Z, None)]
           [1; 0]%Z [5; 7]%Z [7; 5]%Z).
  reflexivity.
Defined.

Lemma py_getitem_seq len (i : Z) :
  (0 <= i < Z.of_nat len)%Z ->
  py_getitem (map Z.of_nat (seq 0 len)) i = Some i.
Proof.
  intros Hi. unfold py_getitem. rewrite length_map, length_seq.
  replace i with (Z.of_nat (Z.to_nat i)) at 1 by lia.
  rewrite np_index_nat by lia. simpl.
  rewrite nth_error_map, nth_error_seq.
  destruct (Nat.ltb_spec (Z.to_nat i) len); [|lia]. simpl. f_equal. lia.
Qed.

(** X4.  Remapping with [qubits = [0, 1, ..., n - 1]] returns the list
    unchanged when every index it uses is in [0, n). *)
Theorem change_gates_identity (gates : list gate) (n : nat) :
  Forall (fun g => Forall (fun i => (0 <= i < Z.of_nat n)%Z) (gate_indices g))
         gates ->
  change_gates gates (map Z.of_nat (seq 0 n)) = Some gates.
Proof.
  induction gates as [|g rest IH]; simpl; intros Hall; auto.
  inversion Hall as [|? ? Hg Hrest]; subst. rewrite (IH Hrest).
  destruct g as [[k i] [j|]]; unfold change_gate; simpl in *.
  - inversion Hg as [|? ? Hi Hj']; subst. inversion Hj' as [|? ? Hj _]; subst.
    now rewrite !py_getitem_seq.
  - inversion Hg as [|? ? Hi _]; subst. now rewrite py_getitem_seq.
Qed.

Lemma change_gates_identity_witness :
  change_gates [("c"%string, 0%Z, Some 1%Z); ("h"%string, 1%Z, None)]
               (map Z.of_nat (seq 0 2))
  = Some [("c"%string, 0%Z, Some 1%Z); ("h"%string, 1%Z, None)].
Proof.
  apply (@change_gates_identity
           [("c"%string, 0%Z, Some 1%Z); ("h"%string, 1%Z, None)] 2).
  repeat constructor; lia.
Defined.

(** ** Replay of a concatenation *)

(** X5.  Replaying [g1 ++ g2] is replaying [g1] and, unless that raised,
    replaying [g2] on the simulator as [g1] left it; when [g1] raises,
    nothing of [g2] is applied. *)
Theorem apply_gates_concat (S : Type) (H : Simulator S)
  (g1 g2 : list gate) (sim : S) :
  apply_gates (g1 ++ g2) sim
  = match snd (apply_gates g1 sim) with
    | None => apply_gates g2 (fst (apply_gates g1 sim))
    | Some e => apply_gates g1 sim
    end.
Proof.
  revert sim. induction g1 as [|g g1 IH]; intros sim; simpl; auto.
  destruct (apply_gate g sim) as [sim'|e]; simpl; auto.
Qed.

(** ** Bounds on what the kernel returns *)

Section PivotBounds.
Variables (n m : nat).

Let B (j : nat) (s : rw_state) : Prop :=
  rw_k s <= n /\ rw_k s <= j /\ length (rw_pivots s) = rw_k s /\
  Forall (fun p : pivot => fst p < n /\ snd p < m) (rw_pivots s).

Lemma row_body_bounds j s :
  j < m -> B j s -> B (S j) (fst (row_body n j s)).
Proof.
  intros Hj (Hkn & Hkj & Hlen & Hall). unfold row_body.
  destruct (Nat.eqb_spec (rw_k s) n) as [Hk|Hk]; simpl.
  - repeat split; auto.
  - destruct (row_find_pivot n (rw_k s) j (rw_M s)) as [M found].
    destruct found; simpl.
    + unfold B; simpl. split; [lia|]. split; [lia|]. split.
      * rewrite length_app; simpl; lia.
      * apply Forall_app; split; auto. constructor; auto. simpl. lia.
    + unfold B; simpl. repeat split; auto.
Qed.

Lemma row_loop_bounds M :
  B m (for_each_break (range 0 m) (row_body n) (RW M 0 [])).
Proof.
  apply (for_range_break_ind B (B m)).
  - lia.
  - unfold B; simpl. repeat split; auto; lia.
  - intros j s Hj HB.
    pose proof (@row_body_bounds j s ltac:(lia) HB) as Hnext.
    destruct (snd (row_body n j s)); auto.
    destruct Hnext as (H1 & H2 & H3 & H4). repeat split; auto. lia.
  - auto.
Qed.
End PivotBounds.

Lemma row_pivots_in_bounds A :
  Forall (fun p : pivot => fst p < nrows A /\ snd p < ncols A)
         (row_wise_gaussian_elimination_pivots A) /\
  length (row_wise_gaussian_elimination_pivots A) <= nrows A /\
  length (row_wise_gaussian_elimination_pivots A) <= ncols A.
Proof.
  unfold row_wise_gaussian_elimination_pivots, row_wise_run.
  destruct (row_loop_bounds (nrows A) (ncols A) A) as (Hn & Hm & Hlen & Hall).
  rewrite Hlen. auto.
Qed.

(** X6.  For every array, binary or not, each pivot that
    [row_wise_gaussian_elimination_pivots] returns is a position of the
    array, and [get_rank] is at most the number of rows and at most the
    number of columns. *)
Theorem get_rank_bounds (A : matrix) :
  Forall (fun p : pivot => fst p < nrows A /\ snd p < ncols A)
         (row_wise_gaussian_elimination_pivots A) /\
  get_rank A <= Nat.min (nrows A) (ncols A).
Proof.
  destruct (row_pivots_in_bounds A) as (Hall & Hn & Hm).
  split; auto. unfold get_rank. lia.
Qed.

Section StepBounds.
Variable n : nat.

Let B (st : matrix * list step) : Prop :=
  Forall (fun p : step => fst p < n /\ snd p < n) (snd st).

Lemma col_clear_bounds i j st : i < n -> j < n -> B st -> B (col_clear i j st).
Proof.
  intros Hi Hj Hst. destruct st as [M steps]. unfold col_clear.
  destruct (get M i j =? 1)%Z; auto. unfold B in *; simpl in *.
  apply Forall_app; split; auto; constructor; auto.
Qed.

Lemma col_fix_pivot_bounds i st : i < n -> B st -> B (col_fix_pivot i n st).
Proof.
  intros Hi Hst. destruct st as [M steps]. unfold col_fix_pivot.
  destruct (negb (get M i i =? 1)%Z); auto.
  apply for_each_break_keeps; auto.
  intros j [M' steps'] Hj Hst'. apply in_range in Hj.
  destruct (get M' i j =? 1)%Z; auto. unfold B in *; simpl in *.
  apply Forall_app; split; auto; constructor; auto. simpl. lia.
Qed.

Lemma col_run_bounds st : B st -> B (col_upper n (col_lower n st)).
Proof.
  intros Hst. unfold col_upper, col_lower.
  apply for_each_keeps.
  - apply for_each_keeps; auto. intros i s Hi Hs. apply in_range in Hi.
    apply for_each_keeps.
    + apply col_fix_pivot_bounds; auto; lia.
    + intros j s' Hj Hs'. apply in_range in Hj.
      apply col_clear_bounds; auto; lia.
  - intros i s Hi Hs. apply in_range_down in Hi.
    apply for_each_keeps; auto. intros j s' Hj Hs'.
    apply in_range_down in Hj. apply col_clear_bounds; auto; lia.
Qed.
End StepBounds.

Lemma col_steps_in_bounds A :
  Forall (fun p : step => fst p < nrows A /\ snd p < nrows A)
         (col_wise_gaussian_elimination_steps A).
Proof.
  unfold col_wise_gaussian_elimination_steps, col_wise_run.
  apply col_run_bounds. constructor.
Qed.

(** X7.  For every array, the steps [col_wise_gaussian_elimination_steps]
    returns name two different columns of the leading square block: both
    indices are below the number of rows. *)
Theorem col_steps_bounds (A : matrix) :
  Forall (fun p : step => fst p < nrows A /\ snd p < nrows A /\ fst p <> snd p)
         (col_wise_gaussian_elimination_steps A).
Proof.
  pose proof (col_steps_in_bounds A) as Hb.
  pose proof (col_steps_distinct A) as Hd.
  rewrite Forall_forall in *. intros p Hp.
  destruct (Hb p Hp). split; auto. split; auto. now apply Hd.
Qed.

(** ** What [decompose_state] emits *)

(** A record [decompose_state] can emit, on qubits that satisfy [P]. *)
Definition emitted (P : nat -> Prop) (g : gate) : Prop :=
  (exists i, P i /\ (g = ("h"%string, Z.of_nat i, None)
                     \/ g = ("p"%string, Z.of_nat i, None))) \/
  (exists i j, P i /\ P j /\ i <> j
               /\ g = ("c"%string, Z.of_nat i, Some (Z.of_nat j))).

Section Emitted.
Context {S : Type} `{Simulator S}.
Variable P : nat -> Prop.

Let G (st : S * list gate) : Prop := Forall (emitted P) (snd st).

Lemma do_hadamard_emitted i st : P i -> G st -> G (do_hadamard i st).
Proof.
  destruct st as [sim gates]. unfold G; simpl. intros Hi Hg.
  apply Forall_app; split; auto; constructor; auto.
  left. exists i. auto.
Qed.

Lemma do_phase_emitted i st : P i -> G st -> G (do_phase i st).
Proof.
  destruct st as [sim gates]. unfold G; simpl. intros Hi Hg.
  assert (Hp : emitted P ("p"%string, Z.of_nat i, None))
    by (left; exists i; auto).
  repeat (apply Forall_app; split); auto.
Qed.

Lemma do_cnot_emitted i j st :
  P i -> P j -> i <> j -> G st -> G (do_cnot i j st).
Proof.
  destruct st as [sim gates]. unfold G; simpl. intros Hi Hj Hij Hg.
  apply Forall_app; split; auto; constructor; auto.
  right. exists i, j. auto.
Qed.

Lemma stage_cnots_emitted (view : nat -> S -> matrix) n st :
  (forall s, Forall (fun p : step => P (fst p) /\ P (snd p))
                    (col_wise_gaussian_elimination_steps (view n s))) ->
  G st -> G (stage_cnots view n st).
Proof.
  intros Hview Hst. unfold stage_cnots. apply fold_left_keeps; auto.
  intros p s Hp Hs.
  pose proof (Hview (fst st)) as Hb. rewrite Forall_forall in Hb.
  pose proof (col_steps_distinct (view n (fst st))) as Hd.
  rewrite Forall_forall in Hd.
  destruct (Hb p Hp). apply do_cnot_emitted; auto. now apply Hd.
Qed.

Lemma stage_factor_emitted (view : nat -> S -> matrix) n st :
  (forall i, i < n -> P i) -> G st -> G (stage_factor view n st).
Proof.
  intros HP Hst. unfold stage_factor.
  apply for_each_keeps.
  - apply for_each_keeps; auto. intros i s Hi Hs. apply in_range in Hi.
    destruct (get _ i i =? 1)%Z; auto. apply do_phase_emitted; auto.
    apply HP; lia.
  - intros j s Hj Hs. apply in_range in Hj. apply for_each_keeps; auto.
    intros i s' Hi Hs'. apply in_range in Hi.
    destruct (get _ i j =? 1)%Z; auto.
    apply do_cnot_emitted; auto; try apply HP; lia.
Qed.

Lemma stage_phases_emitted n st :
  (forall i, i < n -> P i) -> G st -> G (stage_phases n st).
Proof.
  intros HP Hst. unfold stage_phases. apply for_each_keeps; auto.
  intros i s Hi Hs. apply in_range in Hi. apply do_phase_emitted; auto.
  apply HP; lia.
Qed.

Lemma decompose_run_emitted sim :
  Forall P (get_hadamard_steps (view_c (qubits_of sim) sim)
                               (view_d (qubits_of sim) sim)) ->
  (forall i, i < qubits_of sim -> P i) ->
  (forall s, Forall (fun p : step => P (fst p) /\ P (snd p))
               (col_wise_gaussian_elimination_steps
                  (view_c (qubits_of sim) s))) ->
  (forall s, Forall (fun p : step => P (fst p) /\ P (snd p))
               (col_wise_gaussian_elimination_steps
                  (view_a (qubits_of sim) s))) ->
  Forall (emitted P) (snd (decompose_run sim)).
Proof.
  intros Hhad HP Hc Ha. unfold decompose_run.
  apply stage_cnots_emitted; auto.
  apply stage_phases_emitted; auto.
  apply stage_factor_emitted; auto.
  apply for_each_keeps.
  2:{ intros i s Hi Hs. apply in_range in Hi.
      apply do_hadamard_emitted; auto. apply HP; lia. }
  apply stage_cnots_emitted; auto.
  apply stage_phases_emitted; auto.
  apply stage_factor_emitted; auto.
  apply stage_cnots_emitted; auto.
  apply for_each_keeps; [constructor|].
  intros i s Hi Hs. apply do_hadamard_emitted; auto.
  rewrite Forall_forall in Hhad. now apply Hhad.
Qed.
End Emitted.

Lemma emitted_recognized P g : emitted P g -> recognized g = true.
Proof.
  intros [(i & _ & [-> | ->]) | (i & j & _ & _ & _ & ->)]; reflexivity.
Qed.

(** X8.  [decompose_state] emits only well-formed records of kind ['c'],
    ['h'] and ['p'] - a CNOT with two qubits, the others with [None] as
    second qubit - so replaying its result on any simulator never raises. *)
Theorem decompose_output_replays (S S' : Type) (H : Simulator S)
  (H' : Simulator S') (sim : S) (sim' : S') :
  Forall (fun g : gate =>
            (exists i, g = ("h"%string, i, None)) \/
            (exists i, g = ("p"%string, i, None)) \/
            (exists i j, g = ("c"%string, i, Some j)))
         (decompose_state sim) /\
  snd (apply_gates (decompose_state sim) sim') = None.
Proof.
  assert (Hem : Forall (emitted (fun _ => True)) (decompose_state sim)).
  { unfold decompose_state. apply Forall_rev.
    apply (@decompose_run_emitted S H (fun _ => True) sim); auto;
      try (intros; apply Forall_forall; intros; auto). }
  split.
  - eapply Forall_impl; [|exact Hem].
    intros g [(i & _ & [-> | ->]) | (i & j & _ & _ & _ & ->)]; eauto.
  - apply apply_gates_returns. eapply Forall_impl; [|exact Hem].
    intros g. apply emitted_recognized.
Qed.

(** ** The qubits [decompose_state] names *)

Lemma nrows_slice M r0 r1 c0 c1 :
  nrows (slice M r0 r1 c0 c1) = Nat.min (r1 - r0) (nrows M - r0).
Proof.
  unfold nrows, slice. now rewrite length_map, length_firstn, length_skipn.
Qed.

Lemma slice_row_lengths M r0 r1 c0 c1 :
  Forall (fun r : list Z => length r <= c1 - c0) (slice M r0 r1 c0 c1).
Proof.
  unfold slice. rewrite Forall_map. apply Forall_forall. intros r _.
  rewrite length_firstn. lia.
Qed.

Lemma hstack_row_lengths a b k1 k2 :
  Forall (fun r : list Z => length r <= k1) a ->
  Forall (fun r : list Z => length r <= k2) b ->
  Forall (fun r : list Z => length r <= k1 + k2) (hstack a b).
Proof.
  intros Ha Hb. unfold hstack. rewrite Forall_map. apply Forall_forall.
  intros [x y] Hin. simpl. rewrite length_app.
  rewrite Forall_forall in Ha, Hb.
  pose proof (Ha x (in_combine_l _ _ _ _ Hin)).
  pose proof (Hb y (in_combine_r _ _ _ _ Hin)). lia.
Qed.

Lemma ncols_le M k : Forall (fun r : list Z => length r <= k) M -> ncols M <= k.
Proof.
  unfold ncols. destruct M; simpl; [lia|]. intros HF. now inversion HF.
Qed.

Lemma nrows_hstack a b : nrows (hstack a b) = Nat.min (nrows a) (nrows b).
Proof. unfold nrows, hstack. now rewrite length_map, length_combine. Qed.

Section InRange.
Context {S : Type} `{Simulator S}.

Lemma view_c_steps_below n (s : S) :
  Forall (fun p : step => fst p < n /\ snd p < n)
         (col_wise_gaussian_elimination_steps (view_c n s)).
Proof.
  eapply Forall_impl; [|apply col_steps_in_bounds].
  intros p. unfold view_c. rewrite nrows_slice. lia.
Qed.

Lemma view_a_steps_below n (s : S) :
  Forall (fun p : step => fst p < n /\ snd p < n)
         (col_wise_gaussian_elimination_steps (view_a n s)).
Proof.
  eapply Forall_impl; [|apply col_steps_in_bounds].
  intros p. unfold view_a. rewrite nrows_slice. lia.
Qed.

Lemma hadamard_steps_below (sim : S) :
  Forall (fun i => i < qubits_of sim)
         (get_hadamard_steps (view_c (qubits_of sim) sim)
                             (view_d (qubits_of sim) sim)).
Proof.
  set (n := qubits_of sim).
  assert (Hn : 2 * n <= nrows (sim_state sim)).
  { unfold n, qubits_of.
    pose proof (Nat.div_mod_eq (nrows (sim_state sim)) 2). lia. }
  unfold get_hadamard_steps.
  set (M := hstack (view_c n sim) (view_d n sim)).
  assert (Hrows : nrows M = n).
  { unfold M, view_c, view_d. rewrite nrows_hstack, !nrows_slice. lia. }
  assert (Hcols : ncols M <= 2 * n).
  { apply ncols_le. unfold M, view_c, view_d.
    eapply Forall_impl;
      [|apply (@hstack_row_lengths _ _ (n - 0) (2 * n - n));
        apply slice_row_lengths].
    intros r Hr. simpl in Hr. lia. }
  destruct (row_pivots_in_bounds M) as (Hall & _).
  rewrite Forall_forall in Hall.
  apply Forall_forall. intros i Hi. apply in_map_iff in Hi.
  destruct Hi as (p & <- & Hp). apply filter_In in Hp. destruct Hp as [Hp Hle].
  apply Nat.leb_le in Hle. destruct (Hall p Hp). lia.
Qed.

Lemma decompose_run_below (sim : S) :
  Forall (emitted (fun i => i < qubits_of sim)) (snd (decompose_run sim)).
Proof.
  apply (@decompose_run_emitted S H (fun i => i < qubits_of sim) sim); auto.
  - apply hadamard_steps_below.
  - intros s. apply view_c_steps_below.
  - intros s. apply view_a_steps_below.
Qed.
End InRange.

Lemma emitted_in_range n g :
  emitted (fun i => i < n) g ->
  Forall (fun i => (0 <= i < Z.of_nat n)%Z) (gate_indices g).
Proof.
  intros [(i & Hi & [-> | ->]) | (i & j & Hi & Hj & _ & ->)]; simpl;
    repeat constructor; lia.
Qed.

(** X9.  Every qubit index in the result of [decompose_state] lies in
    [0, n), where [n] is half the number of rows of the simulator's array,
    whatever the simulator's operations do to that array during the run. *)
Theorem decompose_output_in_range (S : Type) (H : Simulator S) (sim : S) :
  Forall (fun g => Forall (fun i => (0 <= i < Z.of_nat (qubits_of sim))%Z)
                          (gate_indices g))
         (decompose_state sim).
Proof.
  unfold decompose_state. apply Forall_rev.
  eapply Forall_impl; [|apply decompose_run_below].
  intros g. apply emitted_in_range.
Qed.

(** ** Relabelling a decomposition *)

Lemma py_getitem_nat (l : list Z) (k : nat) :
  k < length l -> py_getitem l (Z.of_nat k) = nth_error l k.
Proof.
  intros Hk. unfold py_getitem. now rewrite (np_index_nat Hk).
Qed.

Lemma change_gates_each gates qubits r :
  change_gates gates qubits = Some r ->
  Forall2 (fun g g' => change_gate qubits g = Some g') gates r.
Proof.
  revert r. induction gates as [|g gates IH]; intros r Hr; simpl in Hr.
  - injection Hr as <-. constructor.
  - destruct (change_gate qubits g) as [g'|] eqn:Hg; simpl in Hr; [|discriminate].
    destruct (change_gates gates qubits) as [rest|]; simpl in Hr; [|discriminate].
    injection Hr as <-. constructor; auto.
Qed.

Lemma decompose_state_below (S : Type) (H : Simulator S) (sim : S) :
  Forall (emitted (fun i => i < qubits_of sim)) (decompose_state sim).
Proof.
  unfold decompose_state. apply Forall_rev. apply decompose_run_below.
Qed.

(** X10.  When the list of labels has at least [n] entries, [change_gates]
    relabels the result of [decompose_state] without an index error; when
    the labels are moreover pairwise different, every CNOT of the relabelled
    circuit still has a control different from its target. *)
Theorem decompose_then_change_gates (S : Type) (H : Simulator S) (sim : S)
  (qubits : list Z) :
  qubits_of sim <= length qubits ->
  exists r, change_gates (decompose_state sim) qubits = Some r /\
            (NoDup qubits ->
             Forall (fun g : gate => forall j, snd g = Some j -> snd (fst g) <> j)
                    r).
Proof.
  intros Hlen.
  pose proof (decompose_state_below H sim) as Hem.
  assert (Hdef : exists r, change_gates (decompose_state sim) qubits = Some r).
  { apply change_gates_some_iff. eapply Forall_impl; [|exact Hem].
    intros g Hg. apply emitted_in_range in Hg.
    eapply Forall_impl; [|exact Hg]. unfold index_in. intros i Hi. simpl in Hi. lia. }
  destruct Hdef as [r Hr]. exists r. split; auto.
  intros Hnd. apply change_gates_each in Hr.
  revert Hem. induction Hr as [|g g' gates r Hg Hrest IH]; intros Hem.
  - constructor.
  - inversion Hem as [|? ? Hg0 Hem']; subst. constructor; auto.
    intros j Hj.
    destruct Hg0 as [(i & Hi & [-> | ->]) | (i & k & Hi & Hk & Hik & ->)];
      unfold change_gate in Hg.
    + rewrite py_getitem_nat in Hg by lia.
      destruct (nth_error qubits i); simpl in Hg; [|discriminate].
      injection Hg as <-. discriminate.
    + rewrite py_getitem_nat in Hg by lia.
      destruct (nth_error qubits i); simpl in Hg; [|discriminate].
      injection Hg as <-. discriminate.
    + rewrite !py_getitem_nat in Hg by lia.
      destruct (nth_error qubits i) as [qi|] eqn:Hqi; simpl in Hg; [|discriminate].
      destruct (nth_error qubits k) as [qk|] eqn:Hqk; simpl in Hg; [|discriminate].
      injection Hg as <-. simpl in Hj. injection Hj as <-. simpl.
      intros Heq. subst qk. apply Hik.
      apply (proj1 (NoDup_nth_error qubits) Hnd); [lia|congruence].
Qed.

Lemma decompose_then_change_gates_witness :
  qubits_of bell_state <= length [5; 7; 9; 11]%Z /\
  exists r, change_gates (decompose_state bell_state) [5; 7; 9; 11]%Z = Some r /\
            (NoDup [5; 7; 9; 11]%Z ->
             Forall (fun g : gate => forall j, snd g = Some j -> snd (fst g) <> j)
                    r).
Proof.
  assert (Hlen : qubits_of bell_state <= length [5; 7; 9; 11]%Z)
    by (vm_compute; lia).
  split; [exact Hlen|].
  exact (@decompose_then_change_gates matrix Tableau bell_state
           [5; 7; 9; 11]%Z Hlen).
Defined.

(** ** How long a decomposition is *)

(** The number of records of [gates] whose kind is selected by [sel]. *)
Definition count_kind (sel : string -> bool) (gates : list gate) : nat :=
  length (filter (fun g => sel (kind g)) gates).

Lemma count_kind_app sel l1 l2 :
  count_kind sel (l1 ++ l2) = count_kind sel l1 + count_kind sel l2.
Proof. unfold count_kind. now rewrite filter_app, length_app. Qed.

Lemma count_kind_rev sel l : count_kind sel (rev l) = count_kind sel l.
Proof.
  induction l as [|g l IH]; auto. simpl rev. rewrite count_kind_app, IH.
  unfold count_kind. simpl. destruct (sel (kind g)); simpl; lia.
Qed.

Lemma count_kind_all l : count_kind (fun _ => true) l = length l.
Proof. unfold count_kind. induction l; simpl; auto. Qed.

Section Counting.
Context {S : Type} `{Simulator S}.
Variable sel : string -> bool.

Let cnt (st : S * list gate) : nat := count_kind sel (snd st).
Let one (k : string) : nat := if sel k then 1 else 0.

Lemma do_hadamard_count i st :
  cnt (do_hadamard i st) = cnt st + one "h".
Proof.
  destruct st as [sim gates]. unfold cnt, one. simpl.
  rewrite count_kind_app. unfold count_kind, kind. simpl.
  destruct (sel "h"); reflexivity.
Qed.

Lemma do_phase_count i st : cnt (do_phase i st) = cnt st + 3 * one "p".
Proof.
  destruct st as [sim gates]. unfold cnt, one. simpl.
  rewrite !count_kind_app. unfold count_kind, kind. simpl.
  destruct (sel "p"); simpl; lia.
Qed.

Lemma do_cnot_count i j st : cnt (do_cnot i j st) = cnt st + one "c".
Proof.
  destruct st as [sim gates]. unfold cnt, one. simpl.
  rewrite count_kind_app. unfold count_kind, kind. simpl.
  destruct (sel "c"); reflexivity.
Qed.

Lemma stage_cnots_count (view : nat -> S -> matrix) n st k :
  k <= cnt st -> k <= cnt (stage_cnots view n st).
Proof.
  intros Hk. unfold stage_cnots.
  apply (@fold_left_keeps _ _ (fun s => k <= cnt s)); auto.
  intros p s _ Hs. rewrite do_cnot_count. lia.
Qed.

Lemma stage_factor_count (view : nat -> S -> matrix) n st k :
  k <= cnt st -> k <= cnt (stage_factor view n st).
Proof.
  intros Hk. unfold stage_factor.
  apply (@for_each_keeps _ (fun s => k <= cnt s)).
  - apply (@for_each_keeps _ (fun s => k <= cnt s)); auto.
    intros i s _ Hs. destruct (get _ i i =? 1)%Z; auto.
    rewrite do_phase_count. lia.
  - intros j s _ Hs. apply (@for_each_keeps _ (fun s => k <= cnt s)); auto.
    intros i s' _ Hs'. destruct (get _ i j =? 1)%Z; auto.
    rewrite do_cnot_count. lia.
Qed.

Lemma stage_phases_count n st k :
  k <= cnt st -> k + 3 * n * one "p" <= cnt (stage_phases n st).
Proof.
  intros Hk. unfold stage_phases.
  replace (k + 3 * n * one "p") with (k + 3 * (n - 0) * one "p")
    by (f_equal; f_equal; lia).
  apply (@for_range_ind _ (fun i s => k + 3 * (i - 0) * one "p" <= cnt s));
    [lia|lia|].
  intros i s Hi Hs. rewrite do_phase_count. nia.
Qed.

Lemma all_hadamards_count n st k :
  k <= cnt st ->
  k + n * one "h" <= cnt (for_each (range 0 n) do_hadamard st).
Proof.
  intros Hk.
  replace (k + n * one "h") with (k + (n - 0) * one "h")
    by (f_equal; f_equal; lia).
  apply (@for_range_ind _ (fun i s => k + (i - 0) * one "h" <= cnt s));
    [lia|lia|].
  intros i s Hi Hs. rewrite do_hadamard_count. nia.
Qed.

Lemma decompose_run_count (sim : S) :
  qubits_of sim * one "h" + 6 * qubits_of sim * one "p"
  <= cnt (decompose_run sim).
Proof.
  unfold decompose_run. set (n := qubits_of sim).
  apply stage_cnots_count.
  replace (n * one "h" + 6 * n * one "p")
    with ((3 * n * one "p" + n * one "h") + 3 * n * one "p") by lia.
  apply stage_phases_count.
  apply stage_factor_count.
  apply all_hadamards_count.
  apply stage_cnots_count.
  replace (3 * n * one "p") with (0 + 3 * n * one "p") by lia.
  apply stage_phases_count. lia.
Qed.
End Counting.

(** X11.  The circuit [decompose_state] returns for an [n]-qubit simulator
    is never short: it holds at least [n] Hadamard records and [6 n] phase
    records, hence at least [7 n] records in all - also for a state that
    needs no gate at all. *)
Theorem decompose_output_length (S : Type) (H : Simulator S) (sim : S) :
  qubits_of sim <= count_kind (String.eqb "h") (decompose_state sim) /\
  6 * qubits_of sim <= count_kind (String.eqb "p") (decompose_state sim) /\
  7 * qubits_of sim <= length (decompose_state sim).
Proof.
  unfold decompose_state. rewrite !count_kind_rev, length_rev.
  set (n := qubits_of sim).
  assert (Hh : n * 1 + 6 * n * 0
               <= count_kind (String.eqb "h") (snd (decompose_run sim)))
    by exact (@decompose_run_count S H (String.eqb "h") sim).
  assert (Hp : n * 0 + 6 * n * 1
               <= count_kind (String.eqb "p") (snd (decompose_run sim)))
    by exact (@decompose_run_count S H (String.eqb "p") sim).
  assert (Ha : n * 1 + 6 * n * 1
               <= count_kind (fun _ => true) (snd (decompose_run sim)))
    by exact (@decompose_run_count S H (fun _ => true) sim).
  rewrite count_kind_all in Ha. lia.
Qed.

(** ** How many steps the column elimination records *)

Section StepCount.
Variable n : nat.

Let len (st : matrix * list step) : nat := length (snd st).

Lemma col_clear_length i j st : len (col_clear i j st) <= len st + 1.
Proof.
  destruct st as [M steps]. unfold col_clear, len.
  destruct (get M i j =? 1)%Z; simpl; [rewrite length_app; simpl|]; lia.
Qed.

Lemma col_fix_pivot_length i st :
  i < n -> len (col_fix_pivot i n st) <= len st + 1.
Proof.
  intros Hi. destruct st as [M steps]. unfold col_fix_pivot.
  destruct (negb (get M i i =? 1)%Z); [|lia].
  apply (@for_range_break_ind _
           (fun _ s => len s = len (M, steps))
           (fun s => len s <= len (M, steps) + 1)); auto; try lia.
  intros j [M' steps'] Hj Hs. unfold len in *. simpl in *.
  destruct (get M' i j =? 1)%Z; simpl; auto.
  rewrite length_app. simpl. lia.
Qed.

Lemma col_lower_length st :
  2 * len (col_lower n st) <= 2 * len st + n * n + n.
Proof.
  unfold col_lower.
  assert (Hinv : 2 * len (for_each (range 0 n) (fun i st0 =>
                   for_each (range (i + 1) n) (col_clear i)
                            (col_fix_pivot i n st0)) st) + n * n
                 <= 2 * len st + 2 * n * n + n); [|lia].
  apply (@for_range_ind _
           (fun i s => 2 * len s + i * i <= 2 * len st + 2 * i * n + i));
    [lia|lia|].
  intros i s Hi Hs.
  assert (Hrow : len (for_each (range (i + 1) n) (col_clear i)
                               (col_fix_pivot i n s)) + (i + 1)
                 <= len (col_fix_pivot i n s) + n).
  { apply (@for_range_ind _
             (fun j s' => len s' + (i + 1) <= len (col_fix_pivot i n s) + j));
      [lia|lia|].
    intros j s' Hj Hs'. pose proof (col_clear_length i j s'). lia. }
  pose proof (@col_fix_pivot_length i s (proj2 Hi)). nia.
Qed.

Lemma col_upper_length st :
  2 * len (col_upper n st) + n <= 2 * len st + n * n.
Proof.
  unfold col_upper.
  assert (Hinv : 2 * len (for_each (range_down n) (fun i st0 =>
                   for_each (range_down i) (col_clear i) st0) st) + 0 * 0 + n
                 <= 2 * len st + n * n + 0); [|lia].
  apply (@for_down_ind _
           (fun i s => 2 * len s + i * i + n <= 2 * len st + n * n + i)).
  - lia.
  - intros i s Hi Hs.
    assert (Hrow : len (for_each (range_down i) (col_clear i) s)
                   <= len s + i).
    { assert (Hd : len (for_each (range_down i) (col_clear i) s) + 0
                   <= len s + i); [|lia].
      apply (@for_down_ind _ (fun j s' => len s' + j <= len s + i));
        [lia|].
      intros j s' Hj Hs'. pose proof (col_clear_length i j s'). lia. }
    nia.
Qed.
End StepCount.

(** X12.  For an array with [n] rows, the column elimination records at
    most [n * n] steps. *)
Theorem col_steps_count (A : matrix) :
  length (col_wise_gaussian_elimination_steps A) <= nrows A * nrows A.
Proof.
  unfold col_wise_gaussian_elimination_steps, col_wise_run.
  pose proof (col_lower_length (nrows A) (A, [])) as Hl.
  pose proof (col_upper_length (nrows A) (col_lower (nrows A) (A, []))) as Hu.
  simpl in Hl. lia.
Qed.

Lemma col_steps_length (A : matrix) :
  length (col_wise_gaussian_elimination_steps A) <= nrows A * nrows A.
Proof.
  unfold col_wise_gaussian_elimination_steps, col_wise_run.
  pose proof (col_lower_length (nrows A) (A, [])) as Hl.
  pose proof (col_upper_length (nrows A) (col_lower (nrows A) (A, []))) as Hu.
  simpl in Hl. lia.
Qed.

Section UpperBound.
Context {S : Type} `{Simulator S}.

Let len (st : S * list gate) : nat := length (snd st).

Lemma do_hadamard_length i st : len (do_hadamard i st) = len st + 1.
Proof. destruct st. unfold len. simpl. now rewrite length_app. Qed.

Lemma do_phase_length i st : len (do_phase i st) = len st + 3.
Proof.
  destruct st. unfold len. simpl. rewrite !length_app. simpl. lia.
Qed.

Lemma do_cnot_length i j st : len (do_cnot i j st) = len st + 1.
Proof. destruct st. unfold len. simpl. now rewrite length_app. Qed.

Lemma hadamards_length l st :
  len (for_each l do_hadamard st) = len st + length l.
Proof.
  unfold for_each. revert st. induction l as [|i l IH]; intros st; simpl.
  - lia.
  - rewrite IH, do_hadamard_length. lia.
Qed.

Lemma cnots_length (steps : list step) st :
  len (fold_left (fun st p => do_cnot (fst p) (snd p) st) steps st)
  = len st + length steps.
Proof.
  revert st. induction steps as [|p l IH]; intros st; simpl.
  - lia.
  - rewrite IH, do_cnot_length. lia.
Qed.

Lemma stage_cnots_length (view : nat -> S -> matrix) n st :
  nrows (view n (fst st)) <= n ->
  len (stage_cnots view n st) <= len st + n * n.
Proof.
  intros Hn. unfold stage_cnots. rewrite cnots_length.
  pose proof (col_steps_length (view n (fst st))). nia.
Qed.

Lemma stage_phases_length n st : len (stage_phases n st) = len st + 3 * n.
Proof.
  unfold stage_phases.
  assert (Hinv : len (for_each (range 0 n) do_phase st) = len st + 3 * (n - 0));
    [|lia].
  apply (@for_range_ind _ (fun i s => len s = len st + 3 * (i - 0)));
    [lia|lia|].
  intros i s Hi Hs. rewrite do_phase_length. lia.
Qed.

Lemma stage_factor_length (view : nat -> S -> matrix) n st :
  2 * len (stage_factor view n st) + n <= 2 * len st + 6 * n + n * n.
Proof.
  unfold stage_factor.
  set (M := find_M (view n (fst st))).
  set (L := sub_mod2 (matmul8 M (transpose M)) (view n (fst st))).
  set (st1 := for_each (range 0 n) (fun i st0 =>
                if (get L i i =? 1)%Z then do_phase i st0 else st0) st).
  assert (H1 : len st1 <= len st + 3 * n).
  { assert (Hinv : len st1 <= len st + 3 * (n - 0)); [|lia].
    apply (@for_range_ind _ (fun i s => len s <= len st + 3 * (i - 0)));
      [lia|lia|].
    intros i s Hi Hs. destruct (get L i i =? 1)%Z; [|lia].
    rewrite do_phase_length. lia. }
  assert (H2 : 2 * len (for_each (range 0 n) (fun j =>
                 for_each (range (j + 1) n) (fun i st0 =>
                   if (get M i j =? 1)%Z then do_cnot i j st0 else st0)) st1)
               + n * n + n <= 2 * len st1 + 2 * n * n); [|lia].
  apply (@for_range_ind _
           (fun j s => 2 * len s + j * j + j <= 2 * len st1 + 2 * j * n));
    [lia|lia|].
  intros j s Hj Hs.
  assert (Hrow : len (for_each (range (j + 1) n) (fun i st0 =>
                   if (get M i j =? 1)%Z then do_cnot i j st0 else st0) s)
                 + (j + 1) <= len s + n).
  { apply (@for_range_ind _ (fun i s' => len s' + (j + 1) <= len s + i));
      [lia|lia|].
    intros i s' Hi Hs'. destruct (get M i j =? 1)%Z; [|lia].
    rewrite do_cnot_length. lia. }
  nia.
Qed.

Lemma hadamard_steps_length (sim : S) :
  length (get_hadamard_steps (view_c (qubits_of sim) sim)
                             (view_d (qubits_of sim) sim))
  <= qubits_of sim.
Proof.
  unfold get_hadamard_steps.
  set (M := hstack _ _).
  rewrite length_map.
  pose proof (filter_length_le (fun p : pivot => Nat.leb (nrows M) (snd p))
                (row_wise_gaussian_elimination_pivots M)) as Hf.
  destruct (row_pivots_in_bounds M) as (_ & Hlen & _).
  assert (Hrows : nrows M <= qubits_of sim).
  { unfold M, view_c. rewrite nrows_hstack, nrows_slice. lia. }
  eapply Nat.le_trans; [exact Hf|lia].
Qed.

Lemma decompose_run_length (sim : S) :
  len (decompose_run sim)
  <= 4 * qubits_of sim * qubits_of sim + 13 * qubits_of sim.
Proof.
  unfold decompose_run. set (n := qubits_of sim).
  assert (Hc : forall s : S * list gate, nrows (view_c n (fst s)) <= n)
    by (intros s; unfold view_c; rewrite nrows_slice; lia).
  assert (Ha : forall s : S * list gate, nrows (view_a n (fst s)) <= n)
    by (intros s; unfold view_a; rewrite nrows_slice; lia).
  set (st1 := for_each (get_hadamard_steps _ _) do_hadamard _).
  assert (H1 : len st1 <= n).
  { unfold st1. rewrite hadamards_length.
    pose proof (hadamard_steps_length sim). unfold len. simpl. fold n in H0. lia. }
  set (st2 := stage_cnots view_c n st1).
  pose proof (@stage_cnots_length view_c n st1 (Hc st1)) as H2. fold st2 in H2.
  set (st4 := stage_factor view_d n st2).
  pose proof (stage_factor_length view_d n st2) as H4. fold st4 in H4.
  set (st5 := stage_phases n st4).
  pose proof (stage_phases_length n st4) as H5. fold st5 in H5.
  set (st6 := stage_cnots view_c n st5).
  pose proof (@stage_cnots_length view_c n st5 (Hc st5)) as H6. fold st6 in H6.
  set (st7 := for_each (range 0 n) do_hadamard st6).
  pose proof (hadamards_length (range 0 n) st6) as H7. fold st7 in H7.
  unfold range in H7 at 1. rewrite length_seq in H7.
  set (st9 := stage_factor view_b n st7).
  pose proof (stage_factor_length view_b n st7) as H9. fold st9 in H9.
  set (st10 := stage_phases n st9).
  pose proof (stage_phases_length n st9) as H10. fold st10 in H10.
  pose proof (@stage_cnots_length view_a n st10 (Ha st10)) as H11.
  nia.
Qed.
End UpperBound.

(** X13.  The circuit [decompose_state] returns for an [n]-qubit simulator
    has at most [4 n^2 + 13 n] records. *)
Theorem decompose_output_size (S : Type) (H : Simulator S) (sim : S) :
  length (decompose_state sim)
  <= 4 * qubits_of sim * qubits_of sim + 13 * qubits_of sim.
Proof.
  unfold decompose_state. rewrite length_rev.
  apply (@decompose_run_length S H sim).
Qed.

(** ** When the column elimination succeeds *)

Lemma col_added_sym n m t s F F' :
  col_added n m t s F F' -> col_added n m t s F' F.
Proof.
  intros (Ht & Hs & Hts & Hcol & Hrest). repeat split; auto.
  - intros r Hr. rewrite (Hcol r Hr), (Hrest r s) by auto.
    rewrite <- Z.add_assoc, (eqm2_double (F r s)). now rewrite Z.add_0_r.
  - intros r j Hr Hj Hjt. symmetry. now apply Hrest.
Qed.

Lemma indep_identity n : indep n n (get (identity n)).
Proof.
  intros x Hzero j Hj. rewrite <- (Hzero j Hj). unfold comb.
  rewrite (@sumZ_single n j (fun i => (x i * get (identity n) i j)%Z)); auto.
  - rewrite get_identity, Nat.eqb_refl by auto. now rewrite Z.mul_1_r.
  - intros k Hk Hkj. rewrite get_identity by auto.
    destruct (Nat.eqb_spec k j); [contradiction|lia].
Qed.

Lemma apply_steps_indep_back n steps :
  forall A, wf n n A ->
  Forall (fun p : step => fst p < n /\ snd p < n /\ fst p <> snd p) steps ->
  indep n n (get (apply_steps A steps)) -> indep n n (get A).
Proof.
  induction steps as [|p steps IH]; intros A HA Hsteps Hind; auto.
  inversion Hsteps as [|? ? (Hs & Ht & Hst) Hrest]; subst.
  assert (Hstep : indep n n (get (apply_step A p))).
  { apply IH; auto. unfold apply_step. now apply wf_add_col. }
  apply (@col_added_indep n n (snd p) (fst p) (get (apply_step A p))); auto.
  apply col_added_sym. unfold apply_step. apply add_col_col_added; auto.
Qed.

(** X14.  On a binary [n] x [n] array, the recorded steps reduce the array
    to the identity exactly when the array has full rank over GF(2): on a
    singular array the function still returns steps, and replaying them
    does not give the identity. *)
Theorem col_steps_succeed_iff (n : nat) (A : matrix) :
  wf n n A -> binary A ->
  (apply_steps A (col_wise_gaussian_elimination_steps A) = identity n
   <-> has_rank n n (get A) n).
Proof.
  intros HA Hbin. split.
  - intros Hid. apply indep_has_rank.
    apply (@apply_steps_indep_back n (col_wise_gaussian_elimination_steps A));
      auto.
    + pose proof (col_steps_in_bounds A) as Hb.
      pose proof (col_steps_distinct A) as Hd.
      rewrite (wf_nrows HA) in Hb.
      rewrite Forall_forall in *. intros p Hp.
      destruct (Hb p Hp). split; auto. split; auto. now apply Hd.
    + rewrite Hid. apply indep_identity.
  - intros Hrank. pose proof (full_rank_indep Hrank) as Hind.
    unfold col_wise_gaussian_elimination_steps, col_wise_run.
    rewrite (wf_nrows HA).
    rewrite <- (@col_wise_run_replayed n A).
    apply col_upper_spec. apply lower_upto_upper_done.
    now apply col_lower_spec.
Qed.

Lemma col_steps_succeed_iff_witness :
  apply_steps [[1; 1]; [1; 1]]%Z
    (col_wise_gaussian_elimination_steps [[1; 1]; [1; 1]]%Z) = identity 2
  <-> has_rank 2 2 (get [[1; 1]; [1; 1]]%Z) 2.
Proof.
  apply (@col_steps_succeed_iff 2 [[1; 1]; [1; 1]]%Z).
  - split; [reflexivity|]. repeat constructor.
  - repeat (first [apply Forall_nil | apply Forall_cons]); auto.
Defined.

(** ** The order of the pivots and of the Hadamard steps *)

Lemma sorted_snoc l j :
  StronglySorted lt l -> Forall (fun x => x < j) l ->
  StronglySorted lt (l ++ [j]).
Proof.
  induction l as [|a l IH]; intros Hs Hall; simpl.
  - repeat constructor.
  - inversion Hs as [|? ? Hs' Ha]; subst.
    inversion Hall as [|? ? Haj Hall']; subst.
    constructor; auto. apply Forall_app; split; auto.
Qed.

Lemma sorted_increasing l : StronglySorted lt l -> increasing l.
Proof.
  induction l as [|a l IH]; intros Hs i j Hij Hj; simpl in Hj; [lia|].
  inversion Hs as [|? ? Hs' Ha]; subst.
  destruct j as [|j]; [lia|]. destruct i as [|i]; simpl.
  - rewrite Forall_forall in Ha. apply Ha. apply nth_In. lia.
  - apply IH; auto; lia.
Qed.

Lemma sorted_NoDup l : StronglySorted lt l -> NoDup l.
Proof.
  induction 1 as [|a l Hs IH Ha]; constructor; auto.
  intros Hin. rewrite Forall_forall in Ha. specialize (Ha a Hin). lia.
Qed.

Lemma sorted_select n (l : list pivot) :
  StronglySorted lt (map snd l) ->
  StronglySorted lt
    (map (fun p : pivot => snd p - n)
         (filter (fun p : pivot => Nat.leb n (snd p)) l)).
Proof.
  induction l as [|p l IH]; intros Hs; simpl; [constructor|].
  simpl in Hs. inversion Hs as [|? ? Hs' Hp]; subst.
  destruct (Nat.leb_spec n (snd p)) as [Hle|Hlt]; simpl; auto.
  constructor; auto.
  rewrite Forall_map. apply Forall_forall. intros q Hq.
  apply filter_In in Hq. destruct Hq as [Hq Hnq]. apply Nat.leb_le in Hnq.
  rewrite Forall_forall in Hp.
  assert (snd p < snd q) by (apply Hp; now apply in_map). lia.
Qed.

Section PivotOrder.
Variables (n m : nat).

Let O (j : nat) (s : rw_state) : Prop :=
  Forall (fun x => x < j) (map snd (rw_pivots s)) /\
  StronglySorted lt (map snd (rw_pivots s)).

Lemma row_body_order j s : O j s -> O (S j) (fst (row_body n j s)).
Proof.
  intros (Hall & Hs). unfold row_body.
  assert (Hup : Forall (fun x => x < S j) (map snd (rw_pivots s)))
    by (eapply Forall_impl; [|exact Hall]; intros x Hx; simpl in Hx; lia).
  destruct (Nat.eqb (rw_k s) n); simpl; [split; auto|].
  destruct (row_find_pivot n (rw_k s) j (rw_M s)) as [M found].
  destruct found; simpl; [|split; auto].
  unfold O; simpl. rewrite map_app. simpl. split.
  - apply Forall_app; split; auto.
  - now apply sorted_snoc.
Qed.

Lemma row_loop_order M :
  StronglySorted lt
    (map snd (rw_pivots (for_each_break (range 0 m) (row_body n) (RW M 0 [])))).
Proof.
  apply (for_range_break_ind O
           (fun s => StronglySorted lt (map snd (rw_pivots s)))).
  - lia.
  - unfold O; simpl. split; constructor.
  - intros j s Hj HO. pose proof (row_body_order HO) as Hnext.
    destruct (snd (row_body n j s)); auto. apply Hnext.
  - intros s HO. apply HO.
Qed.
End PivotOrder.

Lemma row_pivots_sorted A :
  StronglySorted lt (map snd (row_wise_gaussian_elimination_pivots A)).
Proof.
  unfold row_wise_gaussian_elimination_pivots, row_wise_run.
  apply row_loop_order.
Qed.

(** X15.  For [n] x [n] arrays [c] and [d], [get_hadamard_steps] returns
    qubit indices below [n] in strictly increasing order: no qubit is
    selected twice. *)
Theorem hadamard_steps_sorted (n : nat) (c d : matrix) :
  wf n n c -> wf n n d ->
  increasing (get_hadamard_steps c d) /\
  NoDup (get_hadamard_steps c d) /\
  Forall (fun i => i < n) (get_hadamard_steps c d).
Proof.
  intros Hc Hd.
  pose proof (wf_hstack Hc Hd) as HM.
  assert (Hs : StronglySorted lt (get_hadamard_steps c d)).
  { unfold get_hadamard_steps. apply sorted_select. apply row_pivots_sorted. }
  split; [now apply sorted_increasing|]. split; [now apply sorted_NoDup|].
  unfold get_hadamard_steps. rewrite (wf_nrows HM).
  destruct (row_pivots_in_bounds (hstack c d)) as (Hall & Hlen & _).
  rewrite Forall_forall in Hall.
  apply Forall_forall. intros i Hi. apply in_map_iff in Hi.
  destruct Hi as (p & <- & Hp). apply filter_In in Hp. destruct Hp as [Hp Hle].
  apply Nat.leb_le in Hle. destruct (Hall p Hp) as [Hr Hcol].
  rewrite (wf_nrows HM) in Hr.
  rewrite (wf_ncols HM) in Hcol by lia. lia.
Qed.

Lemma hadamard_steps_sorted_witness :
  increasing (get_hadamard_steps [[0; 0]; [0; 0]]%Z [[1; 0]; [0; 1]]%Z) /\
  NoDup (get_hadamard_steps [[0; 0]; [0; 0]]%Z [[1; 0]; [0; 1]]%Z) /\
  Forall (fun i => i < 2)
         (get_hadamard_steps [[0; 0]; [0; 0]]%Z [[1; 0]; [0; 1]]%Z).
Proof.
  apply (@hadamard_steps_sorted 2 [[0; 0]; [0; 0]]%Z [[1; 0]; [0; 1]]%Z).
  - split; [reflexivity|]. repeat constructor.
  - split; [reflexivity|]. repeat constructor.
Defined.

(** ** When the factorisation of [find_M] succeeds *)

Lemma eqm2_of_sub_zero x y : ((x - y) mod 2 = 0)%Z -> eqm2 x y.
Proof. unfold eqm2. intros Hxy. Z.div_mod_to_equations. lia. Qed.

Lemma eqm2_bits x y :
  (x = 0 \/ x = 1)%Z -> (y = 0 \/ y = 1)%Z -> eqm2 x y -> x = y.
Proof.
  unfold eqm2. intros [-> | ->] [-> | ->] Hxy; auto;
    vm_compute in Hxy; discriminate.
Qed.

Lemma find_M_product n A i j :
  wf n n A -> i < n -> j < n ->
  get (sub_mod2 (matmul8 (find_M A) (transpose (find_M A))) A) i j
  = ((wrap8 (sumZ n (fun k => get (find_M A) i k * get (find_M A) j k))
      - get A i j) mod 2)%Z.
Proof.
  intros HA Hi Hj.
  pose proof (@find_M_inv n A (wf_nrows HA)) as (HM & _).
  assert (Hn : 0 < n) by lia.
  pose proof (wf_transpose HM Hn) as HT.
  rewrite (get_sub_mod2 (wf_matmul8 HM HT Hn) HA) by auto.
  rewrite (get_matmul8 HM HT) by auto.
  rewrite (@sumZ_ext n
             (fun k => get (find_M A) i k * get (transpose (find_M A)) k j)%Z
             (fun k => get (find_M A) i k * get (find_M A) j k)%Z)
    by (intros k Hk; now rewrite (get_transpose HM)).
  reflexivity.
Qed.

Lemma for_each_ext {St : Type} (l : list nat) (f g : nat -> St -> St) s :
  (forall i s, In i l -> f i s = g i s) ->
  for_each l f s = for_each l g s.
Proof.
  unfold for_each. revert s. induction l as [|i l IH]; intros s Hfg; simpl.
  - reflexivity.
  - rewrite Hfg by now left. apply IH. intros j t Hj. apply Hfg. now right.
Qed.

Lemma find_M_reads_below n A A' :
  nrows A = n -> nrows A' = n ->
  (forall i j, j < i -> i < n -> get A' i j = get A i j) ->
  find_M A' = find_M A.
Proof.
  intros HA HA' Hlow. unfold find_M. rewrite HA, HA'.
  apply for_each_ext. intros j M Hj. apply in_range in Hj.
  apply for_each_ext. intros i M' Hi. apply in_range in Hi.
  unfold find_M_cell. now rewrite Hlow by lia.
Qed.

Lemma find_M_diagonal n A :
  wf n n A -> binary A ->
  ((forall i j, i < n -> j < n -> i <> j ->
      get (sub_mod2 (matmul8 (find_M A) (transpose (find_M A))) A) i j = 0%Z)
   <-> symmetric n A).
Proof.
  intros HA Hbin.
  pose proof (@find_M_inv n A (wf_nrows HA)) as Hinv.
  assert (Hbelow : forall i j, j < i -> i < n ->
            eqm2 (wrap8 (sumZ n (fun k => get (find_M A) i k
                                          * get (find_M A) j k)%Z))
                 (get A i j)).
  { intros i j Hji Hi. eapply eqm2_trans; [apply eqm2_wrap8|].
    now apply (@row_product_below n A _ i j Hinv). }
  assert (Hswap : forall i j,
            sumZ n (fun k => get (find_M A) i k * get (find_M A) j k)%Z
            = sumZ n (fun k => get (find_M A) j k * get (find_M A) i k)%Z).
  { intros i j. apply sumZ_ext. intros; lia. }
  split.
  - intros Hdiag.
    assert (Hlow : forall i j, j < i -> i < n -> get A i j = get A j i).
    { intros i j Hji Hi.
      apply eqm2_bits; try (apply (binary_get HA Hbin); lia).
      rewrite <- (Hbelow i j Hji Hi). rewrite (Hswap i j).
      apply eqm2_of_sub_zero.
      rewrite <- (@find_M_product n A j i HA) by lia.
      apply Hdiag; lia. }
    intros i j Hi Hj.
    destruct (Nat.lt_trichotomy i j) as [Hlt | [-> | Hgt]]; auto.
    symmetry. now apply Hlow.
  - intros Hsym i j Hi Hj Hij.
    rewrite (@find_M_product n A i j HA) by auto.
    apply eqm2_sub_zero.
    destruct (Nat.lt_ge_cases j i) as [Hlt|Hge].
    + now apply Hbelow.
    + rewrite (Hsym i j) by auto. rewrite Hswap. apply Hbelow; lia.
Qed.

(** X16.  [find_M] reads only the cells of [A] below the diagonal: two
    arrays with [n] rows that agree there get the same factor.  So for a
    binary [n] x [n] array [A], the array [M M^T - A] that
    [decompose_state] computes from [M = find_M(A)] is diagonal exactly
    when [A] is symmetric; on an array that is not symmetric [find_M]
    returns a factor all the same. *)
Theorem find_M_diagonal_iff (n : nat) (A : matrix) :
  wf n n A -> binary A ->
  (forall A' : matrix,
     nrows A' = n ->
     (forall i j, j < i -> i < n -> get A' i j = get A i j) ->
     find_M A' = find_M A) /\
  ((forall i j, i < n -> j < n -> i <> j ->
      get (sub_mod2 (matmul8 (find_M A) (transpose (find_M A))) A) i j = 0%Z)
   <-> symmetric n A).
Proof.
  intros HA Hbin. split.
  - intros A' HA' Hlow.
    now apply (@find_M_reads_below n A A' (wf_nrows HA) HA').
  - now apply find_M_diagonal.
Qed.

Lemma find_M_diagonal_iff_witness :
  (forall A' : matrix,
     nrows A' = 2 ->
     (forall i j, j < i -> i < 2 -> get A' i j = get [[0; 1]; [0; 0]]%Z i j) ->
     find_M A' = find_M [[0; 1]; [0; 0]]%Z) /\
  ((forall i j, i < 2 -> j < 2 -> i <> j ->
      get (sub_mod2 (matmul8 (find_M [[0; 1]; [0; 0]]%Z)
                             (transpose (find_M [[0; 1]; [0; 0]]%Z)))
                    [[0; 1]; [0; 0]]%Z) i j = 0%Z)
   <-> symmetric 2 [[0; 1]; [0; 0]]%Z).
Proof.
  apply (@find_M_diagonal_iff 2 [[0; 1]; [0; 0]]%Z).
  - split; [reflexivity|]. repeat constructor.
  - repeat (first [apply Forall_nil | apply Forall_cons]); auto.
Defined.

(** ** symplectic_to_matrix *)

Lemma get_at_nat r c M i j :
  wf r c M -> i < r -> j < c ->
  get_at M (Z.of_nat i) (Z.of_nat j) = Some (get M i j).
Proof.
  intros HM Hi Hj. unfold get_at.
  rewrite (wf_nrows HM), (wf_ncols HM) by lia.
  now rewrite (np_index_nat Hi), (np_index_nat Hj).
Qed.

Lemma wrap8_int8 z : (-128 <= z < 128)%Z -> wrap8 z = z.
Proof. intros Hz. unfold wrap8. rewrite Z.mod_small by lia. lia. Qed.

Lemma cells_get (P : Z -> Prop) n m M i j :
  wf n m M -> Forall (Forall P) M -> i < n -> j < m -> P (get M i j).
Proof.
  intros HM Hb Hi Hj. rewrite Forall_forall in Hb.
  assert (Hr : In (nth i M []) M) by (apply nth_In; destruct HM; lia).
  specialize (Hb _ Hr). rewrite Forall_forall in Hb.
  apply Hb. apply nth_In. now rewrite (wf_row HM Hi).
Qed.

(** Under either rule an 8-bit value is stored as it is. *)
Lemma int8_store_small rule v :
  (-128 <= v < 128)%Z -> int8_store rule v = Some v.
Proof.
  intros Hv. destruct rule; simpl.
  - now rewrite wrap8_int8.
  - destruct (Z.leb_spec (-128) v); [|lia].
    destruct (Z.ltb_spec v 128); [reflexivity|lia].
Qed.

Lemma set8_at_inv rule r c M i j v M' :
  wf r c M -> set8_at rule M i j v = Some M' ->
  wf r c M' /\ index_in r i /\ index_in c j.
Proof.
  intros HM. unfold set8_at. rewrite (wf_nrows HM).
  destruct (np_index r i) as [k|] eqn:Hi; simpl; [|discriminate].
  assert (Hr : 0 < r) by (apply np_index_lt in Hi; lia).
  rewrite (wf_ncols HM Hr).
  destruct (np_index c j) as [l|] eqn:Hj; simpl; [|discriminate].
  destruct (int8_store rule v) as [w|]; simpl; [|discriminate].
  intros Heq. injection Heq as <-. split; [now apply wf_set|].
  split; apply np_index_defined; eauto.
Qed.

Lemma set8_at_some rule r c M i j v :
  wf r c M -> index_in r i -> index_in c j -> (-128 <= v < 128)%Z ->
  exists M', set8_at rule M i j v = Some M' /\ wf r c M'.
Proof.
  intros HM Hi Hj Hv. unfold set8_at. rewrite (wf_nrows HM).
  apply np_index_defined in Hi. destruct Hi as [k Hk]. rewrite Hk. simpl.
  assert (Hr : 0 < r) by (apply np_index_lt in Hk; lia).
  rewrite (wf_ncols HM Hr).
  apply np_index_defined in Hj. destruct Hj as [l Hl]. rewrite Hl. simpl.
  rewrite (int8_store_small rule Hv). simpl.
  eexists. split; [reflexivity|]. now apply wf_set.
Qed.

Lemma in_enumerate {A} (d : A) (l : list A) i x :
  In (i, x) (enumerate l) <-> i < length l /\ nth i l d = x.
Proof.
  unfold enumerate. split.
  - intros Hin. destruct (In_nth _ _ (0, d) Hin) as (k & Hk & Hnth).
    rewrite length_combine, length_seq, Nat.min_id in Hk.
    rewrite combine_nth in Hnth by now rewrite length_seq.
    rewrite seq_nth in Hnth by auto. injection Hnth as <- <-. auto.
  - intros [Hi <-].
    replace (i, nth i l d) with (nth i (combine (seq 0 (length l)) l) (0, d)).
    + apply nth_In. now rewrite length_combine, length_seq, Nat.min_id.
    + rewrite combine_nth by now rewrite length_seq.
      now rewrite seq_nth.
Qed.

Lemma for_in_defined {A St} (P : St -> Prop) (l : list A)
  (body : A -> St -> option St) s :
  P s ->
  (forall x s, In x l -> P s -> exists s', body x s = Some s' /\ P s') ->
  exists r, for_in l body s = Some r /\ P r.
Proof.
  revert s. induction l as [|x l IH]; intros s Hs Hbody; simpl.
  - eauto.
  - destruct (Hbody x s (or_introl eq_refl) Hs) as (s' & -> & Hs'). simpl.
    apply IH; auto. intros y t Hy. apply Hbody. now right.
Qed.

Lemma for_in_each {A St} (P : St -> Prop) (l : list A)
  (body : A -> St -> option St) s r :
  P s ->
  (forall x s s', In x l -> P s -> body x s = Some s' -> P s') ->
  for_in l body s = Some r ->
  P r /\ forall x, In x l -> exists s s', P s /\ body x s = Some s'.
Proof.
  revert s. induction l as [|x l IH]; intros s Hs Hbody Hr; simpl in Hr.
  - injection Hr as <-. split; auto. intros x [].
  - destruct (body x s) as [s'|] eqn:Hx; simpl in Hr; [|discriminate].
    assert (Hs' : P s') by (apply (Hbody x s s'); auto; now left).
    destruct (IH s' Hs') as [HP Hall]; auto.
    { intros y t t' Hy. apply Hbody. now right. }
    split; auto. intros y [<- | Hy]; eauto.
Qed.

Section SymplecticToMatrix.
Variables (rule : int8_rule) (S : matrix) (n m : nat).
Hypothesis HS : wf (2 * m) (2 * m) S.
Hypothesis Hint : Forall (Forall (fun z => (-128 <= z < 128)%Z)) S.

Lemma s2m_value i j :
  i < 2 * m -> j < 2 * m -> (-128 <= get S i j < 128)%Z.
Proof.
  intros Hi Hj.
  now apply (@cells_get (fun z => (-128 <= z < 128)%Z) _ _ _ _ _ HS Hint).
Qed.

(** An index that lines 66-69 can use for a row or a column, alone and
    shifted by [n]. *)
Let valid (q : Z) : Prop := (- Z.of_nat (2 * n) <= q < Z.of_nat n)%Z.

Lemma s2m_cell_some i j q_i q_j M :
  wf (2 * n) (2 * n) M -> i < m -> j < m -> valid q_i -> valid q_j ->
  exists M', s2m_cell rule S n m (i, q_i) (j, q_j) M = Some M'
             /\ wf (2 * n) (2 * n) M'.
Proof.
  intros HM Hi Hj Hqi Hqj. unfold s2m_cell.
  assert (Hin : forall q, valid q ->
            index_in (2 * n) q /\ index_in (2 * n) (q + Z.of_nat n))
    by (unfold valid, index_in; intros; lia).
  destruct (Hin _ Hqi) as [Hi0 Hi1]. destruct (Hin _ Hqj) as [Hj0 Hj1].
  rewrite (@get_at_nat (2 * m) (2 * m)) by (auto; lia). simpl.
  destruct (@set8_at_some rule _ _ M q_i q_j (get S i j) HM Hi0 Hj0)
    as (M1 & -> & HM1); [apply s2m_value; lia|]. simpl.
  rewrite (@get_at_nat (2 * m) (2 * m)) by (auto; lia). simpl.
  destruct (@set8_at_some rule _ _ M1 (q_i + Z.of_nat n) q_j
              (get S (i + m) j) HM1 Hi1 Hj0) as (M2 & -> & HM2);
    [apply s2m_value; lia|].
  simpl.
  rewrite (@get_at_nat (2 * m) (2 * m)) by (auto; lia). simpl.
  destruct (@set8_at_some rule _ _ M2 q_i (q_j + Z.of_nat n)
              (get S i (j + m)) HM2 Hi0 Hj1) as (M3 & -> & HM3);
    [apply s2m_value; lia|].
  simpl.
  rewrite (@get_at_nat (2 * m) (2 * m)) by (auto; lia). simpl.
  apply set8_at_some; auto. apply s2m_value; lia.
Qed.

Lemma s2m_cell_inv i j q_i q_j M M' :
  wf (2 * n) (2 * n) M -> i < m -> j < m ->
  s2m_cell rule S n m (i, q_i) (j, q_j) M = Some M' ->
  wf (2 * n) (2 * n) M' /\ valid q_i /\ valid q_j.
Proof.
  intros HM Hi Hj. unfold s2m_cell.
  rewrite (@get_at_nat (2 * m) (2 * m)) by (auto; lia). simpl.
  destruct (set8_at rule M q_i q_j _) as [M1|] eqn:H1; simpl; [|discriminate].
  destruct (@set8_at_inv _ _ _ _ _ _ _ _ HM H1) as (HM1 & Hi0 & Hj0).
  rewrite (@get_at_nat (2 * m) (2 * m)) by (auto; lia). simpl.
  destruct (set8_at rule M1 _ q_j _) as [M2|] eqn:H2; simpl; [|discriminate].
  destruct (@set8_at_inv _ _ _ _ _ _ _ _ HM1 H2) as (HM2 & Hi1 & _).
  rewrite (@get_at_nat (2 * m) (2 * m)) by (auto; lia). simpl.
  destruct (set8_at rule M2 q_i _ _) as [M3|] eqn:H3; simpl; [|discriminate].
  destruct (@set8_at_inv _ _ _ _ _ _ _ _ HM2 H3) as (HM3 & _ & Hj1).
  rewrite (@get_at_nat (2 * m) (2 * m)) by (auto; lia). simpl.
  intros H4. destruct (@set8_at_inv _ _ _ _ _ _ _ _ HM3 H4) as (HM4 & _ & _).
  split; auto. unfold valid, index_in in *. lia.
Qed.
End SymplecticToMatrix.

(** X17.  With a [2m] x [2m] array [S] of 8-bit values for [m] qubit
    labels, [symplectic_to_matrix] returns - a [2n] x [2n] array - exactly
    when every label lies in [-2n, n); any other label raises an index
    error.  Negative labels in that range are accepted and count from the
    end.  This holds under either rule for storing into [int8]. *)
Theorem symplectic_to_matrix_defined (rule : int8_rule) (S : matrix)
  (n : nat) (qubits : list Z) :
  wf (2 * length qubits) (2 * length qubits) S ->
  Forall (Forall (fun z => (-128 <= z < 128)%Z)) S ->
  ((exists M, symplectic_to_matrix rule S n qubits = Some M)
   <-> Forall (fun q => (- Z.of_nat (2 * n) <= q < Z.of_nat n)%Z) qubits) /\
  (forall M, symplectic_to_matrix rule S n qubits = Some M ->
             wf (2 * n) (2 * n) M).
Proof.
  intros HS Hint. set (m := length qubits) in *.
  unfold symplectic_to_matrix. fold m.
  assert (Hinner : forall i q_i M M',
            wf (2 * n) (2 * n) M -> In (i, q_i) (enumerate qubits) ->
            for_in (enumerate qubits)
                   (fun jq => s2m_cell rule S n m (i, q_i) jq) M = Some M' ->
            wf (2 * n) (2 * n) M' /\
            forall j q_j, In (j, q_j) (enumerate qubits) ->
              (- Z.of_nat (2 * n) <= q_j < Z.of_nat n)%Z).
  { intros i q_i M M' HM Hiq Hrun.
    apply (in_enumerate 0%Z) in Hiq. destruct Hiq as [Hi _].
    destruct (@for_in_each _ _ (wf (2 * n) (2 * n)) (enumerate qubits)
                (fun jq => s2m_cell rule S n m (i, q_i) jq) M M' HM) as [HM' Hall];
      auto.
    - intros [j q_j] s s' Hjq Hs Hcell.
      apply (in_enumerate 0%Z) in Hjq. destruct Hjq as [Hj _].
      now destruct (@s2m_cell_inv rule S n m HS i j q_i q_j s s' Hs Hi Hj Hcell).
    - split; auto. intros j q_j Hjq.
      destruct (Hall _ Hjq) as (s & s' & Hs & Hcell).
      apply (in_enumerate 0%Z) in Hjq. destruct Hjq as [Hj _].
      now destruct (@s2m_cell_inv rule S n m HS i j q_i q_j s s' Hs Hi Hj Hcell)
        as (_ & _ & Hq). }
  split; [split|].
  - intros [M HM].
    destruct (@for_in_each _ _ (wf (2 * n) (2 * n)) (enumerate qubits)
                (fun iq => for_in (enumerate qubits)
                             (fun jq => s2m_cell rule S n m iq jq))
                (identity (2 * n)) M (wf_identity (2 * n))) as [_ Hall]; auto.
    { intros [i q_i] s s' Hiq Hs Hrun.
      now destruct (Hinner i q_i s s' Hs Hiq Hrun). }
    apply Forall_forall. intros q Hq.
    destruct (In_nth _ _ 0%Z Hq) as (j & Hj & Hnth).
    assert (Hjq : In (j, q) (enumerate qubits))
      by (apply (in_enumerate 0%Z); auto).
    destruct (Hall _ Hjq) as (s & s' & Hs & Hrun).
    destruct (Hinner j q s s' Hs Hjq Hrun) as [_ Hvalid].
    now apply (Hvalid j q).
  - intros Hvalid. rewrite Forall_forall in Hvalid.
    destruct (@for_in_defined _ _ (wf (2 * n) (2 * n)) (enumerate qubits)
                (fun iq => for_in (enumerate qubits)
                             (fun jq => s2m_cell rule S n m iq jq))
                (identity (2 * n)) (wf_identity (2 * n))) as (M & HM & _);
      eauto.
    intros [i q_i] s Hiq Hs.
    apply (in_enumerate 0%Z) in Hiq. destruct Hiq as [Hi Hqi].
    apply for_in_defined; auto.
    intros [j q_j] t Hjq Ht.
    apply (in_enumerate 0%Z) in Hjq. destruct Hjq as [Hj Hqj].
    apply (@s2m_cell_some rule S n m HS Hint); auto.
    + apply Hvalid. rewrite <- Hqi. now apply nth_In.
    + apply Hvalid. rewrite <- Hqj. now apply nth_In.
  - intros M HM.
    destruct (@for_in_each _ _ (wf (2 * n) (2 * n)) (enumerate qubits)
                (fun iq => for_in (enumerate qubits)
                             (fun jq => s2m_cell rule S n m iq jq))
                (identity (2 * n)) M (wf_identity (2 * n))) as [HwfM _]; auto.
    intros [i q_i] s s' Hiq Hs Hrun.
    now destruct (Hinner i q_i s s' Hs Hiq Hrun).
Qed.

Lemma symplectic_to_matrix_defined_witness :
  ((exists M, symplectic_to_matrix Int8Raises [[0; 1]; [1; 1]]%Z 2 [(-4)%Z]
              = Some M)
   <-> Forall (fun q => (- Z.of_nat (2 * 2) <= q < Z.of_nat 2)%Z) [(-4)%Z]) /\
  (forall M, symplectic_to_matrix Int8Raises [[0; 1]; [1; 1]]%Z 2 [(-4)%Z]
             = Some M ->
             wf (2 * 2) (2 * 2) M).
Proof.
  apply (@symplectic_to_matrix_defined Int8Raises [[0; 1]; [1; 1]]%Z 2
           [(-4)%Z]).
  - split; [reflexivity|]. repeat constructor.
  - repeat (first [apply Forall_nil | apply Forall_cons]); lia.
Defined.

(** *** The cells of the result *)

(** One assignment [M[r, c] = v], and a list of them in order. *)
Definition cell_write := (nat * nat * Z)%type.

Definition write (M : matrix) (w : cell_write) : matrix :=
  set M (fst (fst w)) (snd (fst w)) (snd w).

(** The four assignments of lines 66-69 for labels that are natural
    numbers and 8-bit values. *)
Definition s2m_writes (S : matrix) (n m : nat) (iq jq : nat * nat)
  : list cell_write :=
  let (i, q_i) := iq in
  let (j, q_j) := jq in
  [(q_i, q_j, get S i j);
   (q_i + n, q_j, get S (i + m) j);
   (q_i, q_j + n, get S i (j + m));
   (q_i + n, q_j + n, get S (i + m) (j + m))].

Lemma in_s2m_writes S n m i q_i j q_j (w : cell_write) :
  In w (s2m_writes S n m (i, q_i) (j, q_j)) <->
  exists a b, a < 2 /\ b < 2 /\
    w = (q_i + a * n, q_j + b * n, get S (i + a * m) (j + b * m)).
Proof.
  unfold s2m_writes. split.
  - intros [<- | [<- | [<- | [<- | []]]]].
    + exists 0, 0. simpl. rewrite !Nat.add_0_r. auto.
    + exists 1, 0. simpl. rewrite !Nat.add_0_r. auto.
    + exists 0, 1. simpl. rewrite !Nat.add_0_r. auto.
    + exists 1, 1. simpl. rewrite !Nat.add_0_r. auto.
  - intros (a & b & Ha & Hb & ->).
    destruct a as [|[|a]]; [| |lia]; (destruct b as [|[|b]]; [| |lia]);
      simpl; rewrite !Nat.add_0_r; auto.
Qed.

Lemma wf_writes r c (W : list cell_write) M :
  wf r c M -> wf r c (fold_left write W M).
Proof.
  revert M. induction W as [|w W IH]; intros M HM; simpl; auto.
  apply IH. now apply wf_set.
Qed.

Lemma get_writes_other r c (W : list cell_write) M i j :
  wf r c M ->
  Forall (fun w : cell_write => fst (fst w) < r /\ snd (fst w) < c) W ->
  (forall v, ~ In (i, j, v) W) ->
  get (fold_left write W M) i j = get M i j.
Proof.
  revert M. induction W as [|w W IH]; intros M HM Hb Hnot; simpl; auto.
  inversion Hb as [|? ? [Hwr Hwc] Hb']; subst.
  rewrite IH; auto.
  - unfold write. rewrite (get_set _ _ _ HM Hwr Hwc).
    destruct (Nat.eqb_spec (fst (fst w)) i) as [Hi|]; simpl; auto.
    destruct (Nat.eqb_spec (snd (fst w)) j) as [Hj|]; simpl; auto.
    exfalso. apply (Hnot (snd w)). left.
    destruct w as [[wr wc] wv]. simpl in *. congruence.
  - now apply wf_set.
  - intros v Hv. apply (Hnot v). now right.
Qed.

Lemma get_writes_same r c (W : list cell_write) M i j v :
  wf r c M ->
  Forall (fun w : cell_write => fst (fst w) < r /\ snd (fst w) < c) W ->
  In (i, j, v) W ->
  (forall v', In (i, j, v') W -> v' = v) ->
  get (fold_left write W M) i j = v.
Proof.
  revert M. induction W as [|w W IH] using rev_ind; intros M HM Hb Hin Hsame.
  - destruct Hin.
  - apply Forall_app in Hb. destruct Hb as [Hb Hw].
    inversion Hw as [|? ? [Hwr Hwc] _]; subst.
    rewrite fold_left_app. simpl. unfold write at 1.
    rewrite (get_set _ _ _ (wf_writes W HM) Hwr Hwc).
    destruct (Nat.eqb_spec (fst (fst w)) i) as [Hi|Hi]; simpl.
    + destruct (Nat.eqb_spec (snd (fst w)) j) as [Hj|Hj]; simpl.
      * apply Hsame. apply in_or_app. right. left.
        destruct w as [[wr wc] wv]. simpl in *. congruence.
      * apply IH; auto.
        -- apply in_app_or in Hin. destruct Hin as [Hin | [Hw' | []]]; auto.
           subst w. simpl in Hj. contradiction.
        -- intros v' Hv'. apply Hsame. apply in_or_app. now left.
    + apply IH; auto.
      * apply in_app_or in Hin. destruct Hin as [Hin | [Hw' | []]]; auto.
        subst w. simpl in Hi. contradiction.
      * intros v' Hv'. apply Hsame. apply in_or_app. now left.
Qed.

Lemma for_in_total {A St} (P : St -> Prop) (l : list A)
  (body : A -> St -> option St) (f : A -> St -> St) s :
  P s ->
  (forall x s, In x l -> P s -> body x s = Some (f x s) /\ P (f x s)) ->
  for_in l body s = Some (fold_left (fun s x => f x s) l s) /\
  P (fold_left (fun s x => f x s) l s).
Proof.
  revert s. induction l as [|x l IH]; intros s Hs Hbody; simpl; auto.
  destruct (Hbody x s (or_introl eq_refl) Hs) as (-> & Hs'). simpl.
  apply IH; auto. intros y t Hy. apply Hbody. now right.
Qed.

Lemma fold_left_flat_map {A B St} (f : St -> B -> St) (g : A -> list B)
  (l : list A) s :
  fold_left f (flat_map g l) s
  = fold_left (fun s x => fold_left f (g x) s) l s.
Proof.
  revert s. induction l as [|x l IH]; intros s; simpl; auto.
  now rewrite fold_left_app, IH.
Qed.

Lemma fold_left_over_map {A B St} (f : B -> St -> St) (g : A -> B)
  (l : list A) s :
  fold_left (fun s y => f y s) (map g l) s
  = fold_left (fun s x => f (g x) s) l s.
Proof. revert s. induction l as [|x l IH]; intros s; simpl; auto. Qed.

Section SymplecticCells.
Variables (rule : int8_rule) (S : matrix) (n : nat) (qs : list nat).

Let m : nat := length qs.
Let q (i : nat) : nat := nth i qs 0.

Hypothesis HS : wf (2 * m) (2 * m) S.
Hypothesis Hint : Forall (Forall (fun z => (-128 <= z < 128)%Z)) S.
Hypothesis Hdistinct : NoDup qs.
Hypothesis Hrange : Forall (fun x => x < n) qs.

(** Every assignment of the run, in order. *)
Definition s2m_all_writes : list cell_write :=
  flat_map (fun i =>
    flat_map (fun j => s2m_writes S n m (i, q i) (j, q j)) (seq 0 m))
    (seq 0 m).

Lemma q_lt i : i < m -> q i < n.
Proof.
  intros Hi. rewrite Forall_forall in Hrange. apply Hrange.
  now apply nth_In.
Qed.

Lemma q_inj i j : i < m -> j < m -> q i = q j -> i = j.
Proof.
  intros Hi Hj. now apply (proj1 (NoDup_nth qs 0) Hdistinct).
Qed.

Lemma in_all_writes (w : cell_write) :
  In w s2m_all_writes <->
  exists i j a b, i < m /\ j < m /\ a < 2 /\ b < 2 /\
    w = (q i + a * n, q j + b * n, get S (i + a * m) (j + b * m)).
Proof.
  unfold s2m_all_writes. rewrite in_flat_map. split.
  - intros (i & Hi & Hw). apply in_seq in Hi.
    apply in_flat_map in Hw. destruct Hw as (j & Hj & Hw). apply in_seq in Hj.
    apply in_s2m_writes in Hw. destruct Hw as (a & b & Ha & Hb & ->).
    exists i, j, a, b. repeat split; auto; lia.
  - intros (i & j & a & b & Hi & Hj & Ha & Hb & ->).
    exists i. split; [apply in_seq; lia|].
    apply in_flat_map. exists j. split; [apply in_seq; lia|].
    apply in_s2m_writes. exists a, b. auto.
Qed.

Lemma all_writes_bounds :
  Forall (fun w : cell_write => fst (fst w) < 2 * n /\ snd (fst w) < 2 * n)
         s2m_all_writes.
Proof.
  apply Forall_forall. intros w Hw. apply in_all_writes in Hw.
  destruct Hw as (i & j & a & b & Hi & Hj & Ha & Hb & ->). simpl.
  pose proof (q_lt Hi). pose proof (q_lt Hj). nia.
Qed.

Lemma s2m_cell_writes i j M :
  wf (2 * n) (2 * n) M -> i < m -> j < m ->
  s2m_cell rule S n m (i, Z.of_nat (q i)) (j, Z.of_nat (q j)) M
  = Some (fold_left write (s2m_writes S n m (i, q i) (j, q j)) M).
Proof.
  intros HM Hi Hj. pose proof (q_lt Hi) as Hqi. pose proof (q_lt Hj) as Hqj.
  assert (Hval : forall r c, r < 2 * m -> c < 2 * m ->
            (-128 <= get S r c < 128)%Z).
  { intros r c Hr Hc.
    now apply (@cells_get (fun z => (-128 <= z < 128)%Z) _ _ _ _ _ HS Hint). }
  assert (Hset : forall M r c v, wf (2 * n) (2 * n) M -> r < 2 * n ->
            c < 2 * n -> (-128 <= v < 128)%Z ->
            set8_at rule M (Z.of_nat r) (Z.of_nat c) v
            = Some (set M r c v)).
  { intros M0 r c v HM0 Hr Hc Hv. unfold set8_at.
    rewrite (wf_nrows HM0), (wf_ncols HM0) by lia.
    rewrite (np_index_nat Hr), (np_index_nat Hc). simpl.
    now rewrite (int8_store_small rule Hv). }
  unfold s2m_cell, s2m_writes. simpl.
  rewrite <- !Nat2Z.inj_add.
  rewrite (@get_at_nat (2 * m) (2 * m)) by (auto; lia). simpl.
  rewrite Hset by (auto; try apply Hval; lia). simpl.
  rewrite (@get_at_nat (2 * m) (2 * m)) by (auto; lia). simpl.
  rewrite Hset by (try apply wf_set; auto; try apply Hval; lia). simpl.
  rewrite (@get_at_nat (2 * m) (2 * m)) by (auto; lia). simpl.
  rewrite Hset by (repeat apply wf_set; auto; try apply Hval; lia). simpl.
  rewrite (@get_at_nat (2 * m) (2 * m)) by (auto; lia). simpl.
  rewrite Hset by (repeat apply wf_set; auto; try apply Hval; lia).
  reflexivity.
Qed.

Lemma enumerate_labels :
  enumerate (map Z.of_nat qs) = map (fun i => (i, Z.of_nat (q i))) (seq 0 m).
Proof.
  apply (list_ext (0, 0%Z)).
  - unfold enumerate. rewrite length_combine, !length_map, !length_seq.
    fold m. lia.
  - intros i Hi. unfold enumerate in *.
    rewrite length_combine, length_map, length_seq, Nat.min_id in Hi.
    rewrite combine_nth by now rewrite length_map, length_seq.
    rewrite length_map, seq_nth by auto.
    rewrite (nth_indep _ (0, 0%Z) ((fun i => (i, Z.of_nat (q i))) 0))
      by (rewrite length_map, length_seq; exact Hi).
    rewrite (map_nth (fun i => (i, Z.of_nat (q i)))).
    rewrite seq_nth by exact Hi. simpl. f_equal.
    change 0%Z with (Z.of_nat 0). now rewrite map_nth.
Qed.

Lemma symplectic_to_matrix_writes :
  symplectic_to_matrix rule S n (map Z.of_nat qs)
  = Some (fold_left write s2m_all_writes (identity (2 * n))).
Proof.
  unfold symplectic_to_matrix. rewrite length_map. fold m.
  rewrite enumerate_labels.
  set (f := fun (i : nat) (M : matrix) =>
              fold_left write
                (flat_map (fun j => s2m_writes S n m (i, q i) (j, q j))
                          (seq 0 m)) M).
  assert (Hinner : forall i M, i < m -> wf (2 * n) (2 * n) M ->
            for_in (map (fun j => (j, Z.of_nat (q j))) (seq 0 m))
                   (fun jq => s2m_cell rule S n m (i, Z.of_nat (q i)) jq) M
            = Some (f i M) /\ wf (2 * n) (2 * n) (f i M)).
  { intros i M Hi HM. unfold f. rewrite fold_left_flat_map.
    rewrite <- (@fold_left_over_map _ _ _
                  (fun (jq : nat * Z) M =>
                     fold_left write
                       (s2m_writes S n m (i, q i) (fst jq, q (fst jq))) M)
                  (fun j => (j, Z.of_nat (q j)))).
    apply (@for_in_total _ _ (wf (2 * n) (2 * n)) _ _
             (fun (jq : nat * Z) M =>
                fold_left write
                  (s2m_writes S n m (i, q i) (fst jq, q (fst jq))) M));
      auto.
    intros jq M0 Hjq HM0. apply in_map_iff in Hjq.
    destruct Hjq as (j & <- & Hj). apply in_seq in Hj.
    cbv beta. cbn [fst]. split.
    - apply s2m_cell_writes; auto; lia.
    - now apply wf_writes. }
  unfold s2m_all_writes. rewrite fold_left_flat_map. fold f.
  rewrite <- (@fold_left_over_map _ _ _
                (fun (iq : nat * Z) M => f (fst iq) M)
                (fun i => (i, Z.of_nat (q i)))).
  apply (@for_in_total _ _ (wf (2 * n) (2 * n)) _ _
           (fun (iq : nat * Z) M => f (fst iq) M)).
  - apply wf_identity.
  - intros iq M0 Hiq HM0. apply in_map_iff in Hiq.
    destruct Hiq as (i & <- & Hi). apply in_seq in Hi.
    cbv beta. cbn [fst].
    apply Hinner; auto; lia.
Qed.

Lemma symplectic_cell i j a b :
  i < m -> j < m -> a < 2 -> b < 2 ->
  get (fold_left write s2m_all_writes (identity (2 * n)))
      (q i + a * n) (q j + b * n)
  = get S (i + a * m) (j + b * m).
Proof.
  intros Hi Hj Ha Hb.
  apply (@get_writes_same (2 * n) (2 * n)).
  - apply wf_identity.
  - apply all_writes_bounds.
  - apply in_all_writes. exists i, j, a, b. auto.
  - intros v' Hv'. apply in_all_writes in Hv'.
    destruct Hv' as (i' & j' & a' & b' & Hi' & Hj' & Ha' & Hb' & Heq).
    injection Heq as Hr Hc ->.
    pose proof (q_lt Hi). pose proof (q_lt Hj).
    pose proof (q_lt Hi'). pose proof (q_lt Hj').
    assert (a' = a) by nia. assert (b' = b) by nia. subst a' b'.
    assert (q i = q i') by lia. assert (q j = q j') by lia.
    assert (i = i') by now apply q_inj. assert (j = j') by now apply q_inj.
    now subst.
Qed.

Lemma symplectic_cell_other r c :
  r < 2 * n -> c < 2 * n ->
  ~ In (r mod n) qs \/ ~ In (c mod n) qs ->
  get (fold_left write s2m_all_writes (identity (2 * n))) r c
  = if Nat.eqb r c then 1%Z else 0%Z.
Proof.
  intros Hr Hc Hout.
  rewrite (@get_writes_other (2 * n) (2 * n)).
  - now apply get_identity.
  - apply wf_identity.
  - apply all_writes_bounds.
  - intros v Hv. apply in_all_writes in Hv.
    destruct Hv as (i & j & a & b & Hi & Hj & Ha & Hb & Heq).
    injection Heq as -> -> _.
    pose proof (q_lt Hi). pose proof (q_lt Hj).
    rewrite !Nat.Div0.mod_add, !Nat.mod_small in Hout by lia.
    destruct Hout as [Hout | Hout]; apply Hout; now apply nth_In.
Qed.
End SymplecticCells.

(** X18.  For pairwise different labels in [0, n) and a [2m] x [2m] array
    [S] of 8-bit values, [symplectic_to_matrix] returns the identity of
    size [2n] with the four [m] x [m] blocks of [S] copied to the rows and
    columns the labels name: block [(a, b)] of [S] lands on rows
    [qubits[i] + a n] and columns [qubits[j] + b n].  Every cell whose row
    or column belongs to no label keeps the identity's value.  This holds
    under either rule for storing into [int8]. *)
Theorem symplectic_to_matrix_cells (rule : int8_rule) (S : matrix) (n : nat)
  (qs : list nat) :
  wf (2 * length qs) (2 * length qs) S ->
  Forall (Forall (fun z => (-128 <= z < 128)%Z)) S ->
  NoDup qs -> Forall (fun x => x < n) qs ->
  exists M, symplectic_to_matrix rule S n (map Z.of_nat qs) = Some M /\
    (forall i j, i < length qs -> j < length qs ->
       get M (nth i qs 0) (nth j qs 0) = get S i j /\
       get M (nth i qs 0 + n) (nth j qs 0) = get S (i + length qs) j /\
       get M (nth i qs 0) (nth j qs 0 + n) = get S i (j + length qs) /\
       get M (nth i qs 0 + n) (nth j qs 0 + n)
       = get S (i + length qs) (j + length qs)) /\
    (forall r c, r < 2 * n -> c < 2 * n ->
       ~ In (r mod n) qs \/ ~ In (c mod n) qs ->
       get M r c = if Nat.eqb r c then 1%Z else 0%Z).
Proof.
  intros HS Hint Hnd Hr.
  exists (fold_left write (s2m_all_writes S n qs) (identity (2 * n))).
  split; [now apply symplectic_to_matrix_writes|]. split.
  - intros i j Hi Hj.
    pose proof (fun a b => @symplectic_cell S n qs Hnd Hr i j a b Hi Hj)
      as Hcell.
    pose proof (Hcell 0 0 ltac:(lia) ltac:(lia)) as H00.
    pose proof (Hcell 1 0 ltac:(lia) ltac:(lia)) as H10.
    pose proof (Hcell 0 1 ltac:(lia) ltac:(lia)) as H01.
    pose proof (Hcell 1 1 ltac:(lia) ltac:(lia)) as H11.
    cbv beta in H00, H10, H01, H11.
    rewrite ?Nat.mul_0_l, ?Nat.mul_1_l, ?Nat.add_0_r in H00.
    rewrite ?Nat.mul_0_l, ?Nat.mul_1_l, ?Nat.add_0_r in H10.
    rewrite ?Nat.mul_0_l, ?Nat.mul_1_l, ?Nat.add_0_r in H01.
    rewrite ?Nat.mul_0_l, ?Nat.mul_1_l, ?Nat.add_0_r in H11.
    split; [exact H00|]. split; [exact H10|]. split; [exact H01|exact H11].
  - intros r c Hrow Hcol Hout. now apply symplectic_cell_other.
Qed.

Lemma symplectic_to_matrix_cells_witness :
  exists M, symplectic_to_matrix Int8Raises [[0; 1]; [1; 1]]%Z 2
              (map Z.of_nat [1]) = Some M /\
    (forall i j, i < length [1] -> j < length [1] ->
       get M (nth i [1] 0) (nth j [1] 0) = get [[0; 1]; [1; 1]]%Z i j /\
       get M (nth i [1] 0 + 2) (nth j [1] 0)
       = get [[0; 1]; [1; 1]]%Z (i + length [1]) j /\
       get M (nth i [1] 0) (nth j [1] 0 + 2)
       = get [[0; 1]; [1; 1]]%Z i (j + length [1]) /\
       get M (nth i [1] 0 + 2) (nth j [1] 0 + 2)
       = get [[0; 1]; [1; 1]]%Z (i + length [1]) (j + length [1])) /\
    (forall r c, r < 2 * 2 -> c < 2 * 2 ->
       ~ In (r mod 2) [1] \/ ~ In (c mod 2) [1] ->
       get M r c = if Nat.eqb r c then 1%Z else 0%Z).
Proof.
  apply (@symplectic_to_matrix_cells Int8Raises [[0; 1]; [1; 1]]%Z 2 [1]).
  - split; [reflexivity|]. repeat constructor.
  - repeat (first [apply Forall_nil | apply Forall_cons]); lia.
  - repeat constructor. simpl. intros [].
  - repeat constructor.
Defined.

(** X19.  Applied to all [n] qubits in their order, [qubits = range(n)],
    [symplectic_to_matrix] returns the [2n] x [2n] array [S] itself,
    provided its cells are 8-bit values, under either rule for storing
    into [int8]. *)
Theorem symplectic_to_matrix_all (rule : int8_rule) (S : matrix) (n : nat) :
  wf (2 * n) (2 * n) S ->
  Forall (Forall (fun z => (-128 <= z < 128)%Z)) S ->
  symplectic_to_matrix rule S n (map Z.of_nat (seq 0 n)) = Some S.
Proof.
  intros HS Hint.
  assert (HS' : wf (2 * length (seq 0 n)) (2 * length (seq 0 n)) S)
    by now rewrite length_seq.
  assert (Hnd : NoDup (seq 0 n)) by apply seq_NoDup.
  assert (Hr : Forall (fun x => x < n) (seq 0 n))
    by (apply Forall_forall; intros x Hx; apply in_seq in Hx; lia).
  rewrite (@symplectic_to_matrix_writes rule S n (seq 0 n) HS' Hint Hr).
  f_equal.
  apply (@matrix_ext (2 * n) (2 * n)); auto.
  { apply wf_writes. apply wf_identity. }
  intros r c Hrow Hcol.
  assert (Hn : n <> 0) by lia.
  assert (Hsplit : forall k, k < 2 * n ->
            k mod n < n /\ k / n < 2 /\ k = k mod n + k / n * n).
  { intros k Hk. split; [now apply Nat.mod_upper_bound|]. split.
    - apply Nat.Div0.div_lt_upper_bound. lia.
    - pose proof (Nat.div_mod_eq k n). lia. }
  destruct (Hsplit r Hrow) as (Hi & Ha & Hreq).
  destruct (Hsplit c Hcol) as (Hj & Hb & Hceq).
  assert (Hi' : r mod n < length (seq 0 n)) by now rewrite length_seq.
  assert (Hj' : c mod n < length (seq 0 n)) by now rewrite length_seq.
  pose proof (@symplectic_cell S n (seq 0 n) Hnd Hr
                (r mod n) (c mod n) (r / n) (c / n) Hi' Hj' Ha Hb) as Hcell.
  cbv beta in Hcell.
  rewrite !seq_nth, length_seq in Hcell by auto.
  rewrite !Nat.add_0_l in Hcell.
  rewrite <- Hreq, <- Hceq in Hcell. exact Hcell.
Qed.

Lemma symplectic_to_matrix_all_witness :
  symplectic_to_matrix Int8Wraps [[0; 1]; [1; 1]]%Z 1
    (map Z.of_nat (seq 0 1))
  = Some [[0; 1]; [1; 1]]%Z.
Proof.
  apply (@symplectic_to_matrix_all Int8Wraps [[0; 1]; [1; 1]]%Z 1).
  - split; [reflexivity|]. repeat constructor.
  - repeat (first [apply Forall_nil | apply Forall_cons]); lia.
Defined.

(** ** transform_symplectic and the two symplectic forms *)

(** The form [direct_sum X] on columns [p] and [q] of [S]: cell [(p, q)] of
    [S^T L S] for [L = direct_sum X], which pairs rows [2k] and [2k + 1]. *)
Definition omega_pairs (n : nat) (S : matrix) (p q : nat) : Z :=
  sumZ n (fun k => get S (2 * k) p * get S (2 * k + 1) q
                   + get S (2 * k + 1) p * get S (2 * k) q)%Z.

(** Cell [(p, q)] of [direct_sum X], and of [[0, I], [I, 0]]. *)
Definition paired_X (p q : nat) : bool :=
  Nat.eqb (p / 2) (q / 2) && negb (Nat.eqb p q).

Definition paired_block (n r c : nat) : bool :=
  Nat.eqb c (r + n) || Nat.eqb r (c + n).

(** Where [transform_symplectic] takes row or column [r] from. *)
Definition interleave (n r : nat) : nat :=
  if Nat.ltb r n then 2 * r else 2 * (r - n) + 1.

Lemma transform_symplectic_row n S r i :
  wf (2 * n) (2 * n) S -> binary S -> r < 2 * n -> i < n ->
  get (transform_symplectic S) r i = get S (2 * i) (interleave n r) /\
  get (transform_symplectic S) r (n + i) = get S (2 * i + 1) (interleave n r).
Proof.
  intros HS Hbin Hr Hi. unfold interleave.
  destruct (Nat.ltb_spec r n) as [Hlt|Hge].
  - destruct (@transform_symplectic_cells n S HS Hbin r i Hlt Hi)
      as (Ha & Hb & _). auto.
  - assert (Hj : r - n < n) by lia.
    destruct (@transform_symplectic_cells n S HS Hbin (r - n) i Hj Hi)
      as (_ & _ & Hc & Hd).
    replace (n + (r - n)) with r in Hc, Hd by lia. auto.
Qed.

Lemma paired_interleave n r c :
  r < 2 * n -> c < 2 * n ->
  paired_X (interleave n r) (interleave n c) = paired_block n r c.
Proof.
  intros Hr Hc. unfold paired_X, paired_block, interleave.
  assert (Hdiv : forall k, (2 * k + 1) / 2 = k).
  { intros k. rewrite Nat.mul_comm, Nat.div_add_l by lia. simpl. lia. }
  assert (Hdiv0 : forall k, (2 * k) / 2 = k).
  { intros k. rewrite Nat.mul_comm. apply Nat.div_mul. lia. }
  destruct (Nat.ltb_spec r n), (Nat.ltb_spec c n);
    rewrite ?Hdiv, ?Hdiv0;
    repeat match goal with
           | |- context [Nat.eqb ?x ?y] => destruct (Nat.eqb_spec x y)
           end; simpl; auto; lia.
Qed.

(** X20.  On a binary [2n] x [2n] array, [transform_symplectic] transposes
    and regroups: the form [[0, I], [I, 0]] on rows [r] and [c] of the
    result equals the form [direct_sum X] on the columns of [S] they come
    from.  So when the columns of [S] are symplectic for [direct_sum X], the
    rows of the result are symplectic for [[0, I], [I, 0]]. *)
Theorem transform_symplectic_form (n : nat) (S : matrix) :
  wf (2 * n) (2 * n) S -> binary S ->
  (forall r c, r < 2 * n -> c < 2 * n ->
     omega n (get (transform_symplectic S) r) (get (transform_symplectic S) c)
     = omega_pairs n S (interleave n r) (interleave n c)) /\
  ((forall p q, p < 2 * n -> q < 2 * n ->
      eqm2 (omega_pairs n S p q) (Z.b2z (paired_X p q))) ->
   forall r c, r < 2 * n -> c < 2 * n ->
     eqm2 (omega n (get (transform_symplectic S) r)
                   (get (transform_symplectic S) c))
          (Z.b2z (paired_block n r c))).
Proof.
  intros HS Hbin.
  assert (Hform : forall r c, r < 2 * n -> c < 2 * n ->
            omega n (get (transform_symplectic S) r)
                    (get (transform_symplectic S) c)
            = omega_pairs n S (interleave n r) (interleave n c)).
  { intros r c Hr Hc. unfold omega, omega_pairs. apply sumZ_ext.
    intros i Hi.
    destruct (@transform_symplectic_row n S r i HS Hbin Hr Hi) as [-> ->].
    destruct (@transform_symplectic_row n S c i HS Hbin Hc Hi) as [-> ->].
    reflexivity. }
  split; auto.
  intros Hsym r c Hr Hc. rewrite Hform by auto.
  rewrite <- paired_interleave by auto.
  apply Hsym; unfold interleave.
  - destruct (Nat.ltb_spec r n); lia.
  - destruct (Nat.ltb_spec c n); lia.
Qed.

Lemma transform_symplectic_form_witness :
  (forall r c, r < 2 * 1 -> c < 2 * 1 ->
     omega 1 (get (transform_symplectic [[0; 1]; [1; 0]]%Z) r)
             (get (transform_symplectic [[0; 1]; [1; 0]]%Z) c)
     = omega_pairs 1 [[0; 1]; [1; 0]]%Z (interleave 1 r) (interleave 1 c)) /\
  (forall r c, r < 2 * 1 -> c < 2 * 1 ->
     eqm2 (omega 1 (get (transform_symplectic [[0; 1]; [1; 0]]%Z) r)
                   (get (transform_symplectic [[0; 1]; [1; 0]]%Z) c))
          (Z.b2z (paired_block 1 r c))).
Proof.
  assert (HS : wf (2 * 1) (2 * 1) [[0; 1]; [1; 0]]%Z)
    by (split; [reflexivity|]; repeat constructor).
  assert (Hbin : binary [[0; 1]; [1; 0]]%Z)
    by (repeat (first [apply Forall_nil | apply Forall_cons]); auto).
  destruct (@transform_symplectic_form 1 [[0; 1]; [1; 0]]%Z HS Hbin)
    as [Hform Hsym].
  split; [exact Hform|]. apply Hsym.
  intros [|[|p]] [|[|q]] Hp Hq; try lia; reflexivity.
Defined.

(** ** When no Hadamard is selected *)

Lemma span_left_block n (c d M : matrix) :
  wf n n c -> wf n n d ->
  same_span n n (n + n) (get M) (get (hstack c d)) ->
  same_span n n n (get M) (get c).
Proof.
  intros Hc Hd Hspan.
  assert (Hleft : forall y j, j < n ->
            eqm2 (comb n y (get (hstack c d)) j) (comb n y (get c) j)).
  { intros y j Hj. apply comb_eqm2; [reflexivity|].
    intros i Hi. rewrite (get_hstack _ Hc Hd Hi).
    destruct (Nat.ltb_spec j n); [reflexivity|lia]. }
  intros v. split.
  - intros [x Hx].
    assert (Hw : in_span n (n + n) (get M) (comb n x (get M)))
      by (exists x; reflexivity).
    apply Hspan in Hw. destruct Hw as [y Hy].
    exists y. intros j Hj.
    rewrite <- (Hleft y j Hj), (Hy j) by lia. now apply Hx.
  - intros [y Hy].
    assert (Hw : in_span n (n + n) (get (hstack c d))
                         (comb n y (get (hstack c d))))
      by (exists y; reflexivity).
    apply Hspan in Hw. destruct Hw as [x Hx].
    exists x. intros j Hj.
    rewrite (Hx j), (Hleft y j Hj) by lia. now apply Hy.
Qed.

(** X21.  For binary [n] x [n] arrays with [[c | d]] of rank [n],
    [get_hadamard_steps] selects no qubit exactly when [c] alone has full
    rank. *)
Theorem hadamard_steps_empty_iff (n : nat) (c d : matrix) :
  wf n n c -> wf n n d -> binary c -> binary d ->
  has_rank n (2 * n) (get (hstack c d)) n ->
  (get_hadamard_steps c d = [] <-> has_rank n n (get c) n).
Proof.
  intros Hc Hd Hbc Hbd Hrank.
  replace (2 * n) with (n + n) in Hrank by lia.
  pose proof (wf_hstack Hc Hd) as HA.
  pose proof (binary_hstack Hc Hd Hbc Hbd) as HbA.
  assert (Hsteps : get_hadamard_steps c d
            = map (fun p => snd p - n)
                  (filter (fun p => Nat.leb n (snd p))
                     (row_wise_gaussian_elimination_pivots (hstack c d)))).
  { unfold get_hadamard_steps. now rewrite (wf_nrows HA). }
  destruct (Nat.eq_dec n 0) as [->|Hn].
  { split; intros _; [apply has_rank_empty|].
    rewrite Hsteps.
    destruct (row_pivots_in_bounds (hstack c d)) as (_ & Hlen & _).
    rewrite (wf_nrows HA) in Hlen.
    destruct (row_wise_gaussian_elimination_pivots (hstack c d));
      [reflexivity|simpl in Hlen; lia]. }
  pose proof (@row_wise_run_done n (n + n) (hstack c d) HA HbA ltac:(lia))
    as Hdone.
  pose proof (rank_unique (rw_done_rank Hdone) Hrank) as Hk.
  destruct Hdone as (j & (Hkn & Hjm & (Hlen & Hrows & Hinc) & Hst) & Hend).
  destruct Hst as (HM & HbM & Hspan & Hpiv & Hzero).
  rewrite Hk in *.
  set (M := rw_M (row_wise_run (hstack c d))) in *.
  set (pc := pcol (rw_pivots (row_wise_run (hstack c d)))) in *.
  assert (HT : forall i, In i (get_hadamard_steps c d) <->
                 exists r, r < n /\ pc r = n + i).
  { intros i. rewrite Hsteps.
    unfold row_wise_gaussian_elimination_pivots.
    rewrite in_hadamard_steps. split; intros (r & Hr & Hpc); exists r;
      (split; [|exact Hpc]).
    - rewrite <- Hlen. exact Hr.
    - rewrite <- Hlen in Hr. exact Hr. }
  split.
  - intros Hnil.
    assert (Hleft : forall r, r < n -> pc r < n).
    { intros r Hr. destruct (Nat.lt_ge_cases (pc r) n) as [|Hge]; auto.
      exfalso. assert (Hin : In (pc r - n) (get_hadamard_steps c d))
        by (apply HT; exists r; split; auto; lia).
      rewrite Hnil in Hin. destruct Hin. }
    exists (get M). split.
    + intros x Hx. apply (@echelon_coefficients n (get M) pc x).
      * intros r Hr. destruct (Hpiv r Hr) as (-> & _). reflexivity.
      * intros r r' Hrr' Hr'.
        destruct (Hpiv r ltac:(lia)) as (_ & Hbelow & _).
        rewrite (Hbelow r') by lia. reflexivity.
      * intros r Hr. apply Hx. now apply Hleft.
    + now apply (@span_left_block n c d M).
  - intros Hcrank. pose proof (full_rank_indep Hcrank) as Hind.
    destruct (get_hadamard_steps c d) as [|i l] eqn:Hl; [reflexivity|].
    exfalso.
    destruct (proj1 (HT i) (or_introl eq_refl)) as (r & Hr & Hpc).
    destruct (Hpiv r Hr) as (Hone & _ & Hlead).
    assert (Hrow : in_span n (n + n) (get (hstack c d)) (get M r))
      by (apply Hspan; now apply in_span_row).
    destruct Hrow as [x Hx].
    assert (Htriv : trivial n x).
    { apply Hind. intros col Hcol.
      rewrite <- (Hlead col) by lia. rewrite <- (Hx col) by lia.
      apply comb_eqm2; [reflexivity|].
      intros k Hk'. rewrite (get_hstack _ Hc Hd Hk').
      destruct (Nat.ltb_spec col n); [reflexivity|lia]. }
    destruct (Hrows r Hr) as [_ Hpcj].
    pose proof (Hx (pc r) ltac:(lia)) as Hone'.
    rewrite (comb_trivial (get (hstack c d)) (pc r) Htriv), Hone in Hone'.
    unfold eqm2 in Hone'. vm_compute in Hone'. discriminate.
Qed.

Lemma hadamard_steps_empty_iff_witness :
  get_hadamard_steps [[0; 0]; [0; 0]]%Z [[1; 0]; [0; 1]]%Z = []
  <-> has_rank 2 2 (get [[0; 0]; [0; 0]]%Z) 2.
Proof.
  apply (@hadamard_steps_empty_iff 2 [[0; 0]; [0; 0]]%Z [[1; 0]; [0; 1]]%Z).
  - split; [reflexivity|]. repeat constructor.
  - split; [reflexivity|]. repeat constructor.
  - repeat (first [apply Forall_nil | apply Forall_cons]); auto.
  - repeat (first [apply Forall_nil | apply Forall_cons]); auto.
  - apply indep_has_rank. intros x Hzero.
    pose proof (Hzero 2 ltac:(lia)) as H0.
    pose proof (Hzero 3 ltac:(lia)) as H1.
    unfold comb, eqm2, get in H0, H1. simpl in H0, H1.
    intros [|[|i]] Hi; try lia; unfold eqm2; Z.div_mod_to_equations; lia.
Defined.

(** ** The rank test for the column elimination *)

Lemma get_rank_has_rank n m A :
  wf n m A -> binary A -> has_rank n m (get A) (get_rank A).
Proof.
  intros HA Hbin. unfold get_rank, row_wise_gaussian_elimination_pivots.
  destruct (Nat.eq_dec n 0) as [->|Hn].
  - destruct HA as [Hlen _]. apply length_zero_iff_nil in Hlen. subst A.
    rewrite row_wise_run_empty. simpl. apply has_rank_empty.
  - pose proof (@row_wise_run_done n m A HA Hbin ltac:(lia)) as Hdone.
    pose proof (rw_done_rank Hdone) as Hrank.
    destruct Hdone as (j & (_ & _ & (Hlen & _) & _) & _).
    now rewrite Hlen.
Qed.

(** X22.  [get_rank] tells beforehand whether the column elimination will
    succeed: on a binary [n] x [n] array the steps of
    [col_wise_gaussian_elimination_steps] lead to the identity exactly when
    [get_rank] returns [n]. *)
Theorem col_steps_succeed_iff_rank (n : nat) (A : matrix) :
  wf n n A -> binary A ->
  (apply_steps A (col_wise_gaussian_elimination_steps A) = identity n
   <-> get_rank A = n).
Proof.
  intros HA Hbin.
  pose proof (get_rank_has_rank HA Hbin) as HrA.
  split.
  - intros Hid.
    assert (Hind : indep n n (get A)).
    { apply (@apply_steps_indep_back n
               (col_wise_gaussian_elimination_steps A)); auto.
      - pose proof (col_steps_in_bounds A) as Hb.
        pose proof (col_steps_distinct A) as Hd.
        rewrite (wf_nrows HA) in Hb.
        rewrite Forall_forall in *. intros p Hp.
        destruct (Hb p Hp). split; auto. split; auto. now apply Hd.
      - rewrite Hid. apply indep_identity. }
    apply (rank_unique HrA (indep_has_rank Hind)).
  - intros Hfull. rewrite Hfull in HrA.
    pose proof (full_rank_indep HrA) as Hind.
    unfold col_wise_gaussian_elimination_steps, col_wise_run.
    rewrite (wf_nrows HA).
    rewrite <- (@col_wise_run_replayed n A).
    apply col_upper_spec. apply lower_upto_upper_done.
    now apply col_lower_spec.
Qed.

Lemma col_steps_succeed_iff_rank_witness :
  apply_steps [[0; 1]; [1; 1]]%Z
    (col_wise_gaussian_elimination_steps [[0; 1]; [1; 1]]%Z) = identity 2
  <-> get_rank [[0; 1]; [1; 1]]%Z = 2.
Proof.
  apply (@col_steps_succeed_iff_rank 2 [[0; 1]; [1; 1]]%Z).
  - split; [reflexivity|]. repeat constructor.
  - repeat (first [apply Forall_nil | apply Forall_cons]); auto.
Defined.
